(** * FlipJump: the .fjm memory image, the interpreter loop, the standard
    I/O device and the expression/namespace rules of the parser.

    A shallow embedding of [src/fjm.py], [src/fjm_run.py],
    [src/io_devices/StandardIO.py] and of the expression and dot-identifier
    rules of [src/fj_parser.py].

    Python integers are unbounded, so they are [Z]; [&], [|], [>>], [<<]
    are [Z.land], [Z.lor], [Z.shiftr], [Z.shiftl] (which agree with Python
    on negative operands as well: two's complement, flooring shifts).
    A Python [dict] keyed by integers is a [gmap Z Z].  Exceptions are the
    [Raise] case of [result]; mutable objects are passed and returned. *)

From Stdlib Require Import ZArith Lia List Bool Ascii String Strings.Byte.
From stdpp Require Import base option gmap list strings.

Open Scope Z_scope.

(* ================================================================== *)
(** ** Exceptions and the result monad *)

(** The texts of the [FJReadFjmException]s raised in [fjm.py]. *)
Inductive read_message : Type :=
| BadFile                                  (* "Bad file ..., can't unpack" *)
| BadMagic (magic : Z)                     (* "Error: bad magic code" *)
| UnsupportedVersion (version : Z)         (* "Error: unsupported version" *)
| BadReserved (reserved : Z)               (* "Error: bad reserved value" *)
| ReadingGarbageWord (address garbage_val : Z)
| AccessedOutsideOfMemory.                 (* "(beyond the last bit)" *)

(** The texts of the [FJWriteFjmException]s raised in [fjm.py]. *)
Inductive write_message : Type :=
| WordSizeNotSupported (w : Z)
| VersionNot64Bit (version : Z)
| FlagsNot64Bit (flags : Z)
| Version0HasNoFlags
| SegmentLengthBelowDataLength
| OverlappingSegments (i : nat) (bit_start bit_end : Z)
                      (n : nat) (new_bit_start new_bit_end : Z).

Inductive exn : Type :=
| FJReadFjmException (msg : read_message)
| FJWriteFjmException (msg : write_message)
| struct_error
| KeyError (key : Z)
| IndexError
| OverflowError
| TypeError
| ValueError
| ZeroDivisionError
| IOReadOnEOF
| IncompleteOutput
| IOError (name : string).                 (* any other device failure *)

Inductive result (A : Type) : Type :=
| Ok (a : A)
| Raise (e : exn).
Arguments Ok {A} a.
Arguments Raise {A} e.

#[global] Instance result_bind : MBind result :=
  fun A B f m => match m with Ok a => f a | Raise e => Raise e end.
#[global] Instance result_ret : MRet result := fun A a => Ok a.

Definition is_Ok {A} (r : result A) : bool :=
  match r with Ok _ => true | Raise _ => false end.

(** [int.bit_length()]: the number of bits of the absolute value. *)
Definition bit_length (n : Z) : Z :=
  if n =? 0 then 0 else Z.log2 (Z.abs n) + 1.

(* ================================================================== *)
(** ** fjm.py: the memory image *)

Definition fj_magic : Z := 70 + Z.shiftl 74 8.   (* ord('F') + (ord('J') << 8) *)
Definition reserved_dict_threshold : Z := 1000.

Definition header_base_size : Z := 2 + 2 + 8 + 8.
Definition header_extension_size : Z := 8 + 4.
Definition segment_size : Z := 8 + 8 + 8 + 8.

Definition SUPPORTED_VERSIONS : list Z := [0; 1].

Inductive GarbageHandling : Type := Stop | SlowRead | OnlyWarning | Continue.

(** *** struct.unpack on little-endian, unpadded formats *)

Inductive fmt_char : Type := fmt_B | fmt_H | fmt_L | fmt_Q.

Definition fmt_size (c : fmt_char) : nat :=
  match c with fmt_B => 1 | fmt_H => 2 | fmt_L => 4 | fmt_Q => 8 end%nat.

Definition calcsize (fmt : list fmt_char) : nat :=
  fold_right (fun c n => (fmt_size c + n)%nat) 0%nat fmt.

Fixpoint le_uint (bs : list byte) : Z :=
  match bs with
  | [] => 0
  | b :: bs' => Z.of_N (Byte.to_N b) + 256 * le_uint bs'
  end.

Fixpoint unpack_fields (fmt : list fmt_char) (buf : list byte) : list Z :=
  match fmt with
  | [] => []
  | c :: fmt' =>
      le_uint (firstn (fmt_size c) buf) :: unpack_fields fmt' (skipn (fmt_size c) buf)
  end.

(** [unpack(fmt, buf)]: the buffer must have exactly the size of the format. *)
Definition unpack (fmt : list fmt_char) (buf : list byte) : result (list Z) :=
  if Nat.eqb (List.length buf) (calcsize fmt) then Ok (unpack_fields fmt buf)
  else Raise struct_error.

Definition header_base_format : list fmt_char := [fmt_H; fmt_H; fmt_Q; fmt_Q].
Definition header_extension_format : list fmt_char := [fmt_Q; fmt_L].
Definition segment_format : list fmt_char := [fmt_Q; fmt_Q; fmt_Q; fmt_Q].

(** *** struct.pack on little-endian, unpadded formats *)

(** The byte of a number below 256. *)
Definition byte_of_Z (n : Z) : byte :=
  match Byte.of_N (Z.to_N n) with
  | Some b => b
  | None => x00
  end.

(** The [n] low bytes of [v], lowest first. *)
Fixpoint le_bytes (n : nat) (v : Z) : list byte :=
  match n with
  | O => []
  | S n' => byte_of_Z (v mod 256) :: le_bytes n' (v / 256)
  end.

(** One field: the value must fit the unsigned type of the format. *)
Definition pack_field (c : fmt_char) (v : Z) : result (list byte) :=
  if (0 <=? v) && (v <? 256 ^ Z.of_nat (fmt_size c)) then Ok (le_bytes (fmt_size c) v)
  else Raise struct_error.

(** [pack(fmt, *vals)]: as many values as the format has fields. *)
Fixpoint pack (fmt : list fmt_char) (vals : list Z) : result (list byte) :=
  match fmt, vals with
  | [], [] => Ok []
  | c :: fmt', v :: vals' =>
      bs ← pack_field c v;
      rest ← pack fmt' vals';
      mret (bs ++ rest)
  | _, _ => Raise struct_error
  end.

(** [f.read(n)] on a binary file whose unread content is [f]: the bytes
    read and the unread rest. *)
Definition file_read (n : Z) (f : list byte) : list byte * list byte :=
  (firstn (Z.to_nat n) f, skipn (Z.to_nat n) f).

Module Reader.

Record t : Type := mk {
  garbage_handling : GarbageHandling;
  magic : Z;
  w : Z;
  version : Z;
  segment_num : Z;
  flags : Z;
  reserved : Z;
  memory : gmap Z Z;
  zeros_boundaries : list (Z * Z)
}.

Definition set_memory (self : t) (m : gmap Z Z) : t :=
  mk (garbage_handling self) (magic self) (w self) (version self)
     (segment_num self) (flags self) (reserved self) m (zeros_boundaries self).

(** The mask [(1 << self.w) - 1]. *)
Definition mask (self : t) : Z := Z.shiftl 1 (w self) - 1.

(** [for start, end in self.zeros_boundaries: if start <= address < end] *)
Definition in_zeros_boundaries (self : t) (address : Z) : bool :=
  existsb (fun se => (fst se <=? address) && (address <? snd se))
          (zeros_boundaries self).

(** [__getitem__].  The warning printed under [OnlyWarning] and
    [SlowRead] and the sleep of [SlowRead] leave the object unchanged. *)
Definition getitem (self : t) (address : Z) : result (Z * t) :=
  let address := Z.land address (mask self) in
  match memory self !! address with
  | Some v => Ok (v, self)
  | None =>
      if in_zeros_boundaries self address then
        Ok (0, set_memory self (<[address := 0]> (memory self)))
      else
        let garbage_val := 0 in
        match garbage_handling self with
        | Stop => Raise (FJReadFjmException (ReadingGarbageWord address garbage_val))
        | OnlyWarning | SlowRead | Continue =>
            Ok (garbage_val, set_memory self (<[address := garbage_val]> (memory self)))
        end
  end.

(** [__setitem__] *)
Definition setitem (self : t) (address value : Z) : t :=
  let address := Z.land address (mask self) in
  let value := Z.land value (mask self) in
  set_memory self (<[address := value]> (memory self)).

Definition bit_address_decompose (self : t) (bit_address : Z) : Z * Z :=
  let address := Z.land (Z.shiftr bit_address (bit_length (w self) - 1)) (mask self) in
  let bit := Z.land bit_address (w self - 1) in
  (address, bit).

Definition read_bit (self : t) (bit_address : Z) : result (Z * t) :=
  let '(address, bit) := bit_address_decompose self bit_address in
  '(v, self) ← getitem self address;
  mret (Z.land (Z.shiftr v bit) 1, self).

Definition write_bit (self : t) (bit_address : Z) (value : bool) : result t :=
  let '(address, bit) := bit_address_decompose self bit_address in
  if value then
    '(v, self) ← getitem self address;
    mret (setitem self address (Z.lor v (Z.shiftl 1 bit)))
  else
    '(v, self) ← getitem self address;
    mret (setitem self address (Z.land v (Z.shiftl 1 (w self) - 1 - Z.shiftl 1 bit))).

Definition get_word (self : t) (bit_address : Z) : result (Z * t) :=
  let '(address, bit) := bit_address_decompose self bit_address in
  if bit =? 0 then getitem self address
  else if address =? Z.shiftl 1 (w self) - 1 then
    Raise (FJReadFjmException AccessedOutsideOfMemory)
  else
    '(lsw, self) ← getitem self address;
    '(msw, self) ← getitem self (address + 1);
    mret (Z.land (Z.lor (Z.shiftr lsw bit) (Z.shiftl msw (w self - bit)))
                 (Z.shiftl 1 (w self) - 1),
          self).

(** *** Loading: [Reader.__init__] and its helpers *)

(** [_init_header_fields]: the header fields (in a Reader whose memory is
    not yet initialised) and the unread rest of the file. *)
Definition _init_header_fields (garbage_handling : GarbageHandling)
    (fjm_file : list byte) : result (t * list byte) :=
  let '(buf, fjm_file) := file_read header_base_size fjm_file in
  fields ← unpack header_base_format buf;
  match fields with
  | [magic; w; version; segment_num] =>
      if version =? 0 then
        mret (mk garbage_handling magic w version segment_num 0 0 ∅ [], fjm_file)
      else
        let '(buf, fjm_file) := file_read header_extension_size fjm_file in
        ext ← unpack header_extension_format buf;
        match ext with
        | [flags; reserved] =>
            mret (mk garbage_handling magic w version segment_num flags reserved ∅ [],
                  fjm_file)
        | _ => Raise ValueError
        end
  | _ => Raise ValueError
  end.

Definition _validate_header (self : t) : result unit :=
  if negb (magic self =? fj_magic) then
    Raise (FJReadFjmException (BadMagic (magic self)))
  else if negb (existsb (Z.eqb (version self)) SUPPORTED_VERSIONS) then
    Raise (FJReadFjmException (UnsupportedVersion (version self)))
  else if negb (reserved self =? 0) then
    Raise (FJReadFjmException (BadReserved (reserved self)))
  else Ok tt.

(** [[unpack(segment_format, fjm_file.read(segment_size)) for _ in range(n)]] *)
Fixpoint read_segments (n : nat) (fjm_file : list byte)
    : result (list (Z * Z * Z * Z) * list byte) :=
  match n with
  | O => Ok ([], fjm_file)
  | S n' =>
      let '(buf, fjm_file) := file_read segment_size fjm_file in
      fields ← unpack segment_format buf;
      match fields with
      | [segment_start; segment_length; data_start; data_length] =>
          '(segments, fjm_file) ← read_segments n' fjm_file;
          mret ((segment_start, segment_length, data_start, data_length) :: segments,
                fjm_file)
      | _ => Raise ValueError
      end
  end.

Definition _init_segments (self : t) (fjm_file : list byte)
    : result (list (Z * Z * Z * Z) * list byte) :=
  read_segments (Z.to_nat (segment_num self)) fjm_file.

(** [{8: 'B', 16: 'H', 32: 'L', 64: 'Q'}[self.w]] *)
Definition read_tag (w : Z) : result fmt_char :=
  if w =? 8 then Ok fmt_B
  else if w =? 16 then Ok fmt_H
  else if w =? 32 then Ok fmt_L
  else if w =? 64 then Ok fmt_Q
  else Raise (KeyError w).

(** [[unpack(read_tag, file_data[i:i + n])[0] for i in range(0, len(file_data), n)]];
    [fuel] bounds the number of chunks. *)
Fixpoint unpack_words (fuel : nat) (tag : fmt_char) (n : nat) (file_data : list byte)
    : result (list Z) :=
  match fuel, file_data with
  | O, _ | _, [] => Ok []
  | S fuel', _ =>
      fields ← unpack [tag] (firstn n file_data);
      match fields with
      | word :: _ =>
          words ← unpack_words fuel' tag n (skipn n file_data);
          mret (word :: words)
      | [] => Raise IndexError
      end
  end.

Definition _read_data (self : t) (fjm_file : list byte) : result (list Z) :=
  tag ← read_tag (w self);
  let word_bytes_size := w self / 8 in
  let file_data := fjm_file in
  unpack_words (List.length file_data) tag (Z.to_nat word_bytes_size) file_data.

(** [for i in range(data_length): memory[segment_start + i] = data[data_start + i]];
    the indices come from unsigned file fields, so they are not negative. *)
Fixpoint copy_data (count : nat) (i : Z) (segment_start data_start : Z)
    (data : list Z) (memory : gmap Z Z) : result (gmap Z Z) :=
  match count with
  | O => Ok memory
  | S count' =>
      match data !! Z.to_nat (data_start + i) with
      | Some word =>
          copy_data count' (i + 1) segment_start data_start data
                    (<[segment_start + i := word]> memory)
      | None => Raise IndexError
      end
  end.

(** [for i in range(data_length, segment_length): memory[segment_start + i] = 0] *)
Fixpoint fill_zeros (count : nat) (i : Z) (segment_start : Z) (memory : gmap Z Z)
    : gmap Z Z :=
  match count with
  | O => memory
  | S count' => fill_zeros count' (i + 1) segment_start (<[segment_start + i := 0]> memory)
  end.

Fixpoint init_segments_memory (segments : list (Z * Z * Z * Z)) (data : list Z)
    (memory : gmap Z Z) (zeros_boundaries : list (Z * Z))
    : result (gmap Z Z * list (Z * Z)) :=
  match segments with
  | [] => Ok (memory, zeros_boundaries)
  | (segment_start, segment_length, data_start, data_length) :: segments' =>
      memory ← copy_data (Z.to_nat data_length) 0 segment_start data_start data memory;
      if segment_length >? data_length then
        if segment_length - data_length <? reserved_dict_threshold then
          init_segments_memory segments' data
            (fill_zeros (Z.to_nat (segment_length - data_length)) data_length
                        segment_start memory)
            zeros_boundaries
        else
          init_segments_memory segments' data memory
            (zeros_boundaries ++
             [(segment_start + data_length, segment_start + segment_length)])
      else init_segments_memory segments' data memory zeros_boundaries
  end.

Definition _init_memory (self : t) (segments : list (Z * Z * Z * Z)) (data : list Z)
    : result t :=
  '(memory, zeros_boundaries) ← init_segments_memory segments data ∅ [];
  mret (mk (garbage_handling self) (magic self) (w self) (version self)
           (segment_num self) (flags self) (reserved self) memory zeros_boundaries).

(** [Reader(input_file, garbage_handling=...)], on the content of the file:
    a [struct.error] of the body becomes the "Bad file" exception. *)
Definition __init__ (input_file : list byte) (garbage_handling : GarbageHandling)
    : result t :=
  let body :=
    '(self, fjm_file) ← _init_header_fields garbage_handling input_file;
    _ ← _validate_header self;
    '(segments, fjm_file) ← _init_segments self fjm_file;
    data ← _read_data self fjm_file;
    _init_memory self segments data in
  match body with
  | Raise struct_error => Raise (FJReadFjmException BadFile)
  | r => r
  end.

End Reader.

Module Writer.

Record t : Type := mk {
  output_file : string;
  word_size : Z;
  version : Z;
  flags : Z;
  reserved : Z;
  segments : list (Z * Z * Z * Z);
  data : list Z
}.

Definition __init__ (output_file : string) (w version flags : Z) : result t :=
  if negb (existsb (Z.eqb w) [8; 16; 32; 64]) then
    Raise (FJWriteFjmException (WordSizeNotSupported w))
  else if (version <? 0) || (version >=? Z.shiftl 1 64) then
    Raise (FJWriteFjmException (VersionNot64Bit version))
  else if (flags <? 0) || (flags >=? Z.shiftl 1 64) then
    Raise (FJWriteFjmException (FlagsNot64Bit flags))
  else if (version =? 0) && negb (flags =? 0) then
    Raise (FJWriteFjmException Version0HasNoFlags)
  else Ok (mk output_file w version flags 0 [] []).

Definition _is_segment_collision (start1 end1 start2 end2 : Z) : bool :=
  if existsb (fun address => (start2 <=? address) && (address <=? end2)) [start1; end1]
  then true
  else if existsb (fun address => (start1 <=? address) && (address <=? end1)) [start2; end2]
  then true
  else false.

(** The loop of [_validate_segment_not_overlapping] over
    [enumerate(self.segments)], from index [i] on; [n] is
    [len(self.segments)]. *)
Fixpoint validate_from (word_size : Z) (n : nat) (new_start new_length new_end : Z)
    (i : nat) (segs : list (Z * Z * Z * Z)) : result unit :=
  match segs with
  | [] => Ok tt
  | (start, length, _, _) :: segs' =>
      if _is_segment_collision start (start + length - 1) new_start new_end then
        let w := word_size in
        let bit_start := start * w in
        let bit_end := (start + length) * w - 1 in
        let new_bit_start := new_start * w in
        let new_bit_end := (new_start + new_length) * w - 1 in
        Raise (FJWriteFjmException
                 (OverlappingSegments i bit_start bit_end n new_bit_start new_bit_end))
      else validate_from word_size n new_start new_length new_end (S i) segs'
  end.

Definition _validate_segment_not_overlapping (self : t) (new_start new_length : Z)
    : result unit :=
  let new_end := new_start + new_length - 1 in
  validate_from (word_size self) (List.length (segments self))
                new_start new_length new_end 0%nat (segments self).

Definition add_segment (self : t)
    (segment_start segment_length data_start data_length : Z) : result t :=
  if segment_length <? data_length then
    Raise (FJWriteFjmException SegmentLengthBelowDataLength)
  else
    _ ← _validate_segment_not_overlapping self segment_start segment_length;
    mret (mk (output_file self) (word_size self) (version self) (flags self)
             (reserved self)
             (segments self ++ [(segment_start, segment_length, data_start, data_length)])
             (data self)).

Definition add_data (self : t) (data : list Z) : (Z * Z) * t :=
  let start := Z.of_nat (List.length (Writer.data self)) in
  let length := Z.of_nat (List.length data) in
  ((start, length),
   mk (output_file self) (word_size self) (version self) (flags self) (reserved self)
      (segments self) (Writer.data self ++ data)).

Definition add_simple_segment_with_data (self : t) (segment_start : Z) (data : list Z)
    : result t :=
  let '((data_start, data_length), self) := add_data self data in
  add_segment self segment_start data_length data_start data_length.

(** [{8: 'B', 16: 'H', 32: 'L', 64: 'Q'}[self.word_size]] *)
Definition write_tag (word_size : Z) : result fmt_char :=
  if word_size =? 8 then Ok fmt_B
  else if word_size =? 16 then Ok fmt_H
  else if word_size =? 32 then Ok fmt_L
  else if word_size =? 64 then Ok fmt_Q
  else Raise (KeyError word_size).

(** [for segment in self.segments: f.write(pack(segment_format, *segment))] *)
Fixpoint write_segments (segs : list (Z * Z * Z * Z)) : result (list byte) :=
  match segs with
  | [] => Ok []
  | (segment_start, segment_length, data_start, data_length) :: segs' =>
      bs ← pack segment_format [segment_start; segment_length; data_start; data_length];
      rest ← write_segments segs';
      mret (bs ++ rest)
  end.

(** [for word in self.data: f.write(pack(write_tag, word))] *)
Fixpoint write_words (tag : fmt_char) (words : list Z) : result (list byte) :=
  match words with
  | [] => Ok []
  | word :: words' =>
      bs ← pack [tag] [word];
      rest ← write_words tag words';
      mret (bs ++ rest)
  end.

(** [write_to_file]: the content of the output file when every write
    returns. *)
Definition write_to_file (self : t) : result (list byte) :=
  write_tag ← write_tag (word_size self);
  header ← pack header_base_format
              [fj_magic; word_size self; version self;
               Z.of_nat (List.length (segments self))];
  extension ← (if version self >? 0
               then pack header_extension_format [flags self; reserved self]
               else Ok []);
  segs ← write_segments (segments self);
  words ← write_words write_tag (data self);
  mret (header ++ extension ++ segs ++ words).

End Writer.

(* ================================================================== *)
(** ** io_devices: the device interface and the standard device *)

(** The interface [IODevice] the interpreter calls.  A device may fail in
    [read_bit] (end of input) and, like [BrokenIO], in [write_bit]. *)
Class IODevice (D : Type) : Type := {
  io_read_bit : D -> result (bool * D);
  io_write_bit : D -> bool -> result D;
  io_get_output : D -> result (list byte)
}.

Module StandardIO.

(** The object together with the two streams it uses: [stdin] is the list
    of the characters (code points) not yet read, [stdout] the bytes
    written so far. *)
Record t : Type := mk {
  output_verbose : bool;
  _output : list byte;
  current_input_byte : Z;
  bits_to_read_in_input_byte : Z;
  current_output_byte : Z;
  bits_to_write_in_output_byte : Z;
  stdin : list Z;
  stdout : list byte
}.

Definition __init__ (output_verbose : bool) (stdin : list Z) : t :=
  mk output_verbose [] 0 0 0 0 stdin [].

(** [stdin.read(1).encode('raw_unicode_escape')[0]] for a character read:
    a code point below 256 is its own byte, any other is escaped and the
    escape starts with a backslash. *)
Definition first_encoded_byte (c : Z) : Z := if c <? 256 then c else 92.

Definition read_bit (self : t) : result (bool * t) :=
  self ←
    (if 0 =? bits_to_read_in_input_byte self then
       match stdin self with
       | [] => Raise IOReadOnEOF
       | c :: rest =>
           Ok (mk (output_verbose self) (_output self) (first_encoded_byte c) 8
                  (current_output_byte self) (bits_to_write_in_output_byte self)
                  rest (stdout self))
       end
     else Ok self);
  let bit := Z.land (current_input_byte self) 1 =? 1 in
  mret (bit,
        mk (output_verbose self) (_output self)
           (Z.shiftr (current_input_byte self) 1)
           (bits_to_read_in_input_byte self - 1)
           (current_output_byte self) (bits_to_write_in_output_byte self)
           (stdin self) (stdout self)).

(** [n.to_bytes(1, 'little')] *)
Definition to_bytes_1 (n : Z) : result (list byte) :=
  if (0 <=? n) && (n <? 256) then
    match Byte.of_N (Z.to_N n) with
    | Some b => Ok [b]
    | None => Raise OverflowError
    end
  else Raise OverflowError.

Definition write_bit (self : t) (bit : bool) : result t :=
  let current_output_byte :=
    Z.lor (current_output_byte self)
          (Z.shiftl (Z.b2z bit) (bits_to_write_in_output_byte self)) in
  let bits_to_write_in_output_byte := bits_to_write_in_output_byte self + 1 in
  if 8 =? bits_to_write_in_output_byte then
    curr_output ← to_bytes_1 current_output_byte;
    let stdout := if output_verbose self then stdout self ++ curr_output
                  else stdout self in
    mret (mk (output_verbose self) (_output self ++ curr_output)
             (current_input_byte self) (bits_to_read_in_input_byte self)
             0 0 (stdin self) stdout)
  else
    mret (mk (output_verbose self) (_output self)
             (current_input_byte self) (bits_to_read_in_input_byte self)
             current_output_byte bits_to_write_in_output_byte
             (stdin self) (stdout self)).

Definition get_output (self : t) : result (list byte) :=
  if negb (0 =? bits_to_write_in_output_byte self) then Raise IncompleteOutput
  else Ok (_output self).

(** [n] successive calls of [write_bit], one per element of [bits]. *)
Fixpoint write_bits (self : t) (bits : list bool) : result t :=
  match bits with
  | [] => Ok self
  | bit :: bits' => self ← write_bit self bit; write_bits self bits'
  end.

(** [n] successive calls of [read_bit], and the bits they return. *)
Fixpoint read_bits (n : nat) (self : t) : result (list bool * t) :=
  match n with
  | O => Ok ([], self)
  | S n' =>
      '(bit, self) ← read_bit self;
      '(bits, self) ← read_bits n' self;
      mret (bit :: bits, self)
  end.

End StandardIO.

#[global] Instance StandardIO_IODevice : IODevice StandardIO.t := {
  io_read_bit := StandardIO.read_bit;
  io_write_bit := StandardIO.write_bit;
  io_get_output := StandardIO.get_output
}.

(* ================================================================== *)
(** ** fjm_run.py: the interpreter *)

(** Modelled from the spec: the enumeration [TerminationCause] of [defs]
    (not in the sources); these are the causes [fjm_run.py] names. *)
Inductive TerminationCause : Type := EOF | Looping | NullIP.

(** The part of [RunStatistics] (module [defs], not in the sources) that the
    interpreter uses: the three counters and [register_op].  Timers are
    outside the model. *)
Class RunStatistics (St : Type) : Type := {
  op_counter : St -> Z;
  flip_counter : St -> Z;
  jump_counter : St -> Z;
  register_op : St -> Z -> Z -> Z -> St
}.

(** The breakpoint hook (module [breakpoints], not in the sources):
    [should_break] and [handle_breakpoint], which is handed the memory and
    the statistics and returns the handler to go on with. *)
Class BreakpointHandler (B St : Type) : Type := {
  should_break : B -> Z -> Z -> bool;
  handle_breakpoint : B -> Z -> Reader.t -> St -> result (option B * Reader.t * St)
}.

(** "FLIP!": [mem.write_bit(flip_address, not mem.read_bit(flip_address))] *)
Definition flip (mem : Reader.t) (flip_address : Z) : result Reader.t :=
  '(bit, mem) ← Reader.read_bit mem flip_address;
  Reader.write_bit mem flip_address (bit =? 0).

Module FjmRun.
Section Interpreter.

Context {D St B : Type} `{IODevice D} `{RunStatistics St} `{BreakpointHandler B St}.

Record TerminationStatistics : Type := mkTerminationStatistics {
  ts_op_counter : Z;
  ts_flip_counter : Z;
  ts_jump_counter : Z;
  termination_cause : TerminationCause
}.

Definition TerminationStatistics_init (run_statistics : St)
    (termination_cause : TerminationCause) : TerminationStatistics :=
  mkTerminationStatistics (op_counter run_statistics) (flip_counter run_statistics)
                          (jump_counter run_statistics) termination_cause.

(** [in_addr = 3 * w + w.bit_length()], the reserved input address of
    [handle_input] ("3w + dww"). *)
Definition in_addr (w : Z) : Z := 3 * w + bit_length w.

Definition handle_input (io_device : D) (ip : Z) (mem : Reader.t)
    : result (D * Reader.t) :=
  let w := Reader.w mem in
  let in_addr := in_addr w in
  if (ip <=? in_addr) && (in_addr <? ip + 2 * w) then
    '(input_bit, io_device) ← io_read_bit io_device;
    mem ← Reader.write_bit mem in_addr input_bit;
    mret (io_device, mem)
  else mret (io_device, mem).

Definition handle_output (flip_address : Z) (io_device : D) (w : Z) : result D :=
  let out_addr := 2 * w in
  if (out_addr <=? flip_address) && (flip_address <=? out_addr + 1) then
    io_write_bit io_device (out_addr + 1 =? flip_address)
  else mret io_device.

(** The variables of the loop of [run]. *)
Record state : Type := mkState {
  ip : Z;
  mem : Reader.t;
  io_device : D;
  statistics : St;
  breakpoint_handler : option B
}.

Inductive outcome : Type :=
| Return (t : TerminationStatistics)
| Next (s : state).

(** "handle breakpoints" *)
Definition handle_breakpoints (s : state) : result (option B * Reader.t * St) :=
  match breakpoint_handler s with
  | Some bh =>
      if should_break bh (ip s) (op_counter (statistics s)) then
        handle_breakpoint bh (ip s) (mem s) (statistics s)
      else mret (Some bh, mem s, statistics s)
  | None => mret (None, mem s, statistics s)
  end.

(** "check finish?" and "JUMP!" *)
Definition check_finish (ip w flip_address jump_address : Z) (mem : Reader.t)
    (io_device : D) (statistics : St) (breakpoint_handler : option B) : outcome :=
  if (jump_address =? ip)
     && negb ((ip <=? flip_address) && (flip_address <? ip + 2 * w)) then
    Return (TerminationStatistics_init statistics Looping)
  else if jump_address <? 2 * w then
    Return (TerminationStatistics_init statistics NullIP)
  else Next (mkState jump_address mem io_device statistics breakpoint_handler).

(** One iteration of the [while True] loop of [run]. *)
Definition iteration (w : Z) (s : state) : result outcome :=
  let ip := ip s in
  '(breakpoint_handler, mem, statistics) ← handle_breakpoints s;
  '(flip_address, mem) ← Reader.get_word mem ip;
  io_device ← handle_output flip_address (io_device s) w;
  match handle_input io_device ip mem with
  | Raise IOReadOnEOF => mret (Return (TerminationStatistics_init statistics EOF))
  | Raise e => Raise e
  | Ok (io_device, mem) =>
      '(bit, mem) ← Reader.read_bit mem flip_address;
      mem ← Reader.write_bit mem flip_address (bit =? 0);
      '(jump_address, mem) ← Reader.get_word mem (ip + w);
      let statistics := register_op statistics ip flip_address jump_address in
      mret (check_finish ip w flip_address jump_address mem io_device statistics
                         breakpoint_handler)
  end.

(** The loop, for at most [fuel] iterations; [None] when they are used up. *)
Fixpoint loop (fuel : nat) (w : Z) (s : state)
    : result (option TerminationStatistics) :=
  match fuel with
  | O => Ok None
  | S fuel' =>
      o ← iteration w s;
      match o with
      | Return t => Ok (Some t)
      | Next s' => loop fuel' w s'
      end
  end.

(** [run], from the content of the .fjm file; [new_statistics] stands for
    [RunStatistics(w)]. *)
Definition run (fuel : nat) (fjm : list byte) (new_statistics : Z -> St)
    (breakpoint_handler : option B) (io_device : D)
    : result (option TerminationStatistics) :=
  mem ← Reader.__init__ fjm Stop;
  let ip := 0 in
  let w := Reader.w mem in
  let statistics := new_statistics w in
  loop fuel w (mkState ip mem io_device statistics breakpoint_handler).

End Interpreter.
End FjmRun.

(* ================================================================== *)
(** ** fj_parser.py: expression rules and dot-identifiers *)

(** Modelled from the spec: class [Expr] of [defs] (not in the sources), "a
    small algebraic tree": a leaf holds an integer or a name, an inner node
    an operator and the tuple of its operands, as the rules below build
    them by [Expr(n)], [Expr(name)] and [Expr((op, (a, b)))]. *)
#[warnings="-register-all"] Inductive Expr : Type :=
| Expr_int (n : Z)
| Expr_str (name : string)
| Expr_op (op : string) (args : list Expr).

(** The objects met by the [is] tests of the rules: a class object, such as
    [int], or an instance of [Expr]. *)
Inductive pyobj : Type :=
| class_object (name : string)
| Expr_instance (e : Expr).

(** [x is cls] for a class object [cls]: identity of objects.  An instance
    of a class is not a class object. *)
Definition py_is_class (x : pyobj) (cls : string) : bool :=
  match x with
  | class_object name => String.eqb name cls
  | Expr_instance _ => false
  end.

(** The sixteen binary operators of the grammar. *)
Inductive binary_operator : Type :=
| op_add | op_sub | op_mul | op_div | op_mod | op_shl | op_shr
| op_xor | op_or | op_and | op_lt | op_gt | op_le | op_ge | op_eq | op_ne.

(** The operator name stored in a residual node by the rule of [o]. *)
Definition symbol (o : binary_operator) : string :=
  match o with
  | op_add => "+" | op_sub => "-" | op_mul => "*"
  | op_div => "/" | op_mod => "%" | op_shl => "<<" | op_shr => ">>"
  | op_xor => "^" | op_or => "|" | op_and => "&"
  | op_lt => "<" | op_gt => ">" | op_le => "<=" | op_ge => ">="
  | op_eq => "==" | op_ne => "!="
  end.

Module FJLexer.

Fixpoint drop_chars (n : nat) (s : string) : string :=
  match n, s with
  | O, _ => s
  | S _, EmptyString => EmptyString
  | S n', String _ s' => drop_chars n' s'
  end.

(** [s[i:]], with Python's reading of a negative [i]. *)
Definition slice_from (s : string) (i : Z) : string :=
  let i := if i <? 0 then Z.max 0 (Z.of_nat (String.length s) + i) else i in
  drop_chars (Z.to_nat i) s.

(** [value[1:-1]]: the token without its first and its last character. *)
Definition strip_ends (value : string) : string :=
  string_of_list_ascii (removelast (tl (list_ascii_of_string value))).

(** [sum(val << (i*8) for i, val in enumerate(chars))] *)
Definition packed (chars : list Z) : Z :=
  fold_left Z.add (imap (fun i val => Z.shiftl val (Z.of_nat i * 8)) chars) 0.

Section Lexer.

(** [get_char_value_and_length] of defs.py, which is not among the
    sources: the value of the character at the start of a string and the
    number of characters it is written with. *)
Variable get_char_value_and_length : string -> Z * Z.

(** The [while i < len(s)] loop of [STRING]; [fuel] bounds the number of
    iterations, and [None] is a loop that has not ended within it. *)
Fixpoint STRING_loop (fuel : nat) (s : string) (i : Z) (chars : list Z) {struct fuel}
    : option (list Z) :=
  if i <? Z.of_nat (String.length s) then
    match fuel with
    | O => None
    | S fuel' =>
        let '(val, length) := get_char_value_and_length (slice_from s i) in
        STRING_loop fuel' s (i + length) (chars ++ [val])
    end
  else Some chars.

(** The rule [STRING]: the new value of the token. *)
Definition STRING (fuel : nat) (value : string) : option Z :=
  match STRING_loop fuel (strip_ends value) 0 [] with
  | Some chars => Some (packed chars)
  | None => None
  end.

End Lexer.

End FJLexer.

Module FJParser.

(** The file-scoped variables of the parser that the rules below use.
    Messages are printed; only the flag is state. *)
Record globals : Type := mkGlobals {
  curr_namespace : list string;
  error_occurred : bool
}.

Definition syntax_error (g : globals) : globals :=
  mkGlobals (curr_namespace g) true.

Definition ns_name (g : globals) : string :=
  String.concat "." (curr_namespace g).

Definition ns_full_name (g : globals) (base_name : string) : string :=
  String.concat "." (curr_namespace g ++ [base_name]).

(** [s.lstrip('.')] *)
Fixpoint lstrip_dots (s : string) : string :=
  match s with
  | String "." s' => lstrip_dots s'
  | _ => s
  end.

(** [l[:stop]], with Python's reading of a negative [stop]. *)
Definition slice_to {A} (l : list A) (stop : Z) : list A :=
  let stop := if stop <? 0 then Z.max 0 (Z.of_nat (List.length l) + stop) else stop in
  firstn (Z.to_nat stop) l.

Definition dot_id_to_ns_full_name (g : globals) (DOT_ID : string)
    : string * globals :=
  let base_name := DOT_ID in
  let without_dots := lstrip_dots base_name in
  if Nat.eqb (String.length without_dots) (String.length base_name) then (base_name, g)
  else
    let num_of_dots :=
      Z.of_nat (String.length base_name) - Z.of_nat (String.length without_dots) in
    let len_ns := Z.of_nat (List.length (curr_namespace g)) in
    let g' := if num_of_dots - 1 >? len_ns then syntax_error g else g in
    (String.concat "."
       (slice_to (curr_namespace g) (len_ns - (num_of_dots - 1)) ++ [without_dots]),
     g').

(** [ns_to_base_name]: [name.split('.')[-1]], the part after the last dot;
    [acc] is the part read since the last dot. *)
Fixpoint last_segment (acc : string) (name : string) : string :=
  match name with
  | EmptyString => acc
  | String "." name' => last_segment EmptyString name'
  | String c name' => last_segment (acc +:+ String c EmptyString) name'
  end.

Definition ns_to_base_name (name : string) : string := last_segment EmptyString name.

(** [param_id in self.defs] *)
Definition is_defined (defs : gmap string Expr) (param_id : string) : bool :=
  match defs !! param_id with Some _ => true | None => false end.

(** [ids[i1] == ids[i2]], for indices inside the list. *)
Definition same_id (ids : list string) (i1 i2 : nat) : bool :=
  match ids !! i1, ids !! i2 with
  | Some a, Some b => String.eqb a b
  | _, _ => false
  end.

(** [check_params]: each call of [syntax_error] prints a message and sets
    the flag. *)
Definition check_params (defs : gmap string Expr) (ids : list string) (g : globals)
    : globals :=
  let g :=
    fold_left (fun g param_id => if is_defined defs param_id then syntax_error g else g)
              ids g in
  fold_left
    (fun g i1 =>
       fold_left (fun g i2 => if same_id ids i1 i2 then syntax_error g else g)
                 (seq 0 i1) g)
    (seq 0 (List.length ids)) g.

Section ExprRules.

(** The value of an [_expr] symbol is a pair of an [Expr] and a line number:
    every rule of [_expr] returns [Expr(...)], [next_address()] or an entry
    of [self.defs], which holds [Expr] objects.

    [guarded o args] is the value of [Expr(a op b)] (for ['#'],
    [Expr(a.bit_length())]; for ['?:'], [Expr(b if a else c)]) in the
    branch behind the [is int] tests of the rule of [o].  It applies
    Python operators to the operand objects themselves, so it depends
    on the methods of class [Expr] (module [defs], not in the sources). *)
Variable guarded : string -> list Expr -> result Expr.

(** [a is int] *)
Definition is_int (a : Expr) : bool := py_is_class (Expr_instance a) "int".

(** The rules [_expr OP _expr] for the sixteen binary operators:
    [p._expr0], [p._expr1] and [p.lineno] are the arguments. *)
Definition _expr_binary (o : binary_operator) (_expr0 _expr1 : Expr * Z) (lineno : Z)
    : result (Expr * Z) :=
  let '(a, b) := (fst _expr0, fst _expr1) in
  if is_int a && is_int b then
    e ← guarded (symbol o) [a; b]; mret (e, lineno)
  else mret (Expr_op (symbol o) [a; b], lineno).

(** The rule ['#' _expr]. *)
Definition _expr_bit_length (_expr : Expr * Z) (lineno : Z) : result (Expr * Z) :=
  let a := fst _expr in
  if is_int a then
    e ← guarded "#" [a]; mret (e, lineno)
  else mret (Expr_op "#" [a], lineno).

(** The rule [_expr '?' _expr ':' _expr]. *)
Definition _expr_cond (_expr0 _expr1 _expr2 : Expr * Z) (lineno : Z)
    : result (Expr * Z) :=
  let '(a, b, c) := (fst _expr0, fst _expr1, fst _expr2) in
  if is_int a && is_int b && is_int c then
    e ← guarded "?:" [a; b; c]; mret (e, lineno)
  else mret (Expr_op "?:" [a; b; c], lineno).

(** The rules [NUMBER] and [STRING]: an integer leaf. *)
Definition _expr_NUMBER (NUMBER lineno : Z) : Expr * Z := (Expr_int NUMBER, lineno).
Definition _expr_STRING (STRING lineno : Z) : Expr * Z := (Expr_int STRING, lineno).

End ExprRules.

End FJParser.

(* ================================================================== *)
(** ** Word sizes, and the data of the examples *)

(** The word sizes of the format. *)
Definition supported_word_size (w : Z) : Prop :=
  w = 8 \/ w = 16 \/ w = 32 \/ w = 64.

(** The word-address ranges [start1, start1 + length1) and
    [start2, start2 + length2) have a word in common. *)
Definition ranges_intersect (start1 length1 start2 length2 : Z) : Prop :=
  exists address,
    start1 <= address < start1 + length1 /\ start2 <= address < start2 + length2.

Definition segment_start (seg : Z * Z * Z * Z) : Z := fst (fst (fst seg)).
Definition segment_length (seg : Z * Z * Z * Z) : Z := snd (fst (fst seg)).
Definition data_length (seg : Z * Z * Z * Z) : Z := snd seg.

(** No two entries of a segment list have a word in common. *)
Definition pairwise_non_overlapping (segs : list (Z * Z * Z * Z)) : Prop :=
  forall (i j : nat) seg1 seg2,
    i <> j -> segs !! i = Some seg1 -> segs !! j = Some seg2 ->
    ~ ranges_intersect (segment_start seg1) (segment_length seg1)
                       (segment_start seg2) (segment_length seg2).

(** The invariant of the segment list. *)
Definition segments_valid (segs : list (Z * Z * Z * Z)) : Prop :=
  pairwise_non_overlapping segs
  /\ Forall (fun seg => data_length seg <= segment_length seg) segs.

(** What the standard device holds after the bits [bits] have been written
    to a new device: the number of pending bits, the pending bits in
    [current_output_byte] from bit 0 upwards, and in [_output] one byte for
    each complete group of eight, bit [k] of byte [j] being bit [8j + k]. *)
Definition written (bits : list bool) (dev : StandardIO.t) : Prop :=
  let n := Z.of_nat (List.length bits) in
  StandardIO.bits_to_write_in_output_byte dev = n mod 8
  /\ 0 <= StandardIO.current_output_byte dev
  /\ (forall k, 0 <= k ->
        Z.testbit (StandardIO.current_output_byte dev) k
        = (k <? n mod 8) && nth (Z.to_nat (8 * (n / 8) + k)) bits false)
  /\ Z.of_nat (List.length (StandardIO._output dev)) = n / 8
  /\ (forall j k, 0 <= j < n / 8 -> 0 <= k < 8 ->
        Z.testbit (Z.of_N (Byte.to_N (nth (Z.to_nat j) (StandardIO._output dev) x00))) k
        = nth (Z.to_nat (8 * j + k)) bits false).

(** A value fits the unsigned field of format character [c]. *)
Definition fits (c : fmt_char) (v : Z) : Prop := 0 <= v < 256 ^ Z.of_nat (fmt_size c).

(** The word that a Reader shows at a word address: the entry of the
    dictionary, or 0 inside a zero range, or nothing. *)
Definition word_view (r : Reader.t) (a : Z) : option Z :=
  match Reader.memory r !! a with
  | Some v => Some v
  | None => if Reader.in_zeros_boundaries r a then Some 0 else None
  end.

(** The word read at a word address where reading returns: the word shown,
    or the garbage value 0. *)
Definition word_or_zero (r : Reader.t) (a : Z) : Z := default 0 (word_view r a).

(** Every word of the dictionary has [w] bits. *)
Definition words_in_range (r : Reader.t) : Prop :=
  forall a v, Reader.memory r !! a = Some v -> 0 <= v < 2 ^ Reader.w r.

(** The same for a dictionary and a list of zero ranges. *)
Definition view_of (m : gmap Z Z) (zeros : list (Z * Z)) (a : Z) : option Z :=
  match m !! a with
  | Some v => Some v
  | None =>
      if existsb (fun se => (fst se <=? a) && (a <? snd se)) zeros then Some 0 else None
  end.

(** The address is in the word range of the segment. *)
Definition in_segment (seg : Z * Z * Z * Z) (a : Z) : Prop :=
  segment_start seg <= a < segment_start seg + segment_length seg.

(** The word that a segment table and its data put at a word address: the
    data word of the first segment whose data part holds the address, or 0
    in the rest of that segment. *)
Fixpoint image (segs : list (Z * Z * Z * Z)) (data : list Z) (a : Z) : option Z :=
  match segs with
  | [] => None
  | (segment_start, segment_length, data_start, data_length) :: segs' =>
      if (segment_start <=? a) && (a <? segment_start + data_length) then
        data !! Z.to_nat (data_start + (a - segment_start))
      else if (segment_start + data_length <=? a) && (a <? segment_start + segment_length)
      then Some 0
      else image segs' data a
  end.

Definition segment_data_start (seg : Z * Z * Z * Z) : Z := snd (fst seg).

(** The data part of every segment lies inside the data. *)
Definition data_in_bounds (segs : list (Z * Z * Z * Z)) (data : list Z) : Prop :=
  Forall (fun seg =>
            data_length seg <= 0
            \/ segment_data_start seg + data_length seg <= Z.of_nat (List.length data))
         segs.

(** The fields of every segment are not negative, as in a file. *)
Definition segments_nonneg (segs : list (Z * Z * Z * Z)) : Prop :=
  Forall (fun seg => 0 <= segment_start seg /\ 0 <= segment_length seg
                     /\ 0 <= segment_data_start seg /\ 0 <= data_length seg) segs.

(** The [n] low bits of a number, lowest first. *)
Definition low_bits (n : nat) (x : Z) : list bool :=
  map (fun k => Z.testbit x (Z.of_nat k)) (seq 0 n).

(** A run of [d] dots, the prefix of a dot-identifier. *)
Fixpoint dots (d : nat) : string :=
  match d with
  | O => EmptyString
  | S d' => String "." (dots d')
  end.

(** The Writer objects that a program can hold: a constructed one, and one
    on which a method has returned. *)
Inductive writer_reachable : Writer.t -> Prop :=
| reach_init output_file w version flags self :
    Writer.__init__ output_file w version flags = Ok self ->
    writer_reachable self
| reach_add_segment self segment_start segment_length data_start data_length self' :
    writer_reachable self ->
    Writer.add_segment self segment_start segment_length data_start data_length = Ok self' ->
    writer_reachable self'
| reach_add_data self data :
    writer_reachable self ->
    writer_reachable (snd (Writer.add_data self data))
| reach_add_simple_segment_with_data self segment_start data self' :
    writer_reachable self ->
    Writer.add_simple_segment_with_data self segment_start data = Ok self' ->
    writer_reachable self'.

(** A statistics object that counts the executed operations only. *)
#[global] Instance op_count_RunStatistics : RunStatistics Z := {
  op_counter := fun n => n;
  flip_counter := fun _ => 0;
  jump_counter := fun _ => 0;
  register_op := fun n _ _ _ => n + 1
}.

(** A run without a breakpoint handler: there is no handler object. *)
#[global] Instance no_BreakpointHandler (St : Type) : BreakpointHandler Empty_set St := {
  should_break := fun bh _ _ => match bh with end;
  handle_breakpoint := fun bh _ _ _ => match bh with end
}.

Module Samples.

Definition u64 (low : byte) : list byte := low :: repeat x00 7.

(** An 8-bit image with one segment of four words at word 0: the
    instruction at bit address 0 flips bit 24 and jumps to 0. *)
Definition self_loop_fjm : list byte :=
  [x46; x4a] ++ [x08; x00] ++ u64 x00 ++ u64 x01
  ++ (u64 x00 ++ u64 x04 ++ u64 x00 ++ u64 x04)
  ++ [x18; x00; x00; x00].

Definition self_loop_memory : gmap Z Z :=
  <[3 := 0]> (<[2 := 0]> (<[1 := 0]> (<[0 := 24]> ∅))).

Definition self_loop_reader : Reader.t :=
  Reader.mk Stop fj_magic 8 0 1 0 0 self_loop_memory [].

(** The memory after the flip of bit 24. *)
Definition self_loop_flipped : Reader.t :=
  Reader.mk Stop fj_magic 8 0 1 0 0 (<[3 := 1]> self_loop_memory) [].

(** The same header with word size 12. *)
Definition word_size_12_fjm : list byte :=
  [x46; x4a] ++ [x0c; x00] ++ u64 x00 ++ u64 x00.

Definition writer0 : Writer.t := Writer.mk "out.fjm" 8 0 0 0 [] [].
Definition writer1 : Writer.t := Writer.mk "out.fjm" 8 0 0 0 [(0, 4, 0, 4)] [].
Definition writer2 : Writer.t :=
  Writer.mk "out.fjm" 8 0 0 0 [(0, 4, 0, 4); (4, 2, 4, 1)] [].

(** The Writer of the image of the self-loop, and a Writer of version 2. *)
Definition self_loop_writer : Writer.t :=
  Writer.mk "out.fjm" 8 0 0 0 [(0, 4, 0, 4)] [24; 0; 0; 0].
Definition version_2_writer : Writer.t := Writer.mk "out.fjm" 8 2 0 0 [] [].

(** A Writer with one segment of length 0 at word 5. *)
Definition empty_segment_writer : Writer.t :=
  Writer.mk "out.fjm" 8 0 0 0 [(5, 0, 0, 0)] [].

Definition console (stdin : list Z) : StandardIO.t := StandardIO.__init__ false stdin.

Definition self_loop_state : FjmRun.state (D := StandardIO.t) (St := Z) (B := Empty_set) :=
  FjmRun.mkState 0 self_loop_reader (console []) 0 None.

(** The self-loop image with the interpreter at bit address 16, over the
    input address, and at bit address 32, after the segment. *)
Definition input_state : FjmRun.state (D := StandardIO.t) (St := Z) (B := Empty_set) :=
  FjmRun.mkState 16 self_loop_reader (console []) 0 None.

Definition outside_state : FjmRun.state (D := StandardIO.t) (St := Z) (B := Empty_set) :=
  FjmRun.mkState 32 self_loop_reader (console []) 0 None.

(** A memory whose instruction at bit address 0 flips bit 24 and jumps to
    bit address 16. *)
Definition jump_reader : Reader.t :=
  Reader.mk Stop fj_magic 8 0 1 0 0 (<[1 := 16]> self_loop_memory) [].

Definition jump_state : FjmRun.state (D := StandardIO.t) (St := Z) (B := Empty_set) :=
  FjmRun.mkState 0 jump_reader (console []) 0 None.

(** A header that announces one segment, with nothing after it. *)
Definition truncated_table_fjm : list byte :=
  [x46; x4a] ++ [x08; x00] ++ u64 x00 ++ u64 x01.

(** A 16-bit image without segments whose data ends in the middle of a
    word. *)
Definition partial_word_fjm : list byte :=
  [x46; x4a] ++ [x10; x00] ++ u64 x00 ++ u64 x00 ++ [x01; x00; x02].

(** A decoder for strings without escape sequences: the code of the first
    character, which is written with one character. *)
Definition plain_char_value (s : string) : Z * Z :=
  match s with
  | String c _ => (Z.of_N (N_of_ascii c), 1)
  | EmptyString => (0, 1)
  end.

(** The token of the string AB, between double quotes. *)
Definition quoted_AB : string :=
  String "034" (String "A" (String "B" (String "034" EmptyString))).

End Samples.

(* ================================================================== *)
(** * Properties *)

(** ** Word sizes and bit arithmetic *)

Lemma supported_word_size_pow2 w :
  supported_word_size w ->
  0 < w /\ bit_length w - 1 = Z.log2 w /\ w = 2 ^ Z.log2 w /\ w - 1 = Z.ones (Z.log2 w).
Proof.
  intros [-> | [-> | [-> | ->]]]; vm_compute; repeat split; discriminate.
Qed.

Lemma shiftl_1_ones n : 0 <= n -> Z.shiftl 1 n - 1 = Z.ones n.
Proof. intros _. unfold Z.ones. lia. Qed.

Lemma land_mask_mod a n : 0 <= n -> Z.land a (Z.shiftl 1 n - 1) = a mod 2 ^ n.
Proof. intros Hn. rewrite shiftl_1_ones by done. by apply Z.land_ones. Qed.

Lemma land_mask_idemp a n :
  0 <= n -> Z.land (Z.land a (Z.shiftl 1 n - 1)) (Z.shiftl 1 n - 1)
            = Z.land a (Z.shiftl 1 n - 1).
Proof.
  intros Hn. rewrite <- Z.land_assoc. f_equal. apply Z.land_diag.
Qed.

Lemma shiftr_land_1 v bit : 0 <= bit -> Z.land (Z.shiftr v bit) 1 = Z.b2z (Z.testbit v bit).
Proof.
  intros Hb. change 1 with (Z.ones 1). rewrite Z.land_ones by lia.
  change (2 ^ 1) with 2. rewrite <- Z.bit0_mod, Z.shiftr_spec by lia. done.
Qed.

Lemma testbit_set v bit n :
  0 <= bit < n ->
  Z.testbit (Z.land (Z.lor v (Z.shiftl 1 bit)) (Z.shiftl 1 n - 1)) bit = true.
Proof.
  intros Hb. rewrite shiftl_1_ones by lia.
  rewrite Z.land_spec, Z.lor_spec, Z.shiftl_spec by lia.
  rewrite Z.sub_diag, Z.ones_spec_low by lia.
  change (Z.testbit 1 0) with true. by rewrite orb_true_r.
Qed.

Lemma testbit_clear v bit n :
  0 <= bit < n ->
  Z.testbit (Z.land (Z.land v (Z.shiftl 1 n - 1 - Z.shiftl 1 bit)) (Z.shiftl 1 n - 1)) bit
  = false.
Proof.
  intros Hb. rewrite shiftl_1_ones by lia.
  assert (Hsub : Z.ones n - Z.shiftl 1 bit = Z.ldiff (Z.ones n) (Z.shiftl 1 bit)).
  { apply Z.sub_nocarry_ldiff. apply Z.bits_inj'. intros k Hk.
    rewrite Z.ldiff_spec, Z.shiftl_spec, Z.bits_0 by lia.
    destruct (decide (k = bit)) as [-> | Hne].
    - rewrite Z.ones_spec_low by lia. apply andb_false_r.
    - destruct (decide (k < bit)).
      + rewrite (Z.testbit_neg_r 1) by lia. done.
      + change 1 with (Z.ones 1) at 1.
        rewrite (Z.ones_spec_high 1) by lia. done. }
  rewrite Hsub, !Z.land_spec, Z.ldiff_spec, Z.shiftl_spec by lia.
  rewrite Z.sub_diag. change (Z.testbit 1 0) with true.
  rewrite Z.ones_spec_low by lia. simpl. by rewrite andb_false_r.
Qed.

(** ** The Reader: addressing *)

Section ReaderFacts.

Variable r : Reader.t.
Hypothesis Hw : supported_word_size (Reader.w r).

Let w := Reader.w r.

Lemma w_nonneg : 0 <= Reader.w r.
Proof using Hw. destruct (supported_word_size_pow2 _ Hw); lia. Qed.

Lemma mask_mod a : Z.land a (Reader.mask r) = a mod 2 ^ w.
Proof using Hw. unfold Reader.mask. apply land_mask_mod, w_nonneg. Qed.

Lemma getitem_mod a : Reader.getitem r a = Reader.getitem r (a mod 2 ^ w).
Proof using Hw.
  unfold Reader.getitem. rewrite <- (mask_mod a). unfold Reader.mask.
  by rewrite land_mask_idemp by apply w_nonneg.
Qed.

Lemma setitem_mod a v :
  Reader.setitem r a v = Reader.setitem r (a mod 2 ^ w) (v mod 2 ^ w).
Proof using Hw.
  unfold Reader.setitem. rewrite <- (mask_mod a), <- (mask_mod v). unfold Reader.mask.
  by rewrite !land_mask_idemp by apply w_nonneg.
Qed.

Lemma setitem_lookup a v :
  Reader.memory (Reader.setitem r a v) !! (a mod 2 ^ w) = Some (v mod 2 ^ w).
Proof using Hw.
  unfold Reader.setitem. rewrite !mask_mod. simpl. apply lookup_insert_eq.
Qed.

Lemma bit_address_decompose_spec b :
  Reader.bit_address_decompose r b = ((b / w) mod 2 ^ w, b mod w).
Proof using Hw.
  destruct (supported_word_size_pow2 _ Hw) as (Hpos & Hbl & Hpow & Hones).
  unfold Reader.bit_address_decompose. fold w in Hbl, Hpow, Hones |- *.
  rewrite Hbl, Hones, mask_mod.
  rewrite Z.shiftr_div_pow2, Z.land_ones by apply Z.log2_nonneg.
  by rewrite <- Hpow.
Qed.

Lemma bit_address_decompose_range b address bit :
  Reader.bit_address_decompose r b = (address, bit) ->
  0 <= address < 2 ^ w /\ 0 <= bit < w.
Proof using Hw.
  rewrite bit_address_decompose_spec. intros [= <- <-].
  destruct (supported_word_size_pow2 _ Hw) as (Hpos & _).
  split; apply Z.mod_pos_bound; [apply Z.pow_pos_nonneg; [lia | apply w_nonneg] | done].
Qed.

(** A failing word read is a garbage read under the [Stop] policy. *)
Lemma getitem_Raise a e :
  Reader.getitem r a = Raise e ->
  e = FJReadFjmException (ReadingGarbageWord (a mod 2 ^ w) 0)
  /\ Reader.garbage_handling r = Stop
  /\ Reader.memory r !! (a mod 2 ^ w) = None.
Proof using Hw.
  unfold Reader.getitem. rewrite mask_mod.
  destruct (Reader.memory r !! (a mod 2 ^ w)) eqn:Hm; [done |].
  destruct (Reader.in_zeros_boundaries r _); [done |].
  destruct (Reader.garbage_handling r); [| done ..].
  by intros [= <-].
Qed.

(** Bit addresses with the same decomposition are the same access. *)
Lemma same_decomposition_same_access b1 b2 :
  Reader.bit_address_decompose r b1 = Reader.bit_address_decompose r b2 ->
  Reader.read_bit r b1 = Reader.read_bit r b2
  /\ (forall v, Reader.write_bit r b1 v = Reader.write_bit r b2 v)
  /\ Reader.get_word r b1 = Reader.get_word r b2.
Proof.
  intros Hd. unfold Reader.read_bit, Reader.write_bit, Reader.get_word.
  by rewrite Hd.
Qed.

Lemma decompose_reduced b :
  Reader.bit_address_decompose r (b mod (w * 2 ^ w)) = Reader.bit_address_decompose r b.
Proof using Hw.
  destruct (supported_word_size_pow2 _ Hw) as (Hpos & _).
  assert (Hp : 0 < 2 ^ w) by (apply Z.pow_pos_nonneg; [lia | apply w_nonneg]).
  fold w in Hpos.
  rewrite !bit_address_decompose_spec. rewrite Z.rem_mul_r by lia.
  f_equal.
  - replace (b mod w + w * ((b / w) mod 2 ^ w)) with ((b / w) mod 2 ^ w * w + b mod w) by lia.
    rewrite Z.div_add_l by lia.
    rewrite (Z.div_small (b mod w)) by (apply Z.mod_pos_bound; lia).
    rewrite Z.add_0_r. apply Z.mod_mod. lia.
  - replace (b mod w + w * ((b / w) mod 2 ^ w)) with (b mod w + (b / w) mod 2 ^ w * w) by lia.
    rewrite Z.mod_add by lia. apply Z.mod_mod. lia.
Qed.

End ReaderFacts.

(** Reading a word keeps the header, the policy and the zero ranges, and
    leaves the word read in the dictionary. *)
Lemma getitem_Ok r a v r' :
  Reader.getitem r a = Ok (v, r') ->
  Reader.w r' = Reader.w r
  /\ Reader.garbage_handling r' = Reader.garbage_handling r
  /\ Reader.zeros_boundaries r' = Reader.zeros_boundaries r
  /\ Reader.memory r' !! Z.land a (Reader.mask r) = Some v.
Proof.
  unfold Reader.getitem.
  destruct (Reader.memory r !! Z.land a (Reader.mask r)) eqn:Hm.
  { by intros [= <- <-]. }
  destruct (Reader.in_zeros_boundaries r _).
  { intros [= <- <-]. simpl. by rewrite lookup_insert_eq. }
  destruct (Reader.garbage_handling r) eqn:Hg; [done | ..];
    intros [= <- <-]; simpl; by rewrite lookup_insert_eq.
Qed.

(** A word that is in the dictionary is read without any change. *)
Lemma getitem_present r a v :
  Reader.memory r !! Z.land a (Reader.mask r) = Some v ->
  Reader.getitem r a = Ok (v, r).
Proof. unfold Reader.getitem. by intros ->. Qed.

(** Under every policy but [Stop] a word read succeeds. *)
Lemma getitem_total r a :
  Reader.garbage_handling r <> Stop -> is_Ok (Reader.getitem r a) = true.
Proof.
  intros Hg. unfold Reader.getitem.
  destruct (Reader.memory r !! _); [done |].
  destruct (Reader.in_zeros_boundaries r _); [done |].
  by destruct (Reader.garbage_handling r).
Qed.

(** C10: every access of the Reader works on the word address reduced modulo
    2^w: [__getitem__] and [__setitem__] give the same result on an address
    and on its residue, the stored value is the residue of the value written,
    [bit_address_decompose] yields the word index modulo 2^w and the bit
    offset modulo w, so bit addresses with congruent word indices and equal
    offsets are one and the same access, every bit address behaves like its
    residue modulo w * 2^w, and a word read fails only as a garbage read of
    the reduced address under the [Stop] policy, whatever the size of the
    address. *)
Theorem C10_addresses_reduced_modulo (r : Reader.t) :
  supported_word_size (Reader.w r) ->
  let w := Reader.w r in
  (forall a, Reader.getitem r a = Reader.getitem r (a mod 2 ^ w))
  /\ (forall a v,
        Reader.setitem r a v = Reader.setitem r (a mod 2 ^ w) (v mod 2 ^ w)
        /\ Reader.memory (Reader.setitem r a v) !! (a mod 2 ^ w) = Some (v mod 2 ^ w))
  /\ (forall b, Reader.bit_address_decompose r b = ((b / w) mod 2 ^ w, b mod w))
  /\ (forall b1 b2,
        (b1 / w) mod 2 ^ w = (b2 / w) mod 2 ^ w -> b1 mod w = b2 mod w ->
        Reader.read_bit r b1 = Reader.read_bit r b2
        /\ (forall v, Reader.write_bit r b1 v = Reader.write_bit r b2 v)
        /\ Reader.get_word r b1 = Reader.get_word r b2)
  /\ (forall b,
        Reader.read_bit r b = Reader.read_bit r (b mod (w * 2 ^ w))
        /\ (forall v, Reader.write_bit r b v = Reader.write_bit r (b mod (w * 2 ^ w)) v)
        /\ Reader.get_word r b = Reader.get_word r (b mod (w * 2 ^ w)))
  /\ (forall a e,
        Reader.getitem r a = Raise e ->
        e = FJReadFjmException (ReadingGarbageWord (a mod 2 ^ w) 0)
        /\ Reader.garbage_handling r = Stop)
  /\ (Reader.garbage_handling r <> Stop ->
      forall a, is_Ok (Reader.getitem r a) = true).
Proof.
  intros Hw w. repeat split.
  - intros a. by apply getitem_mod.
  - by apply setitem_mod.
  - by apply setitem_lookup.
  - intros b. by apply bit_address_decompose_spec.
  - apply same_decomposition_same_access.
    rewrite !bit_address_decompose_spec by done. fold w. congruence.
  - apply same_decomposition_same_access.
    rewrite !bit_address_decompose_spec by done. fold w. congruence.
  - apply same_decomposition_same_access.
    rewrite !bit_address_decompose_spec by done. fold w. congruence.
  - apply same_decomposition_same_access. symmetry. by apply decompose_reduced.
  - apply same_decomposition_same_access. symmetry. by apply decompose_reduced.
  - apply same_decomposition_same_access. symmetry. by apply decompose_reduced.
  - eapply getitem_Raise; eauto.
  - eapply getitem_Raise; eauto.
  - intros Hg a. by apply getitem_total.
Qed.

(** ** The Reader: words and bits *)

(** C4: [get_word] on a bit address that decomposes into word index
    [address] and offset [bit]: with offset 0 it is the word at [address];
    with another offset and [address] the last index 2^w - 1 it raises the
    "beyond the last bit" exception; otherwise it reads the words at
    [address] and [address + 1], both inside the memory, and returns
    ((lsw >> bit) | (msw << (w - bit))) reduced to w bits. *)
Theorem C4_get_word_cases (r : Reader.t) (b address bit : Z) :
  supported_word_size (Reader.w r) ->
  Reader.bit_address_decompose r b = (address, bit) ->
  let w := Reader.w r in
  (bit = 0 -> Reader.get_word r b = Reader.getitem r address)
  /\ (bit <> 0 -> address = 2 ^ w - 1 ->
      Reader.get_word r b = Raise (FJReadFjmException AccessedOutsideOfMemory))
  /\ (bit <> 0 -> address <> 2 ^ w - 1 ->
      0 <= address /\ address + 1 < 2 ^ w
      /\ Reader.get_word r b =
           ('(lsw, r1) ← Reader.getitem r address;
            '(msw, r2) ← Reader.getitem r1 (address + 1);
            mret ((Z.lor (Z.shiftr lsw bit) (Z.shiftl msw (w - bit))) mod 2 ^ w, r2))).
Proof.
  intros Hw Hd w.
  destruct (bit_address_decompose_range r Hw b address bit Hd) as [Ha Hb].
  assert (Hlast : Z.shiftl 1 (Reader.w r) - 1 = 2 ^ w - 1).
  { rewrite Z.shiftl_1_l. done. }
  unfold Reader.get_word. rewrite Hd. split; [| split].
  - intros ->. done.
  - intros Hb0 ->. apply Z.eqb_neq in Hb0. rewrite Hb0, Hlast, Z.eqb_refl. done.
  - intros Hb0 Hnl. split; [lia |]. split; [fold w in Ha; lia |].
    apply Z.eqb_neq in Hb0. rewrite Hb0.
    rewrite Hlast. apply Z.eqb_neq in Hnl. rewrite Hnl.
    destruct (Reader.getitem r address) as [[lsw r1] |] eqn:H1; [| done]. simpl.
    destruct (Reader.getitem r1 (address + 1)) as [[msw r2] | e] eqn:H2; [| done]. simpl.
    destruct (getitem_Ok _ _ _ _ H1) as (Hw1 & _).
    destruct (getitem_Ok _ _ _ _ H2) as (Hw2 & _).
    rewrite Hw2, Hw1. fold w.
    rewrite land_mask_mod by (subst w; by apply w_nonneg). done.
Qed.

(** Writing a bit succeeds whenever the word it lies in can be read. *)
Lemma write_bit_Ok r b v address bit x r1 :
  Reader.bit_address_decompose r b = (address, bit) ->
  Reader.getitem r address = Ok (x, r1) ->
  Reader.write_bit r b v =
    Ok (Reader.setitem r1 address
          (if v then Z.lor x (Z.shiftl 1 bit)
           else Z.land x (Z.shiftl 1 (Reader.w r1) - 1 - Z.shiftl 1 bit))).
Proof.
  intros Hd Hg. unfold Reader.write_bit. rewrite Hd.
  destruct v; rewrite Hg; done.
Qed.

Lemma write_bit_inv r b v r' :
  Reader.write_bit r b v = Ok r' ->
  exists x r1,
    Reader.getitem r (fst (Reader.bit_address_decompose r b)) = Ok (x, r1)
    /\ r' = Reader.setitem r1 (fst (Reader.bit_address_decompose r b))
              (if v then Z.lor x (Z.shiftl 1 (snd (Reader.bit_address_decompose r b)))
               else Z.land x (Z.shiftl 1 (Reader.w r1) - 1
                              - Z.shiftl 1 (snd (Reader.bit_address_decompose r b)))).
Proof.
  unfold Reader.write_bit.
  destruct (Reader.bit_address_decompose r b) as [address bit]. simpl.
  destruct v; destruct (Reader.getitem r address) as [[x r1] |]; try done;
    intros [= <-]; eauto.
Qed.

Lemma write_bit_total r b v :
  Reader.garbage_handling r <> Stop -> is_Ok (Reader.write_bit r b v) = true.
Proof.
  intros Hg. unfold Reader.write_bit.
  destruct (Reader.bit_address_decompose r b) as [address bit].
  pose proof (getitem_total r address Hg) as Ht.
  destruct v; destruct (Reader.getitem r address) as [[x r1] |]; done.
Qed.

(** C5: for a word size among 8, 16, 32, 64: a bit read after
    [write_bit(b, v)] at the same bit address is [v] (and [write_bit] does
    return under every garbage policy but [Stop]); [get_word(a * w)] is the
    word read at index [a], which is the stored word when the dictionary
    holds one at that index. *)
Theorem C5_bit_addressing_round_trip (r : Reader.t) :
  supported_word_size (Reader.w r) ->
  let w := Reader.w r in
  (forall b v r',
      Reader.write_bit r b v = Ok r' -> Reader.read_bit r' b = Ok (Z.b2z v, r'))
  /\ (Reader.garbage_handling r <> Stop ->
      forall b v, is_Ok (Reader.write_bit r b v) = true)
  /\ (forall a, Reader.get_word r (a * w) = Reader.getitem r a)
  /\ (forall a x,
        Reader.memory r !! (a mod 2 ^ w) = Some x ->
        Reader.get_word r (a * w) = Ok (x, r)).
Proof.
  intros Hw w.
  destruct (supported_word_size_pow2 _ Hw) as (Hpos & _).
  assert (Hget : forall a, Reader.get_word r (a * w) = Reader.getitem r a).
  { intros a. unfold Reader.get_word.
    rewrite bit_address_decompose_spec by done. fold w.
    rewrite Z.mod_mul, Z.div_mul by lia. simpl.
    symmetry. by apply getitem_mod. }
  repeat split.
  - intros b v r' Hwr.
    destruct (write_bit_inv _ _ _ _ Hwr) as (x & r1 & Hg & ->).
    destruct (Reader.bit_address_decompose r b) as [address bit] eqn:Hd.
    destruct (bit_address_decompose_range r Hw _ _ _ Hd) as [Ha Hb].
    destruct (getitem_Ok _ _ _ _ Hg) as (Hw1 & _).
    simpl in *.
    set (val := if v then _ else _).
    assert (Hd' : Reader.bit_address_decompose (Reader.setitem r1 address val) b
                  = (address, bit)).
    { unfold Reader.bit_address_decompose, Reader.mask in *. simpl. rewrite Hw1. done. }
    unfold Reader.read_bit. rewrite Hd'.
    rewrite (getitem_present _ _ (Z.land val (Reader.mask r1))).
    2:{ unfold Reader.setitem. simpl. unfold Reader.mask. simpl.
        apply lookup_insert_eq. }
    simpl. rewrite shiftr_land_1 by lia. do 2 f_equal.
    unfold Reader.mask, val. rewrite Hw1. destruct v.
    + by rewrite testbit_set.
    + by rewrite testbit_clear.
  - intros Hg b v. by apply write_bit_total.
  - done.
  - intros a x Hx. rewrite Hget. apply getitem_present.
    by rewrite mask_mod.
Qed.

(** ** The interpreter *)

Example self_loop_fjm_loads :
  Reader.__init__ Samples.self_loop_fjm Stop = Ok Samples.self_loop_reader.
Proof. vm_compute. reflexivity. Qed.

Section InterpreterFacts.

Context {D St B : Type}
        {device : IODevice D} {stats : RunStatistics St}
        {hook : BreakpointHandler B St}.

Lemma check_finish_looping ip w flip jump mem (io : D) (st : St) (bh : option B) :
  jump = ip -> flip < ip \/ ip + 2 * w <= flip ->
  FjmRun.check_finish ip w flip jump mem io st bh
  = FjmRun.Return (FjmRun.TerminationStatistics_init st Looping).
Proof.
  intros -> Hout. unfold FjmRun.check_finish. rewrite Z.eqb_refl. simpl.
  destruct (ip <=? flip) eqn:H1, (flip <? ip + 2 * w) eqn:H2; simpl; try done. lia.
Qed.

Lemma check_finish_not_looping ip w flip jump mem (io : D) (st : St) (bh : option B) :
  ~ (jump = ip /\ (flip < ip \/ ip + 2 * w <= flip)) ->
  FjmRun.check_finish ip w flip jump mem io st bh
  = if jump <? 2 * w then FjmRun.Return (FjmRun.TerminationStatistics_init st NullIP)
    else FjmRun.Next (FjmRun.mkState jump mem io st bh).
Proof.
  intros Hn. unfold FjmRun.check_finish.
  destruct (jump =? ip) eqn:H1; [| done]. apply Z.eqb_eq in H1.
  destruct (ip <=? flip) eqn:H2, (flip <? ip + 2 * w) eqn:H3; simpl; try done;
    exfalso; apply Hn; split; try done; lia.
Qed.

(** An iteration whose reads, I/O and flip all return ends in
    [check_finish] on the values read. *)
Lemma iteration_fetched w (s : FjmRun.state) bh m0 st0 flip m1 io1 io2 m2 bit m3 m4 jump m5 :
  FjmRun.handle_breakpoints s = Ok (bh, m0, st0) ->
  Reader.get_word m0 (FjmRun.ip s) = Ok (flip, m1) ->
  FjmRun.handle_output flip (FjmRun.io_device s) w = Ok io1 ->
  FjmRun.handle_input io1 (FjmRun.ip s) m1 = Ok (io2, m2) ->
  Reader.read_bit m2 flip = Ok (bit, m3) ->
  Reader.write_bit m3 flip (bit =? 0) = Ok m4 ->
  Reader.get_word m4 (FjmRun.ip s + w) = Ok (jump, m5) ->
  FjmRun.iteration w s
  = Ok (FjmRun.check_finish (FjmRun.ip s) w flip jump m5 io2
          (register_op st0 (FjmRun.ip s) flip jump) bh).
Proof.
  intros Hb Hf Ho Hi Hr Hwr Hj. unfold FjmRun.iteration.
  rewrite Hb. simpl. rewrite Hf. simpl. rewrite Ho. simpl. rewrite Hi.
  rewrite Hr. simpl. rewrite Hwr. simpl. rewrite Hj. done.
Qed.

(** C1: in an iteration at [ip] that has read [flip_address], done its
    I/O, flipped the bit and read [jump_address]: when [jump_address = ip]
    and [flip_address] is outside [ip, ip + 2w) the iteration, and so [run]
    in that very iteration, returns with cause [Looping], whatever [ip] is
    (below 2w as well); in every other case it returns with cause [NullIP]
    when [jump_address < 2w], and goes on at [jump_address] when not. *)
Theorem C1_looping_before_null_ip w (s : FjmRun.state)
    bh m0 st0 flip m1 io1 io2 m2 bit m3 m4 jump m5 :
  FjmRun.handle_breakpoints s = Ok (bh, m0, st0) ->
  Reader.get_word m0 (FjmRun.ip s) = Ok (flip, m1) ->
  FjmRun.handle_output flip (FjmRun.io_device s) w = Ok io1 ->
  FjmRun.handle_input io1 (FjmRun.ip s) m1 = Ok (io2, m2) ->
  Reader.read_bit m2 flip = Ok (bit, m3) ->
  Reader.write_bit m3 flip (bit =? 0) = Ok m4 ->
  Reader.get_word m4 (FjmRun.ip s + w) = Ok (jump, m5) ->
  let ip := FjmRun.ip s in
  let st1 := register_op st0 ip flip jump in
  let looping := jump = ip /\ (flip < ip \/ ip + 2 * w <= flip) in
  (looping ->
   FjmRun.iteration w s = Ok (FjmRun.Return (FjmRun.TerminationStatistics_init st1 Looping))
   /\ forall fuel,
        FjmRun.loop (S fuel) w s = Ok (Some (FjmRun.TerminationStatistics_init st1 Looping)))
  /\ (~ looping -> jump < 2 * w ->
      FjmRun.iteration w s = Ok (FjmRun.Return (FjmRun.TerminationStatistics_init st1 NullIP))
      /\ forall fuel,
           FjmRun.loop (S fuel) w s = Ok (Some (FjmRun.TerminationStatistics_init st1 NullIP)))
  /\ (~ looping -> 2 * w <= jump ->
      FjmRun.iteration w s = Ok (FjmRun.Next (FjmRun.mkState jump m5 io2 st1 bh))
      /\ forall fuel,
           FjmRun.loop (S fuel) w s
           = FjmRun.loop fuel w (FjmRun.mkState jump m5 io2 st1 bh)).
Proof.
  intros Hb Hf Ho Hi Hr Hwr Hj ip st1 looping.
  pose proof (iteration_fetched w s _ _ _ _ _ _ _ _ _ _ _ _ _ Hb Hf Ho Hi Hr Hwr Hj) as Hit.
  fold ip st1 in Hit.
  split; [| split].
  - intros [Hjump Hout].
    rewrite (check_finish_looping ip w flip jump) in Hit by done.
    split; [done |]. intros fuel. simpl. rewrite Hit. done.
  - intros Hn Hlt.
    rewrite (check_finish_not_looping ip w flip jump) in Hit by done.
    apply Z.ltb_lt in Hlt. rewrite Hlt in Hit.
    split; [done |]. intros fuel. simpl. rewrite Hit. done.
  - intros Hn Hge.
    rewrite (check_finish_not_looping ip w flip jump) in Hit by done.
    destruct (jump <? 2 * w) eqn:Hlt; [apply Z.ltb_lt in Hlt; lia |].
    split; [done |]. intros fuel. simpl. rewrite Hit. done.
Qed.

(** The reserved input address on the word sizes of the format. *)
Lemma in_addr_supported w :
  supported_word_size w -> FjmRun.in_addr w = 3 * w + Z.log2 w + 1.
Proof.
  intros Hw. destruct (supported_word_size_pow2 _ Hw) as (_ & Hbl & _).
  unfold FjmRun.in_addr. lia.
Qed.

(** C2, as the code has it: the reserved input address is
    3w + bit_length(w), which is 3w + log2(w) + 1 on the word sizes of the
    format; exactly when ip <= in_addr < ip + 2w, [handle_input] pulls one
    bit from the device and writes it to that address with [write_bit], and
    otherwise it leaves device and memory alone; in an iteration the flip
    is done on the memory that [handle_input] returns. *)
Theorem C2_input_address (io : D) (ip : Z) (mem : Reader.t) :
  let w := Reader.w mem in
  let in_addr := FjmRun.in_addr w in
  in_addr = 3 * w + bit_length w
  /\ (supported_word_size w -> in_addr = 3 * w + Z.log2 w + 1)
  /\ (ip <= in_addr < ip + 2 * w ->
      FjmRun.handle_input io ip mem
      = ('(input_bit, io') ← io_read_bit io;
         mem' ← Reader.write_bit mem in_addr input_bit;
         mret (io', mem')))
  /\ (~ ip <= in_addr < ip + 2 * w -> FjmRun.handle_input io ip mem = Ok (io, mem))
  /\ (forall (s : FjmRun.state) bh m0 st0 flip io1 io2 m2,
        FjmRun.ip s = ip ->
        FjmRun.handle_breakpoints s = Ok (bh, m0, st0) ->
        Reader.get_word m0 ip = Ok (flip, mem) ->
        FjmRun.handle_output flip (FjmRun.io_device s) w = Ok io1 ->
        FjmRun.handle_input io1 ip mem = Ok (io2, m2) ->
        FjmRun.iteration w s
        = ('(bit, m3) ← Reader.read_bit m2 flip;
           m4 ← Reader.write_bit m3 flip (bit =? 0);
           '(jump, m5) ← Reader.get_word m4 (ip + w);
           mret (FjmRun.check_finish ip w flip jump m5 io2
                   (register_op st0 ip flip jump) bh))).
Proof.
  intros w in_addr. split; [done |]. split; [apply in_addr_supported |].
  split; [| split].
  - intros Hin. unfold FjmRun.handle_input. fold w in_addr.
    destruct (ip <=? in_addr) eqn:H1, (in_addr <? ip + 2 * w) eqn:H2; simpl; try done; lia.
  - intros Hout. unfold FjmRun.handle_input. fold w in_addr.
    destruct (ip <=? in_addr) eqn:H1, (in_addr <? ip + 2 * w) eqn:H2; simpl; try done.
    exfalso. apply Hout. lia.
  - intros s bh m0 st0 flip io1 io2 m2 Hip Hb Hf Ho Hi.
    unfold FjmRun.iteration. rewrite Hb. simpl. rewrite Hip, Hf. simpl.
    rewrite Ho. simpl. rewrite Hi. done.
Qed.

End InterpreterFacts.

(** The self-loop image: the instruction at 0 flips bit 24 and jumps to 0,
    below 2w = 16, and the run returns with [Looping] in its first
    iteration. *)
Lemma C1_witness :
  FjmRun.ip Samples.self_loop_state < 2 * 8
  /\ FjmRun.iteration 8 Samples.self_loop_state
     = Ok (FjmRun.Return (FjmRun.mkTerminationStatistics 1 0 0 Looping))
  /\ FjmRun.loop 1 8 Samples.self_loop_state
     = Ok (Some (FjmRun.mkTerminationStatistics 1 0 0 Looping)).
Proof.
  pose proof (C1_looping_before_null_ip 8 Samples.self_loop_state
                None Samples.self_loop_reader 0 24 Samples.self_loop_reader
                (Samples.console []) (Samples.console []) Samples.self_loop_reader
                0 Samples.self_loop_reader Samples.self_loop_flipped
                0 Samples.self_loop_flipped) as Hc.
  destruct Hc as [Hloop _]; try (vm_compute; reflexivity).
  destruct Hloop as [Hit Hrun].
  { simpl. lia. }
  split; [simpl; lia |]. split; [exact Hit | exact (Hrun 0%nat)].
Defined.

(** The whole run on the image of the self-loop, from the file. *)
Example self_loop_run :
  FjmRun.run (St := Z) (B := Empty_set) 1 Samples.self_loop_fjm (fun _ => 0) None
             (Samples.console [])
  = Ok (Some (FjmRun.mkTerminationStatistics 1 0 0 Looping)).
Proof. vm_compute. reflexivity. Qed.

(** At w = 8 the input address is 28, not 3w + log2(w) = 27.  At ip = 28
    the address 27 is not in [ip, ip + 2w), yet an input bit is pulled and
    stored in bit 4 of word 3, that is at bit address 28; at ip = 12 the
    address 27 is in [ip, ip + 2w) and nothing is pulled. *)
Lemma C2_counterexample :
  FjmRun.in_addr 8 = 28 /\ 3 * 8 + Z.log2 8 = 27
  /\ ~ (28 <= 3 * 8 + Z.log2 8 < 28 + 2 * 8)
  /\ (exists io' mem',
        FjmRun.handle_input (Samples.console [1]) 28 Samples.self_loop_reader
        = Ok (io', mem')
        /\ StandardIO.stdin io' = []
        /\ StandardIO.bits_to_read_in_input_byte io' = 7
        /\ Reader.memory mem' !! 3 = Some 16)
  /\ 12 <= 3 * 8 + Z.log2 8 < 12 + 2 * 8
  /\ FjmRun.handle_input (Samples.console [1]) 12 Samples.self_loop_reader
     = Ok (Samples.console [1], Samples.self_loop_reader).
Proof.
  split; [reflexivity |]. split; [reflexivity |].
  split; [vm_compute; intros [Hc _]; apply Hc; reflexivity |].
  split.
  { eexists _, _. split; [vm_compute; reflexivity |]. vm_compute. done. }
  split; [vm_compute; split; [discriminate | reflexivity] |].
  vm_compute. reflexivity.
Qed.

Lemma C2_witness :
  16 <= FjmRun.in_addr 8 < 16 + 2 * 8
  /\ FjmRun.handle_input (Samples.console [1]) 16 Samples.self_loop_reader
     = ('(input_bit, io') ← io_read_bit (Samples.console [1]);
        mem' ← Reader.write_bit Samples.self_loop_reader (FjmRun.in_addr 8) input_bit;
        mret (io', mem')).
Proof.
  assert (Hin : 16 <= FjmRun.in_addr 8 < 16 + 2 * 8) by (vm_compute; split; [discriminate | reflexivity]).
  split; [exact Hin |].
  exact (proj1 (proj2 (proj2 (C2_input_address (Samples.console [1]) 16
                                 Samples.self_loop_reader))) Hin).
Defined.

Lemma C4_witness :
  supported_word_size (Reader.w Samples.self_loop_reader)
  /\ Reader.bit_address_decompose Samples.self_loop_reader 4 = (0, 4)
  /\ Reader.get_word Samples.self_loop_reader 4 = Ok (1, Samples.self_loop_reader).
Proof.
  assert (Hw : supported_word_size (Reader.w Samples.self_loop_reader)) by (left; reflexivity).
  assert (Hd : Reader.bit_address_decompose Samples.self_loop_reader 4 = (0, 4))
    by reflexivity.
  split; [exact Hw |]. split; [exact Hd |].
  destruct (C4_get_word_cases Samples.self_loop_reader 4 0 4 Hw Hd) as (_ & _ & Hun).
  destruct Hun as (_ & _ & ->); [lia | vm_compute; discriminate |].
  vm_compute. reflexivity.
Defined.

Lemma C5_witness :
  supported_word_size (Reader.w Samples.self_loop_reader)
  /\ Reader.write_bit Samples.self_loop_reader 24 true = Ok Samples.self_loop_flipped
  /\ Reader.read_bit Samples.self_loop_flipped 24 = Ok (1, Samples.self_loop_flipped)
  /\ Reader.get_word Samples.self_loop_reader (0 * 8) = Ok (24, Samples.self_loop_reader).
Proof.
  assert (Hw : supported_word_size (Reader.w Samples.self_loop_reader)) by (left; reflexivity).
  assert (Hwr : Reader.write_bit Samples.self_loop_reader 24 true
                = Ok Samples.self_loop_flipped) by (vm_compute; reflexivity).
  destruct (C5_bit_addressing_round_trip Samples.self_loop_reader Hw)
    as (Hrt & _ & _ & Hword).
  split; [exact Hw |]. split; [exact Hwr |].
  split; [exact (Hrt 24 true _ Hwr) |].
  apply (Hword 0 24). vm_compute. reflexivity.
Defined.

Lemma C10_witness :
  supported_word_size (Reader.w Samples.self_loop_reader)
  /\ Reader.getitem Samples.self_loop_reader (256 + 3)
     = Reader.getitem Samples.self_loop_reader 3
  /\ Reader.bit_address_decompose Samples.self_loop_reader (8 * 256 + 28) = (3, 4)
  /\ Reader.read_bit Samples.self_loop_reader (8 * 256 + 28)
     = Reader.read_bit Samples.self_loop_reader 28.
Proof.
  assert (Hw : supported_word_size (Reader.w Samples.self_loop_reader)) by (left; reflexivity).
  destruct (C10_addresses_reduced_modulo Samples.self_loop_reader Hw)
    as (Hget & _ & Hdec & _ & Hred & _).
  split; [exact Hw |].
  split; [exact (Hget (256 + 3)) |].
  split; [exact (Hdec (8 * 256 + 28)) |].
  exact (proj1 (Hred (8 * 256 + 28))).
Defined.

(** ** The loader: header validation *)

Lemma validate_header_Ok self :
  Reader._validate_header self = Ok tt <->
  Reader.magic self = fj_magic
  /\ (Reader.version self = 0 \/ Reader.version self = 1)
  /\ Reader.reserved self = 0.
Proof.
  unfold Reader._validate_header, SUPPORTED_VERSIONS. simpl.
  destruct (Z.eqb_spec (Reader.magic self) fj_magic) as [Hm | Hm]; simpl;
    [| split; [done | tauto]].
  destruct (Z.eqb_spec (Reader.version self) 0) as [H0 | H0],
           (Z.eqb_spec (Reader.version self) 1) as [H1 | H1]; simpl;
    destruct (Z.eqb_spec (Reader.reserved self) 0) as [Hr | Hr]; simpl;
    split; try done; try tauto.
Qed.

(** A bad magic, an unsupported version and a nonzero reserved field are
    each rejected with an [FJReadFjmException]. *)
Lemma validate_header_rejects self :
  Reader.magic self <> fj_magic
  \/ ~ (Reader.version self = 0 \/ Reader.version self = 1)
  \/ Reader.reserved self <> 0 ->
  exists msg, Reader._validate_header self = Raise (FJReadFjmException msg).
Proof.
  intros Hbad. unfold Reader._validate_header, SUPPORTED_VERSIONS. simpl.
  destruct (Z.eqb_spec (Reader.magic self) fj_magic) as [Hm | Hm]; simpl; [| eauto].
  destruct (Z.eqb_spec (Reader.version self) 0) as [H0 | H0],
           (Z.eqb_spec (Reader.version self) 1) as [H1 | H1]; simpl; eauto;
    destruct (Z.eqb_spec (Reader.reserved self) 0) as [Hr | Hr]; simpl; eauto;
    tauto.
Qed.

(** The loader rejects such a header, whatever follows it in the file. *)
Lemma init_rejects_bad_header input_file garbage_handling self rest :
  Reader._init_header_fields garbage_handling input_file = Ok (self, rest) ->
  Reader.magic self <> fj_magic
  \/ ~ (Reader.version self = 0 \/ Reader.version self = 1)
  \/ Reader.reserved self <> 0 ->
  exists msg, Reader.__init__ input_file garbage_handling = Raise (FJReadFjmException msg).
Proof.
  intros Hh Hbad. destruct (validate_header_rejects self Hbad) as [msg Hv].
  exists msg. unfold Reader.__init__. rewrite Hh. simpl. rewrite Hv. done.
Qed.

(** A file whose base header has a bad magic or an unsupported version is
    rejected with an [FJReadFjmException], be the rest of the header there
    or not. *)
Lemma init_rejects_magic_version input_file garbage_handling magic w version segment_num :
  unpack header_base_format (fst (file_read header_base_size input_file))
  = Ok [magic; w; version; segment_num] ->
  magic <> fj_magic \/ ~ (version = 0 \/ version = 1) ->
  exists msg, Reader.__init__ input_file garbage_handling = Raise (FJReadFjmException msg).
Proof.
  intros Hbase Hbad.
  destruct (Reader._init_header_fields garbage_handling input_file)
    as [[self rest] | e] eqn:Hh.
  - apply (init_rejects_bad_header _ _ _ _ Hh).
    assert (Hfields : Reader.magic self = magic /\ Reader.version self = version).
    { clear Hbad. unfold Reader._init_header_fields in Hh.
      destruct (file_read header_base_size input_file) as [buf rest0]. simpl in Hbase.
      rewrite Hbase in Hh. simpl in Hh.
      destruct (version =? 0); [by injection Hh as <- _ |].
      match type of Hh with
      | context [unpack ?f ?b] => destruct (unpack f b) as [ext |]; simpl in Hh; [| done]
      end.
      destruct ext as [| flags [| reserved [| ? ?]]]; try done.
      by injection Hh as <- _. }
    destruct Hfields as [-> ->]. tauto.
  - exists BadFile. unfold Reader.__init__. rewrite Hh. simpl.
    assert (He : e = struct_error); [| by subst e].
    clear Hbad. unfold Reader._init_header_fields in Hh.
    destruct (file_read header_base_size input_file) as [buf rest0]. simpl in Hbase.
    rewrite Hbase in Hh. simpl in Hh.
    destruct (version =? 0); [done |].
    unfold unpack in Hh.
    match type of Hh with
    | context [Nat.eqb ?x ?y] => destruct (Nat.eqb x y); simpl in Hh
    end; [done | by injection Hh as <-].
Qed.

(** The word size of a loaded Reader is one of 8, 16, 32, 64: another one
    does not survive [_read_data]. *)
Lemma init_Ok_word_size input_file garbage_handling self :
  Reader.__init__ input_file garbage_handling = Ok self ->
  supported_word_size (Reader.w self).
Proof.
  unfold Reader.__init__.
  destruct (Reader._init_header_fields _ _) as [[hdr rest] | e] eqn:Hh; simpl.
  2:{ by destruct e. }
  destruct (Reader._validate_header hdr) as [[] | e]; simpl.
  2:{ by destruct e. }
  destruct (Reader._init_segments hdr rest) as [[segments rest'] | e]; simpl.
  2:{ by destruct e. }
  unfold Reader._read_data, Reader.read_tag, supported_word_size.
  destruct (Reader.w hdr =? 8) eqn:H8; [apply Z.eqb_eq in H8 |];
    [| destruct (Reader.w hdr =? 16) eqn:H16; [apply Z.eqb_eq in H16 |]];
    [| | destruct (Reader.w hdr =? 32) eqn:H32; [apply Z.eqb_eq in H32 |]];
    [| | | destruct (Reader.w hdr =? 64) eqn:H64; [apply Z.eqb_eq in H64 |]];
    simpl; try done;
    (destruct (Reader.unpack_words _ _ _ _) as [data | e]; simpl; [| by destruct e]);
    unfold Reader._init_memory;
    (destruct (Reader.init_segments_memory _ _ _ _) as [[m z] | e]; simpl; [| by destruct e]);
    intros [= <-]; simpl; tauto.
Qed.

(** C6, the word size: a well-formed header with magic 0x4A46, version 0 and
    word size 12 passes [_validate_header]; the loader then fails in
    [_read_data] with a [KeyError], which is not the exception of the file
    format. *)
Theorem C6_word_size_not_validated :
  (exists self rest,
      Reader._init_header_fields Stop Samples.word_size_12_fjm = Ok (self, rest)
      /\ Reader.magic self = 19014 /\ Reader.w self = 12
      /\ Reader._validate_header self = Ok tt)
  /\ Reader.__init__ Samples.word_size_12_fjm Stop = Raise (KeyError 12)
  /\ forall msg,
       Reader.__init__ Samples.word_size_12_fjm Stop <> Raise (FJReadFjmException msg).
Proof.
  split; [| split].
  - eexists _, _. split; [vm_compute; reflexivity |]. vm_compute. done.
  - vm_compute. reflexivity.
  - intros msg. vm_compute. discriminate.
Qed.

(** ** The Writer: segments *)

Lemma is_segment_collision_of_intersect start1 length1 start2 length2 :
  ranges_intersect start1 length1 start2 length2 ->
  Writer._is_segment_collision start1 (start1 + length1 - 1)
                               start2 (start2 + length2 - 1) = true.
Proof.
  intros (a & H1 & H2). unfold Writer._is_segment_collision. simpl.
  destruct (Z.le_gt_cases start2 start1) as [Hle | Hgt].
  - assert (Hc : (start2 <=? start1) && (start1 <=? start2 + length2 - 1) = true)
      by (apply andb_true_intro; split; apply Z.leb_le; lia).
    rewrite Hc. done.
  - assert (Hc : (start1 <=? start2) && (start2 <=? start1 + length1 - 1) = true)
      by (apply andb_true_intro; split; apply Z.leb_le; lia).
    rewrite Hc.
    by destruct ((start2 <=? start1) && _ || _).
Qed.

(** The validation loop returns only when no listed segment collides; its
    only exception is the one of overlapping segments. *)
Lemma validate_from_Ok word_size n new_start new_length i segs :
  Writer.validate_from word_size n new_start new_length (new_start + new_length - 1) i segs
  = Ok tt ->
  Forall (fun seg => ~ ranges_intersect (segment_start seg) (segment_length seg)
                                        new_start new_length) segs.
Proof.
  revert i. induction segs as [| [[[start length] ds] dl] segs IH]; intros i; simpl.
  - constructor.
  - destruct (Writer._is_segment_collision _ _ _ _) eqn:Hc; [done |].
    intros Hrest. constructor; [| by eapply IH].
    intros Hi. apply is_segment_collision_of_intersect in Hi.
    unfold segment_start, segment_length in Hi. simpl in Hi. congruence.
Qed.

Lemma validate_from_Raise word_size n new_start new_length i segs :
  Exists (fun seg => ranges_intersect (segment_start seg) (segment_length seg)
                                      new_start new_length) segs ->
  exists j bit_start bit_end new_bit_start new_bit_end,
    Writer.validate_from word_size n new_start new_length (new_start + new_length - 1) i segs
    = Raise (FJWriteFjmException
               (OverlappingSegments j bit_start bit_end n new_bit_start new_bit_end)).
Proof.
  intros Hex. revert i.
  induction Hex as [[[[start length] ds] dl] segs Hi | [[[start length] ds] dl] segs Hex IH];
    intros i; simpl.
  - apply is_segment_collision_of_intersect in Hi.
    unfold segment_start, segment_length in Hi. simpl in Hi. rewrite Hi. eauto 10.
  - destruct (Writer._is_segment_collision _ _ _ _); [eauto 10 | apply IH].
Qed.

Lemma add_segment_Ok self start length ds dl self' :
  Writer.add_segment self start length ds dl = Ok self' ->
  dl <= length
  /\ Forall (fun seg => ~ ranges_intersect (segment_start seg) (segment_length seg)
                                           start length) (Writer.segments self)
  /\ Writer.segments self' = Writer.segments self ++ [(start, length, ds, dl)].
Proof.
  unfold Writer.add_segment, Writer._validate_segment_not_overlapping.
  destruct (length <? dl) eqn:Hlt; [done |]. apply Z.ltb_ge in Hlt.
  destruct (Writer.validate_from _ _ _ _ _ _ _) as [[] |] eqn:Hv; [| done].
  simpl. intros [= <-]. split; [done |]. split; [| done].
  by eapply validate_from_Ok.
Qed.

Lemma ranges_intersect_sym s1 l1 s2 l2 :
  ranges_intersect s1 l1 s2 l2 -> ranges_intersect s2 l2 s1 l1.
Proof. intros (a & H1 & H2). by exists a. Qed.

Lemma segments_valid_snoc segs seg :
  segments_valid segs ->
  data_length seg <= segment_length seg ->
  Forall (fun seg' => ~ ranges_intersect (segment_start seg') (segment_length seg')
                                         (segment_start seg) (segment_length seg)) segs ->
  segments_valid (segs ++ [seg]).
Proof.
  intros [Hpair Hdata] Hseg Hnew. split.
  - intros i j seg1 seg2 Hij H1 H2.
    apply lookup_snoc_Some in H1 as [[Hi H1] | [Hi <-]];
      apply lookup_snoc_Some in H2 as [[Hj H2] | [Hj <-]].
    + by eapply Hpair.
    + rewrite Forall_forall in Hnew. apply Hnew.
      apply list_elem_of_lookup. eauto.
    + intros Hx. apply ranges_intersect_sym in Hx. revert Hx.
      rewrite Forall_forall in Hnew. apply Hnew.
      apply list_elem_of_lookup. eauto.
    + lia.
  - apply Forall_app. split; [done |]. by constructor.
Qed.

Lemma add_segment_valid self start length ds dl self' :
  segments_valid (Writer.segments self) ->
  Writer.add_segment self start length ds dl = Ok self' ->
  segments_valid (Writer.segments self').
Proof.
  intros Hv Ha. apply add_segment_Ok in Ha as (Hdl & Hnew & ->).
  by apply segments_valid_snoc.
Qed.

Lemma writer_reachable_valid self :
  writer_reachable self -> segments_valid (Writer.segments self).
Proof.
  induction 1 as [f w v fl self Hi | self s l ds dl self' _ IH Ha
                  | self d _ IH | self s d self' _ IH Ha].
  - unfold Writer.__init__ in Hi.
    repeat match type of Hi with
           | (if ?c then _ else _) = _ => destruct c; [done |]
           end.
    injection Hi as <-. simpl. split; [| constructor].
    intros i j seg1 seg2 _ H1. by rewrite lookup_nil in H1.
  - by eapply add_segment_valid.
  - done.
  - unfold Writer.add_simple_segment_with_data in Ha. simpl in Ha.
    eapply add_segment_valid; [| exact Ha]. done.
Qed.

(** C7: [add_segment] raises when [data_length] exceeds [segment_length];
    when it does not, it raises the exception of overlapping segments if the
    range of the new segment has a word in common with the range of a segment
    added before; so on every Writer that a sequence of returning calls has
    built, the segments are pairwise non-overlapping and each has
    [data_length <= segment_length]. *)
Theorem C7_add_segment_keeps_segments_valid :
  (forall self segment_start segment_length data_start data_length,
      segment_length < data_length ->
      Writer.add_segment self segment_start segment_length data_start data_length
      = Raise (FJWriteFjmException SegmentLengthBelowDataLength))
  /\ (forall self start length data_start data_length,
        data_length <= length ->
        Exists (fun seg => ranges_intersect (segment_start seg) (segment_length seg)
                                            start length) (Writer.segments self) ->
        exists i bit_start bit_end new_bit_start new_bit_end,
          Writer.add_segment self start length data_start data_length
          = Raise (FJWriteFjmException
                     (OverlappingSegments i bit_start bit_end
                        (List.length (Writer.segments self)) new_bit_start new_bit_end)))
  /\ (forall self,
        writer_reachable self ->
        pairwise_non_overlapping (Writer.segments self)
        /\ Forall (fun seg => data_length seg <= segment_length seg) (Writer.segments self)).
Proof.
  split; [| split].
  - intros self s l ds dl Hlt. unfold Writer.add_segment.
    apply Z.ltb_lt in Hlt. by rewrite Hlt.
  - intros self s l ds dl Hle Hex. unfold Writer.add_segment.
    apply Z.ltb_ge in Hle. rewrite Hle.
    unfold Writer._validate_segment_not_overlapping.
    destruct (validate_from_Raise (Writer.word_size self)
                (List.length (Writer.segments self)) s l 0%nat _ Hex)
      as (i & bs & be & nbs & nbe & ->).
    simpl. eauto 10.
  - apply writer_reachable_valid.
Qed.

Lemma C7_witness :
  3 < 5
  /\ Writer.add_segment Samples.writer2 10 3 0 5
     = Raise (FJWriteFjmException SegmentLengthBelowDataLength)
  /\ (exists i bit_start bit_end new_bit_start new_bit_end,
        Writer.add_segment Samples.writer2 5 3 0 0
        = Raise (FJWriteFjmException
                   (OverlappingSegments i bit_start bit_end 2 new_bit_start new_bit_end)))
  /\ writer_reachable Samples.writer2
  /\ pairwise_non_overlapping (Writer.segments Samples.writer2).
Proof.
  destruct C7_add_segment_keeps_segments_valid as (Hlen & Hover & Hinv).
  assert (Hr : writer_reachable Samples.writer2).
  { apply (reach_add_segment Samples.writer1 4 2 4 1); [| reflexivity].
    apply (reach_add_segment Samples.writer0 0 4 0 4); [| reflexivity].
    apply (reach_init "out.fjm" 8 0 0). reflexivity. }
  split; [lia |]. split; [apply Hlen; lia |].
  split.
  { apply (Hover Samples.writer2 5 3 0 0); [lia |].
    apply Exists_cons_tl, Exists_cons_hd. exists 5.
    unfold segment_start, segment_length. simpl. lia. }
  split; [exact Hr | exact (proj1 (Hinv _ Hr))].
Defined.

(** ** The standard device: output *)

Lemma nonneg_bits_above n x :
  0 <= n -> 0 <= x -> (forall k, n <= k -> Z.testbit x k = false) -> x < 2 ^ n.
Proof.
  intros Hn Hx Hhigh.
  assert (Heq : x = x mod 2 ^ n).
  { apply Z.bits_inj'. intros k Hk.
    destruct (Z.lt_ge_cases k n).
    - by rewrite Z.mod_pow2_bits_low.
    - rewrite Z.mod_pow2_bits_high by lia. by apply Hhigh. }
  rewrite Heq. apply Z.mod_pos_bound. by apply Z.pow_pos_nonneg.
Qed.

Lemma testbit_b2z_shiftl (b : bool) r k :
  0 <= r -> 0 <= k -> Z.testbit (Z.shiftl (Z.b2z b) r) k = (k =? r) && b.
Proof.
  intros Hr Hk. rewrite Z.shiftl_spec by done.
  destruct (Z.eqb_spec k r) as [-> | Hne]; simpl.
  - rewrite Z.sub_diag. by destruct b.
  - destruct (Z.lt_ge_cases k r).
    + by rewrite Z.testbit_neg_r by lia.
    + destruct b; simpl; [| apply Z.bits_0].
      change 1 with (Z.ones 1). by rewrite Z.ones_spec_high by lia.
Qed.

Lemma div_mod_succ n :
  0 <= n ->
  (n mod 8 < 7 /\ (n + 1) mod 8 = n mod 8 + 1 /\ (n + 1) / 8 = n / 8)
  \/ (n mod 8 = 7 /\ (n + 1) mod 8 = 0 /\ (n + 1) / 8 = n / 8 + 1).
Proof.
  intros Hn.
  pose proof (Z.div_mod n 8 ltac:(lia)) as Hdm.
  pose proof (Z.mod_pos_bound n 8 ltac:(lia)) as Hb.
  destruct (Z.lt_ge_cases (n mod 8) 7) as [Hlt | Hge]; [left | right].
  - split; [done |].
    assert (Hq : (n + 1) / 8 = n / 8) by (symmetry; apply (Z.div_unique _ _ _ (n mod 8 + 1)); lia).
    split; [| done]. symmetry. apply (Z.mod_unique _ _ (n / 8)); lia.
  - assert (H7 : n mod 8 = 7) by lia. split; [done |].
    assert (Hq : (n + 1) / 8 = n / 8 + 1) by (symmetry; apply (Z.div_unique _ _ _ 0); lia).
    split; [| done]. symmetry. apply (Z.mod_unique _ _ (n / 8 + 1)); lia.
Qed.

(** The pending byte after one more bit. *)
Lemma pending_byte_step bits (b : bool) cur k :
  let n := Z.of_nat (List.length bits) in
  (forall k, 0 <= k ->
     Z.testbit cur k = (k <? n mod 8) && nth (Z.to_nat (8 * (n / 8) + k)) bits false) ->
  0 <= k ->
  Z.testbit (Z.lor cur (Z.shiftl (Z.b2z b) (n mod 8))) k
  = (k <? n mod 8 + 1) && nth (Z.to_nat (8 * (n / 8) + k)) (bits ++ [b]) false.
Proof.
  intros n Hcur Hk.
  pose proof (Z.div_mod n 8 ltac:(lia)) as Hdm.
  pose proof (Z.mod_pos_bound n 8 ltac:(lia)) as Hb.
  rewrite Z.lor_spec, Hcur, testbit_b2z_shiftl by lia.
  destruct (Z.ltb_spec k (n mod 8)) as [Hlt | Hge].
  - destruct (Z.eqb_spec k (n mod 8)) as [-> | _]; [lia |].
    destruct (Z.ltb_spec k (n mod 8 + 1)); [| lia]. simpl.
    rewrite orb_false_r, app_nth1; [done |]. subst n. lia.
  - simpl. destruct (Z.eqb_spec k (n mod 8)) as [-> | Hne]; simpl.
    + destruct (Z.ltb_spec (n mod 8) (n mod 8 + 1)); [| lia]. simpl.
      replace (Z.to_nat (8 * (n / 8) + n mod 8)) with (List.length bits) by (subst n; lia).
      by rewrite nth_middle.
    + destruct (Z.ltb_spec k (n mod 8 + 1)); [lia | done].
Qed.

(** One [write_bit] on a device that holds the bits [bits] returns, and
    the device then holds [bits ++ [b]]. *)
Lemma write_bit_written bits b dev :
  written bits dev ->
  exists dev', StandardIO.write_bit dev b = Ok dev' /\ written (bits ++ [b]) dev'.
Proof.
  unfold written. rewrite length_app, Nat2Z.inj_add. simpl.
  set (n := Z.of_nat (List.length bits)).
  intros (Hbits & Hnonneg & Hcur & Hlen & Hout).
  pose proof (Z.mod_pos_bound n 8 ltac:(lia)) as Hb.
  pose proof (Z.div_mod n 8 ltac:(lia)) as Hdm.
  assert (Hq : 0 <= n / 8) by (apply Z.div_pos; subst n; lia).
  pose proof (fun k => pending_byte_step bits b _ k Hcur) as Hstep. fold n in Hstep.
  assert (Hnn : 0 <= Z.lor (StandardIO.current_output_byte dev) (Z.shiftl (Z.b2z b) (n mod 8))).
  { apply Z.lor_nonneg. split; [done |]. apply Z.shiftl_nonneg. by destruct b. }
  assert (Hold : forall j k, 0 <= j < n / 8 -> 0 <= k < 8 ->
            nth (Z.to_nat (8 * j + k)) (bits ++ [b]) false
            = nth (Z.to_nat (8 * j + k)) bits false).
  { intros j k Hj Hk. apply app_nth1. subst n. lia. }
  unfold StandardIO.write_bit. rewrite Hbits.
  change (Z.of_nat 1) with 1.
  destruct (div_mod_succ n ltac:(subst n; lia)) as [(Hr & Hm & Hd) | (Hr & Hm & Hd)];
    rewrite Hm, Hd.
  - destruct (Z.eqb_spec 8 (n mod 8 + 1)) as [| _]; [lia |].
    eexists. split; [reflexivity |]. simpl.
    split; [done |]. split; [done |]. split; [exact Hstep |]. split; [done |].
    intros j k Hj Hk. rewrite Hold by done. by apply Hout.
  - destruct (Z.eqb_spec 8 (n mod 8 + 1)) as [_ |]; [| lia].
    set (cur' := Z.lor _ _) in *.
    assert (Hlt : cur' < 2 ^ 8).
    { apply nonneg_bits_above; [lia | done |]. intros k Hk.
      rewrite Hstep by lia. destruct (Z.ltb_spec k (n mod 8 + 1)); [lia | done]. }
    unfold StandardIO.to_bytes_1.
    assert (Hrange : (0 <=? cur') && (cur' <? 256) = true).
    { apply andb_true_intro. split; [apply Z.leb_le | apply Z.ltb_lt]; lia. }
    rewrite Hrange.
    destruct (Byte.of_N (Z.to_N cur')) as [byte |] eqn:Hbyte.
    2:{ apply Byte.of_N_None_iff in Hbyte. lia. }
    apply Byte.to_of_N in Hbyte.
    eexists. split; [reflexivity |]. simpl.
    split; [done |]. split; [done |].
    split; [intros k Hk; rewrite Z.bits_0; destruct (Z.ltb_spec k 0); [lia | done] |].
    split; [rewrite length_app, Nat2Z.inj_add; simpl; lia |].
    intros j k Hj Hk.
    destruct (Z.lt_ge_cases j (n / 8)) as [Hjlt | Hjge].
    + rewrite app_nth1 by lia. rewrite Hold by lia. apply Hout; lia.
    + assert (Hjq : j = n / 8) by lia. subst j.
      replace (Z.to_nat (n / 8)) with (List.length (StandardIO._output dev)) by lia.
      rewrite nth_middle, Hbyte, Z2N.id by lia.
      rewrite Hstep by lia. destruct (Z.ltb_spec k (n mod 8 + 1)); [done | lia].
Qed.

Lemma init_written output_verbose stdin :
  written [] (StandardIO.__init__ output_verbose stdin).
Proof.
  unfold written. simpl. repeat split; try done.
  - intros k Hk. rewrite Z.bits_0. symmetry. apply andb_false_intro2.
    by destruct (Z.to_nat _).
  - intros j k Hj. change (Z.of_nat 0 / 8) with 0 in Hj. lia.
Qed.

Lemma write_bits_app dev bits1 bits2 :
  StandardIO.write_bits dev (bits1 ++ bits2)
  = (dev' ← StandardIO.write_bits dev bits1; StandardIO.write_bits dev' bits2).
Proof.
  revert dev. induction bits1 as [| b bits1 IH]; intros dev; simpl; [done |].
  destruct (StandardIO.write_bit dev b) as [dev' |]; simpl; [apply IH | done].
Qed.

(** Writing any sequence of bits to a new device returns. *)
Lemma write_bits_written output_verbose stdin bits :
  exists dev,
    StandardIO.write_bits (StandardIO.__init__ output_verbose stdin) bits = Ok dev
    /\ written bits dev.
Proof.
  induction bits as [| b bits IH] using rev_ind.
  - eexists. split; [reflexivity | apply init_written].
  - destruct IH as (dev & Hw & Hinv).
    destruct (write_bit_written bits b dev Hinv) as (dev' & Hb & Hinv').
    exists dev'. split; [| done].
    rewrite write_bits_app, Hw. simpl. by rewrite Hb.
Qed.

(** C8: [n] calls of [write_bit] on a new standard device all return; when
    [n] is a multiple of 8, [get_output] then returns [n / 8] bytes, bit [k]
    of byte [j] being the bit written by call [8j + k + 1]; when [n] is not
    a multiple of 8 it raises [IncompleteOutput]. *)
Theorem C8_output_bytes_lsb_first (output_verbose : bool) (stdin : list Z)
    (bits : list bool) :
  let n := Z.of_nat (List.length bits) in
  exists dev,
    StandardIO.write_bits (StandardIO.__init__ output_verbose stdin) bits = Ok dev
    /\ (n mod 8 = 0 ->
        exists out,
          StandardIO.get_output dev = Ok out
          /\ Z.of_nat (List.length out) = n / 8
          /\ forall j k, 0 <= j < n / 8 -> 0 <= k < 8 ->
               Z.testbit (Z.of_N (Byte.to_N (nth (Z.to_nat j) out x00))) k
               = nth (Z.to_nat (8 * j + k)) bits false)
    /\ (n mod 8 <> 0 -> StandardIO.get_output dev = Raise IncompleteOutput).
Proof.
  intros n.
  destruct (write_bits_written output_verbose stdin bits) as (dev & Hw & Hinv).
  exists dev. split; [done |].
  destruct Hinv as (Hbits & _ & _ & Hlen & Hout). fold n in Hbits, Hlen, Hout.
  unfold StandardIO.get_output. rewrite Hbits. split.
  - intros ->. simpl. eauto.
  - intros Hne. destruct (Z.eqb_spec 0 (n mod 8)); [lia | done].
Qed.

Lemma C8_witness :
  Z.of_nat (List.length [true; false; false; false; false; false; true; false]) mod 8 = 0
  /\ exists dev out,
       StandardIO.write_bits (StandardIO.__init__ false [])
         [true; false; false; false; false; false; true; false] = Ok dev
       /\ StandardIO.get_output dev = Ok out
       /\ Z.of_nat (List.length out) = 1.
Proof.
  split; [reflexivity |].
  destruct (C8_output_bytes_lsb_first false []
              [true; false; false; false; false; false; true; false])
    as (dev & Hw & Hfull & _).
  destruct (Hfull eq_refl) as (out & Hout & Hlen & _).
  exists dev, out. split; [exact Hw |]. split; [exact Hout | exact Hlen].
Defined.

(** The byte 0x41 is written bit 0 first; seven bits are an incomplete
    output. *)
Example output_byte_A :
  (dev ← StandardIO.write_bits (StandardIO.__init__ false [])
           [true; false; false; false; false; false; true; false];
   StandardIO.get_output dev) = Ok [x41]
  /\ (dev ← StandardIO.write_bits (StandardIO.__init__ false [])
             [true; false; false; false; false; false; true];
      StandardIO.get_output dev) = Raise IncompleteOutput.
Proof. split; vm_compute; reflexivity. Qed.

(** ** The parser: expression rules *)

Section ExprRuleFacts.

Variable guarded : string -> list Expr -> result Expr.

(** No operand value is the class object [int]. *)
Lemma is_int_false a : FJParser.is_int a = false.
Proof. reflexivity. Qed.

(** Every rule of an operator builds a residual node, whatever its
    operands are. *)
Lemma expr_rules_residual :
  (forall o a b lineno,
      FJParser._expr_binary guarded o a b lineno
      = Ok (Expr_op (symbol o) [fst a; fst b], lineno))
  /\ (forall a lineno,
        FJParser._expr_bit_length guarded a lineno = Ok (Expr_op "#" [fst a], lineno))
  /\ (forall a b c lineno,
        FJParser._expr_cond guarded a b c lineno
        = Ok (Expr_op "?:" [fst a; fst b; fst c], lineno)).
Proof. repeat split. Qed.

(** C3, on the code: with integer constants as operands, as the rules
    [NUMBER] and [STRING] produce them, the rule of every binary operator,
    of ['#'] and of ['?:'] returns a residual node over the constants and
    not an integer leaf; so [1 + 2] is parsed to the node of ['+'] over 1
    and 2, not to 3. *)
Theorem C3_integer_operands_not_folded (x y z lineno : Z) :
  (forall o,
      FJParser._expr_binary guarded o (FJParser._expr_NUMBER x lineno)
                            (FJParser._expr_NUMBER y lineno) lineno
      = Ok (Expr_op (symbol o) [Expr_int x; Expr_int y], lineno))
  /\ FJParser._expr_bit_length guarded (FJParser._expr_NUMBER x lineno) lineno
     = Ok (Expr_op "#" [Expr_int x], lineno)
  /\ FJParser._expr_cond guarded (FJParser._expr_NUMBER x lineno)
                         (FJParser._expr_NUMBER y lineno)
                         (FJParser._expr_NUMBER z lineno) lineno
     = Ok (Expr_op "?:" [Expr_int x; Expr_int y; Expr_int z], lineno)
  /\ (forall o n,
        FJParser._expr_binary guarded o (FJParser._expr_NUMBER x lineno)
                              (FJParser._expr_NUMBER y lineno) lineno
        <> Ok (Expr_int n, lineno))
  /\ FJParser._expr_binary guarded op_add (FJParser._expr_NUMBER 1 lineno)
                           (FJParser._expr_NUMBER 2 lineno) lineno
     = Ok (Expr_op "+" [Expr_int 1; Expr_int 2], lineno).
Proof.
  destruct expr_rules_residual as (Hb & Hu & Hc).
  split; [intros o; apply Hb |]. split; [apply Hu |]. split; [apply Hc |].
  split; [| apply Hb].
  intros o n. rewrite Hb. discriminate.
Qed.

End ExprRuleFacts.

(** ** The parser: dot-identifiers *)

Lemma lstrip_dots_dots d name :
  FJParser.lstrip_dots name = name ->
  FJParser.lstrip_dots (dots d +:+ name) = name.
Proof. intros Hn. induction d as [| d IH]; simpl; done. Qed.

Lemma length_dots_app d name :
  String.length (dots d +:+ name) = (d + String.length name)%nat.
Proof. induction d as [| d IH]; simpl; [done | by rewrite IH]. Qed.

(** C9, as the code has it: a dot-identifier of [d >= 1] dots and a name,
    used under a namespace stack of depth [n], flags a syntax error exactly
    when [d - 1 > n]; when it does not, it resolves to the namespace without
    its last [d - 1] segments, followed by the name: one dot is the current
    namespace, and every further dot peels one segment. *)
Theorem C9_dot_id_resolution (g : FJParser.globals) (d : nat) (name : string) :
  (1 <= d)%nat ->
  FJParser.lstrip_dots name = name ->
  let ns := FJParser.curr_namespace g in
  let n := List.length ns in
  let resolved := FJParser.dot_id_to_ns_full_name g (dots d +:+ name) in
  snd resolved = (if (n <? d - 1)%nat then FJParser.syntax_error g else g)
  /\ ((d - 1 <= n)%nat ->
      fst resolved = String.concat "." (firstn (n - (d - 1)) ns ++ [name])
      /\ snd resolved = g)
  /\ ((n < d - 1)%nat -> FJParser.error_occurred (snd resolved) = true).
Proof.
  intros Hd Hname ns n resolved.
  assert (Hres : resolved
                 = (String.concat "."
                      (FJParser.slice_to ns (Z.of_nat n - (Z.of_nat d - 1)) ++ [name]),
                    if (n <? d - 1)%nat then FJParser.syntax_error g else g)).
  { unfold resolved, FJParser.dot_id_to_ns_full_name.
    rewrite lstrip_dots_dots, length_dots_app by done.
    destruct (Nat.eqb_spec (String.length name) (d + String.length name)) as [Heq | _];
      [lia |].
    fold ns n.
    replace (Z.of_nat (d + String.length name) - Z.of_nat (String.length name))
      with (Z.of_nat d) by lia.
    f_equal.
    destruct (Nat.ltb_spec n (d - 1)), (Z.gtb_spec (Z.of_nat d - 1) (Z.of_nat n));
      try done; lia. }
  rewrite Hres. simpl. split; [done |]. split.
  - intros Hle. destruct (Nat.ltb_spec n (d - 1)); [lia |].
    split; [| done]. do 2 f_equal. unfold FJParser.slice_to.
    destruct (Z.ltb_spec (Z.of_nat n - (Z.of_nat d - 1)) 0); [lia |].
    f_equal. lia.
  - intros Hlt. destruct (Nat.ltb_spec n (d - 1)); [done | lia].
Qed.

Lemma C9_witness :
  (1 <= 2)%nat /\ FJParser.lstrip_dots "c" = "c"
  /\ FJParser.dot_id_to_ns_full_name (FJParser.mkGlobals ["a"; "b"] false) "..c"
     = ("a.c", FJParser.mkGlobals ["a"; "b"] false).
Proof.
  split; [lia |]. split; [reflexivity |].
  destruct (C9_dot_id_resolution (FJParser.mkGlobals ["a"; "b"] false) 2 "c")
    as (_ & Hok & _); [lia | reflexivity |].
  destruct Hok as [Hname Hg]; [simpl; lia |].
  apply injective_projections; [exact Hname | exact Hg].
Defined.

(** Inside namespace [a.b] the identifier [.c] is [a.b.c], not [a.c]; and
    [...c], with three dots under a stack of depth two, resolves to [c]
    without an error. *)
Lemma C9_counterexample :
  FJParser.dot_id_to_ns_full_name (FJParser.mkGlobals ["a"; "b"] false) ".c"
  = ("a.b.c", FJParser.mkGlobals ["a"; "b"] false)
  /\ fst (FJParser.dot_id_to_ns_full_name (FJParser.mkGlobals ["a"; "b"] false) ".c")
     <> "a.c"
  /\ (3 > List.length ["a"; "b"])%nat
  /\ FJParser.dot_id_to_ns_full_name (FJParser.mkGlobals ["a"; "b"] false) "...c"
     = ("c", FJParser.mkGlobals ["a"; "b"] false).
Proof.
  split; [reflexivity |]. split; [vm_compute; discriminate |].
  split; [simpl; lia | reflexivity].
Qed.


(* ================================================================== *)
(** * Further properties of the image format *)

(** ** struct: packing and unpacking *)

Lemma byte_of_Z_value n : 0 <= n < 256 -> Z.of_N (Byte.to_N (byte_of_Z n)) = n.
Proof.
  intros Hn. unfold byte_of_Z.
  destruct (Byte.of_N (Z.to_N n)) as [b |] eqn:Hb.
  - apply Byte.to_of_N in Hb. rewrite Hb. lia.
  - apply Byte.of_N_None_iff in Hb. lia.
Qed.

Lemma byte_of_Z_to_N b : byte_of_Z (Z.of_N (Byte.to_N b)) = b.
Proof. unfold byte_of_Z. by rewrite N2Z.id, Byte.of_to_N. Qed.

Lemma byte_value_range b : 0 <= Z.of_N (Byte.to_N b) < 256.
Proof. pose proof (Byte.to_N_bounded b). lia. Qed.

Lemma length_le_bytes n v : List.length (le_bytes n v) = n.
Proof. revert v. induction n as [| n IH]; intros v; simpl; [done | by rewrite IH]. Qed.

Lemma le_uint_le_bytes n v : le_uint (le_bytes n v) = v mod 256 ^ Z.of_nat n.
Proof.
  revert v. induction n as [| n IH]; intros v.
  - simpl. by rewrite Z.mod_1_r.
  - cbn [le_bytes le_uint]. rewrite IH, byte_of_Z_value by (apply Z.mod_pos_bound; lia).
    rewrite Nat2Z.inj_succ, Z.pow_succ_r by lia.
    rewrite (Z.rem_mul_r v 256 (256 ^ Z.of_nat n)) by lia. done.
Qed.

Lemma le_uint_range bs : 0 <= le_uint bs < 256 ^ Z.of_nat (List.length bs).
Proof.
  induction bs as [| b bs IH].
  - simpl. lia.
  - cbn [le_uint List.length]. rewrite Nat2Z.inj_succ, Z.pow_succ_r by lia.
    pose proof (byte_value_range b). lia.
Qed.

Lemma le_bytes_le_uint bs : le_bytes (List.length bs) (le_uint bs) = bs.
Proof.
  induction bs as [| b bs IH]; [done |].
  cbn [le_uint List.length le_bytes].
  pose proof (byte_value_range b) as Hb.
  replace (Z.of_N (Byte.to_N b) + 256 * le_uint bs)
    with (Z.of_N (Byte.to_N b) + le_uint bs * 256) by lia.
  rewrite Z.mod_add, Z.div_add by lia.
  rewrite Z.mod_small, Z.div_small, Z.add_0_l by done.
  by rewrite byte_of_Z_to_N, IH.
Qed.

Lemma pack_field_Ok c v :
  fits c v -> pack_field c v = Ok (le_bytes (fmt_size c) v).
Proof.
  intros [H0 H1]. unfold pack_field.
  destruct (Z.leb_spec 0 v); [| lia]. destruct (Z.ltb_spec v (256 ^ Z.of_nat (fmt_size c))); [done | lia].
Qed.

Lemma pack_field_inv c v bs :
  pack_field c v = Ok bs -> fits c v /\ bs = le_bytes (fmt_size c) v.
Proof.
  unfold pack_field, fits.
  destruct (Z.leb_spec 0 v); simpl; [| done].
  destruct (Z.ltb_spec v (256 ^ Z.of_nat (fmt_size c))); [| done].
  intros [= <-]. done.
Qed.

Lemma pack_field_Raise c v e : pack_field c v = Raise e -> e = struct_error /\ ~ fits c v.
Proof.
  unfold pack_field, fits.
  destruct (Z.leb_spec 0 v); simpl.
  - destruct (Z.ltb_spec v (256 ^ Z.of_nat (fmt_size c))); [done |].
    intros [= <-]. split; [done | lia].
  - intros [= <-]. split; [done | lia].
Qed.

Lemma unpack_fields_app c fmt v bs :
  fits c v ->
  unpack_fields (c :: fmt) (le_bytes (fmt_size c) v ++ bs) = v :: unpack_fields fmt bs.
Proof.
  intros Hv. cbn [unpack_fields].
  rewrite firstn_app, skipn_app, length_le_bytes, Nat.sub_diag.
  rewrite firstn_all2, skipn_all2 by (rewrite length_le_bytes; lia).
  simpl. rewrite app_nil_r, le_uint_le_bytes.
  f_equal. apply Z.mod_small. apply Hv.
Qed.

Lemma pack_inv fmt vals bs :
  pack fmt vals = Ok bs ->
  Forall2 fits fmt vals
  /\ List.length bs = calcsize fmt
  /\ unpack_fields fmt bs = vals.
Proof.
  revert vals bs. induction fmt as [| c fmt IH]; intros [| v vals] bs; simpl; try done.
  - intros [= <-]. repeat split. constructor.
  - destruct (pack_field c v) as [b1 |] eqn:Hf; simpl; [| done].
    destruct (pack fmt vals) as [b2 |] eqn:Hp; simpl; [| done].
    intros [= <-]. apply pack_field_inv in Hf as [Hv ->].
    destruct (IH _ _ Hp) as (Hall & Hlen & Hun).
    split; [by constructor |]. split.
    + by rewrite length_app, length_le_bytes, Hlen.
    + pose proof (unpack_fields_app c fmt v b2 Hv) as Hu. cbn [unpack_fields] in Hu.
      rewrite Hu. by rewrite Hun.
Qed.

Lemma pack_Forall2 fmt vals :
  Forall2 fits fmt vals -> exists bs, pack fmt vals = Ok bs.
Proof.
  induction 1 as [| c v fmt vals Hv _ [bs IH]]; simpl; [eauto |].
  rewrite (pack_field_Ok c v Hv). simpl. rewrite IH. simpl. eauto.
Qed.

Lemma pack_Raise fmt vals e :
  pack fmt vals = Raise e -> e = struct_error /\ ~ Forall2 fits fmt vals.
Proof.
  revert vals e. induction fmt as [| c fmt IH]; intros [| v vals] e; simpl; try done.
  - intros [= <-]. split; [done |]. by inversion 1.
  - intros [= <-]. split; [done |]. by inversion 1.
  - destruct (pack_field c v) as [b1 |] eqn:Hf; simpl.
    + destruct (pack fmt vals) as [b2 |] eqn:Hp; simpl; [done |].
      intros [= <-]. destruct (IH _ _ Hp) as [-> Hn].
      split; [done |]. inversion 1; subst. by apply Hn.
    + intros [= <-]. apply pack_field_Raise in Hf as [-> Hn].
      split; [done |]. inversion 1; subst. by apply Hn.
Qed.

Lemma unpack_fields_pack fmt bs :
  List.length bs = calcsize fmt -> pack fmt (unpack_fields fmt bs) = Ok bs.
Proof.
  revert bs. induction fmt as [| c fmt IH]; intros bs Hlen; simpl in *.
  - by destruct bs.
  - assert (Hfirst : List.length (firstn (fmt_size c) bs) = fmt_size c)
      by (rewrite length_firstn; lia).
    pose proof (le_uint_range (firstn (fmt_size c) bs)) as Hrange.
    pose proof (le_bytes_le_uint (firstn (fmt_size c) bs)) as Hbytes.
    rewrite Hfirst in Hrange, Hbytes.
    rewrite pack_field_Ok by done.
    simpl. rewrite IH by (rewrite length_skipn; lia). simpl.
    by rewrite Hbytes, firstn_skipn.
Qed.

(** [pack] and [unpack] are inverse to each other: [pack] returns exactly
    when every value fits its field and there are as many values as fields,
    it raises [struct.error] otherwise, its result has the size of the
    format and unpacks to the values; and a buffer that unpacks is the
    packing of its values. *)
Theorem struct_pack_unpack_inverse (fmt : list fmt_char) :
  (forall vals,
      Forall2 fits fmt vals ->
      exists bs, pack fmt vals = Ok bs
                 /\ List.length bs = calcsize fmt
                 /\ unpack fmt bs = Ok vals)
  /\ (forall vals, ~ Forall2 fits fmt vals -> pack fmt vals = Raise struct_error)
  /\ (forall bs vals,
        unpack fmt bs = Ok vals -> pack fmt vals = Ok bs /\ Forall2 fits fmt vals).
Proof.
  split; [| split].
  - intros vals Hall. destruct (pack_Forall2 _ _ Hall) as [bs Hp].
    destruct (pack_inv _ _ _ Hp) as (_ & Hlen & Hun).
    exists bs. split; [done |]. split; [done |].
    unfold unpack. rewrite Hlen, Nat.eqb_refl. by rewrite Hun.
  - intros vals Hn. destruct (pack fmt vals) as [bs | e] eqn:Hp.
    + destruct (pack_inv _ _ _ Hp) as (Hall & _). done.
    + by destruct (pack_Raise _ _ _ Hp) as [-> _].
  - intros bs vals. unfold unpack.
    destruct (Nat.eqb_spec (List.length bs) (calcsize fmt)) as [Hlen | _]; [| done].
    intros [= <-]. pose proof (unpack_fields_pack fmt bs Hlen) as Hp.
    split; [done |]. by destruct (pack_inv _ _ _ Hp).
Qed.

Lemma struct_pack_unpack_inverse_witness :
  Forall2 fits header_base_format [fj_magic; 8; 0; 1]
  /\ exists bs, pack header_base_format [fj_magic; 8; 0; 1] = Ok bs
                /\ unpack header_base_format bs = Ok [fj_magic; 8; 0; 1].
Proof.
  assert (Hfits : Forall2 fits header_base_format [fj_magic; 8; 0; 1]).
  { repeat constructor; vm_compute; discriminate. }
  split; [exact Hfits |].
  destruct (proj1 (struct_pack_unpack_inverse header_base_format) _ Hfits)
    as (bs & Hp & _ & Hu).
  exists bs. split; [exact Hp | exact Hu].
Defined.

(** ** Writing an image and loading it *)

Lemma file_read_app (bs rest : list byte) n :
  Z.to_nat n = List.length bs -> file_read n (bs ++ rest) = (bs, rest).
Proof.
  intros Hn. unfold file_read. rewrite Hn.
  rewrite firstn_app, skipn_app, Nat.sub_diag, firstn_all, skipn_all. simpl.
  by rewrite app_nil_r.
Qed.

Lemma pack_unpack_Ok fmt vals bs :
  pack fmt vals = Ok bs -> unpack fmt bs = Ok vals /\ List.length bs = calcsize fmt.
Proof.
  intros Hp. destruct (pack_inv _ _ _ Hp) as (_ & Hlen & Hun).
  split; [| done]. unfold unpack. by rewrite Hlen, Nat.eqb_refl, Hun.
Qed.

Lemma read_segments_write_segments segs bs rest :
  Writer.write_segments segs = Ok bs ->
  Reader.read_segments (List.length segs) (bs ++ rest) = Ok (segs, rest).
Proof.
  revert bs. induction segs as [| [[[ss sl] ds] dl] segs IH]; intros bs;
    cbn [Writer.write_segments Reader.read_segments List.length].
  - by intros [= <-].
  - destruct (pack segment_format [ss; sl; ds; dl]) as [b1 |] eqn:Hp; [| done].
    destruct (Writer.write_segments segs) as [b2 |] eqn:Hw; [| done].
    cbn [mbind result_bind mret result_ret]. intros [= <-].
    destruct (pack_unpack_Ok _ _ _ Hp) as [Hu Hlen].
    rewrite <- app_assoc.
    rewrite (file_read_app b1 (b2 ++ rest)) by (rewrite Hlen; reflexivity).
    rewrite Hu. cbn [mbind result_bind mret result_ret].
    rewrite (IH b2 eq_refl). done.
Qed.

Lemma unpack_words_step fuel tag n file_data :
  file_data <> [] ->
  Reader.unpack_words (S fuel) tag n file_data
  = (fields ← unpack [tag] (firstn n file_data);
     match fields with
     | word :: _ =>
         words ← Reader.unpack_words fuel tag n (skipn n file_data);
         mret (word :: words)
     | [] => Raise IndexError
     end).
Proof. by destruct file_data. Qed.

Lemma unpack_words_write_words tag words bs fuel :
  Writer.write_words tag words = Ok bs ->
  (List.length bs <= fuel)%nat ->
  Reader.unpack_words fuel tag (fmt_size tag) bs = Ok words.
Proof.
  revert bs fuel. induction words as [| word words IH]; intros bs fuel;
    cbn [Writer.write_words pack].
  - intros [= <-] _. by destruct fuel.
  - destruct (pack_field tag word) as [b0 |] eqn:Hf; [| done].
    cbn [mbind result_bind mret result_ret].
    destruct (Writer.write_words tag words) as [b2 |] eqn:Hw; [| done].
    cbn [mbind result_bind mret result_ret]. rewrite app_nil_r. intros [= <-] Hfuel.
    apply pack_field_inv in Hf as [Hfit ->].
    assert (Hsize : (0 < fmt_size tag)%nat) by (destruct tag; simpl; lia).
    rewrite length_app, length_le_bytes in Hfuel.
    destruct fuel as [| fuel]; [lia |].
    rewrite unpack_words_step.
    2:{ intros Hnil. apply (f_equal (@List.length byte)) in Hnil.
        rewrite length_app, length_le_bytes in Hnil. simpl in Hnil. lia. }
    rewrite firstn_app, skipn_app, length_le_bytes, Nat.sub_diag.
    rewrite firstn_all2, skipn_all2 by (rewrite length_le_bytes; lia).
    simpl firstn. simpl skipn. rewrite app_nil_r, app_nil_l.
    unfold unpack. simpl calcsize. rewrite length_le_bytes, Nat.add_0_r, Nat.eqb_refl.
    cbn [unpack_fields]. rewrite firstn_all2 by (rewrite length_le_bytes; lia).
    rewrite le_uint_le_bytes, Z.mod_small by apply Hfit.
    cbn [mbind result_bind mret result_ret]. change (drop 0 b2) with b2.
    rewrite (IH b2 fuel eq_refl) by lia. done.
Qed.

Lemma write_tag_size word_size tag :
  Writer.write_tag word_size = Ok tag ->
  Reader.read_tag word_size = Ok tag
  /\ Z.to_nat (word_size / 8) = fmt_size tag
  /\ supported_word_size word_size.
Proof.
  unfold Writer.write_tag, Reader.read_tag, supported_word_size.
  destruct (Z.eqb_spec word_size 8) as [-> | _];
    [intros [= <-]; repeat split; lia |].
  destruct (Z.eqb_spec word_size 16) as [-> | _];
    [intros [= <-]; repeat split; lia |].
  destruct (Z.eqb_spec word_size 32) as [-> | _];
    [intros [= <-]; repeat split; lia |].
  destruct (Z.eqb_spec word_size 64) as [-> | _];
    [intros [= <-]; repeat split; lia | done].
Qed.

(** What the loader reads back from a written file: the header fields of
    the Writer, its segment table and its data words. *)
Lemma write_to_file_parsed self file garbage_handling :
  Writer.write_to_file self = Ok file ->
  exists hdr rest1 rest2,
    Reader._init_header_fields garbage_handling file = Ok (hdr, rest1)
    /\ Reader.garbage_handling hdr = garbage_handling
    /\ Reader.magic hdr = fj_magic
    /\ Reader.w hdr = Writer.word_size self
    /\ Reader.version hdr = Writer.version self
    /\ Reader.segment_num hdr = Z.of_nat (List.length (Writer.segments self))
    /\ Reader.flags hdr = (if Writer.version self =? 0 then 0 else Writer.flags self)
    /\ Reader.reserved hdr = (if Writer.version self =? 0 then 0 else Writer.reserved self)
    /\ Reader._init_segments hdr rest1 = Ok (Writer.segments self, rest2)
    /\ Reader._read_data hdr rest2 = Ok (Writer.data self).
Proof.
  unfold Writer.write_to_file.
  destruct (Writer.write_tag (Writer.word_size self)) as [tag |] eqn:Htag; [| done].
  destruct (write_tag_size _ _ Htag) as (Hrt & Hsz & _).
  cbn [mbind result_bind mret result_ret].
  destruct (pack header_base_format
              [fj_magic; Writer.word_size self; Writer.version self;
               Z.of_nat (List.length (Writer.segments self))]) as [b1 |] eqn:Hp1; [| done].
  cbn [mbind result_bind mret result_ret].
  destruct (if Writer.version self >? 0
            then pack header_extension_format [Writer.flags self; Writer.reserved self]
            else Ok []) as [b2 |] eqn:Hp2; [| done].
  cbn [mbind result_bind mret result_ret].
  destruct (Writer.write_segments (Writer.segments self)) as [b3 |] eqn:Hp3; [| done].
  cbn [mbind result_bind mret result_ret].
  destruct (Writer.write_words tag (Writer.data self)) as [b4 |] eqn:Hp4; [| done].
  cbn [mbind result_bind mret result_ret].
  intros [= <-].
  destruct (pack_unpack_Ok _ _ _ Hp1) as [Hu1 Hl1].
  destruct (pack_inv _ _ _ Hp1) as (Hfit1 & _).
  assert (Hver : 0 <= Writer.version self).
  { inversion Hfit1 as [| ? ? ? ? _ Hf2]; subst. inversion Hf2 as [| ? ? ? ? _ Hf3]; subst.
    inversion Hf3 as [| ? ? ? ? Hv _]; subst. apply Hv. }
  assert (Htail : Reader.read_segments (List.length (Writer.segments self)) (b3 ++ b4)
                  = Ok (Writer.segments self, b4))
    by (by apply read_segments_write_segments).
  assert (Hwords : Reader.unpack_words (List.length b4) tag (fmt_size tag) b4
                   = Ok (Writer.data self))
    by (by apply unpack_words_write_words).
  unfold Reader._init_header_fields.
  rewrite (file_read_app b1) by (rewrite Hl1; reflexivity).
  rewrite Hu1. cbn [mbind result_bind mret result_ret].
  destruct (Z.eqb_spec (Writer.version self) 0) as [H0 | Hn0].
  - destruct (Z.gtb_spec (Writer.version self) 0); [lia |].
    injection Hp2 as <-. rewrite app_nil_l.
    eexists _, _, _. split; [reflexivity |].
    cbn [Reader.garbage_handling Reader.magic Reader.w Reader.version Reader.segment_num
         Reader.flags Reader.reserved].
    repeat (split; [done |]).
    unfold Reader._init_segments, Reader._read_data.
    cbn [Reader.segment_num Reader.w].
    rewrite Nat2Z.id, Htail.
    split; [done |]. rewrite Hrt. cbn [mbind result_bind mret result_ret]. by rewrite Hsz.
  - destruct (Z.gtb_spec (Writer.version self) 0); [| lia].
    destruct (pack_unpack_Ok _ _ _ Hp2) as [Hu2 Hl2].
    rewrite (file_read_app b2) by (rewrite Hl2; reflexivity).
    rewrite Hu2. cbn [mbind result_bind mret result_ret].
    eexists _, _, _. split; [reflexivity |].
    cbn [Reader.garbage_handling Reader.magic Reader.w Reader.version Reader.segment_num
         Reader.flags Reader.reserved].
    repeat (split; [done |]).
    unfold Reader._init_segments, Reader._read_data.
    cbn [Reader.segment_num Reader.w].
    rewrite Nat2Z.id, Htail.
    split; [done |]. rewrite Hrt. cbn [mbind result_bind mret result_ret]. by rewrite Hsz.
Qed.

(** ** Loading: the memory of a segment table *)

Lemma copy_data_Ok count i ss ds data m :
  0 <= ds + i ->
  count = 0%nat \/ ds + i + Z.of_nat count <= Z.of_nat (List.length data) ->
  exists m',
    Reader.copy_data count i ss ds data m = Ok m'
    /\ forall a,
         m' !! a = if (ss + i <=? a) && (a <? ss + i + Z.of_nat count)
                   then data !! Z.to_nat (ds + (a - ss)) else m !! a.
Proof.
  revert i m. induction count as [| count IH]; intros i m Hnn Hfit.
  - eexists. split; [reflexivity |]. intros a.
    destruct (Z.leb_spec (ss + i) a), (Z.ltb_spec a (ss + i + Z.of_nat 0)); simpl; try done; lia.
  - cbn [Reader.copy_data].
    destruct (data !! Z.to_nat (ds + i)) as [word |] eqn:Hword.
    2:{ apply lookup_ge_None in Hword. lia. }
    destruct (IH (i + 1) (<[ss + i := word]> m)) as (m' & Hm' & Hlook); [lia | lia |].
    exists m'. split; [done |]. intros a. rewrite Hlook.
    destruct (decide (a = ss + i)) as [-> | Hne].
    + replace (ds + (ss + i - ss)) with (ds + i) by lia.
      rewrite lookup_insert_eq, Hword.
      destruct (Z.leb_spec (ss + (i + 1)) (ss + i)); [lia |]. simpl.
      destruct (Z.leb_spec (ss + i) (ss + i)); [| lia].
      destruct (Z.ltb_spec (ss + i) (ss + i + Z.of_nat (S count))); [done | lia].
    + rewrite lookup_insert_ne by done.
      destruct (Z.leb_spec (ss + (i + 1)) a), (Z.leb_spec (ss + i) a),
               (Z.ltb_spec a (ss + (i + 1) + Z.of_nat count)),
               (Z.ltb_spec a (ss + i + Z.of_nat (S count))); simpl; try done; lia.
Qed.

Lemma copy_data_Raise count i ss ds data m :
  0 <= ds + i ->
  (0 < count)%nat ->
  Z.of_nat (List.length data) < ds + i + Z.of_nat count ->
  Reader.copy_data count i ss ds data m = Raise IndexError.
Proof.
  revert i m. induction count as [| count IH]; intros i m Hnn Hpos Hout; [lia |].
  cbn [Reader.copy_data].
  destruct (data !! Z.to_nat (ds + i)) as [word |] eqn:Hword; [| done].
  apply lookup_lt_Some in Hword. apply IH; lia.
Qed.

Lemma fill_zeros_lookup count i ss m a :
  Reader.fill_zeros count i ss m !! a
  = if (ss + i <=? a) && (a <? ss + i + Z.of_nat count) then Some 0 else m !! a.
Proof.
  revert i m. induction count as [| count IH]; intros i m.
  - simpl.
    destruct (Z.leb_spec (ss + i) a), (Z.ltb_spec a (ss + i + Z.of_nat 0)); simpl; try done; lia.
  - cbn [Reader.fill_zeros]. rewrite IH.
    destruct (decide (a = ss + i)) as [-> | Hne].
    + rewrite lookup_insert_eq.
      destruct (Z.leb_spec (ss + (i + 1)) (ss + i)); [lia |]. simpl.
      destruct (Z.leb_spec (ss + i) (ss + i)); [| lia].
      destruct (Z.ltb_spec (ss + i) (ss + i + Z.of_nat (S count))); [done | lia].
    + rewrite lookup_insert_ne by done.
      destruct (Z.leb_spec (ss + (i + 1)) a), (Z.leb_spec (ss + i) a),
               (Z.ltb_spec a (ss + (i + 1) + Z.of_nat count)),
               (Z.ltb_spec a (ss + i + Z.of_nat (S count))); simpl; try done; lia.
Qed.

Lemma word_view_view_of r a :
  word_view r a = view_of (Reader.memory r) (Reader.zeros_boundaries r) a.
Proof. reflexivity. Qed.

Lemma existsb_zero_ranges_snoc (zeros : list (Z * Z)) lo hi a :
  existsb (fun se => (fst se <=? a) && (a <? snd se)) (zeros ++ [(lo, hi)])
  = existsb (fun se => (fst se <=? a) && (a <? snd se)) zeros
    || ((lo <=? a) && (a <? hi)).
Proof. rewrite existsb_app. simpl. by rewrite orb_false_r. Qed.

(** One segment of the loop of [_init_memory], on a memory that shows
    nothing in the range of the segment. *)
Lemma init_segment_view ss sl ds dl data m zeros :
  0 <= ds -> 0 <= dl <= sl ->
  dl <= 0 \/ ds + dl <= Z.of_nat (List.length data) ->
  (forall a, ss <= a < ss + sl -> view_of m zeros a = None) ->
  exists m1 zeros1,
    (forall segs,
        Reader.init_segments_memory ((ss, sl, ds, dl) :: segs) data m zeros
        = Reader.init_segments_memory segs data m1 zeros1)
    /\ forall a,
         view_of m1 zeros1 a
         = if (ss <=? a) && (a <? ss + sl) then image [(ss, sl, ds, dl)] data a
           else view_of m zeros a.
Proof.
  intros Hds Hdl Hfit Hfree.
  destruct (copy_data_Ok (Z.to_nat dl) 0 ss ds data m) as (mc & Hcopy & Hmc); [lia | lia |].
  rewrite Z2Nat.id in Hmc by lia. rewrite Z.add_0_r in Hmc.
  assert (Hdata : forall a, ss <= a < ss + dl ->
            exists v, data !! Z.to_nat (ds + (a - ss)) = Some v).
  { intros a Ha. apply lookup_lt_is_Some. lia. }
  assert (Himage : forall a,
            image [(ss, sl, ds, dl)] data a
            = if (ss <=? a) && (a <? ss + dl) then data !! Z.to_nat (ds + (a - ss))
              else if (ss + dl <=? a) && (a <? ss + sl) then Some 0 else None).
  { intros a. reflexivity. }
  destruct (Z.gtb_spec sl dl) as [Hgt | Hle].
  - destruct (Z.ltb_spec (sl - dl) reserved_dict_threshold) as [Hsmall | Hbig].
    + exists (Reader.fill_zeros (Z.to_nat (sl - dl)) dl ss mc), zeros. split.
      * intros segs. cbn [Reader.init_segments_memory]. rewrite Hcopy.
        cbn [mbind result_bind].
        destruct (Z.gtb_spec sl dl); [| lia].
        destruct (Z.ltb_spec (sl - dl) reserved_dict_threshold); [done | lia].
      * intros a. rewrite Himage. unfold view_of.
        rewrite fill_zeros_lookup, Hmc, Z2Nat.id by lia.
        destruct (Z.leb_spec ss a), (Z.ltb_spec a (ss + dl)), (Z.leb_spec (ss + dl) a),
                 (Z.ltb_spec a (ss + dl + (sl - dl))), (Z.ltb_spec a (ss + sl));
          simpl; try lia; try done.
        destruct (Hdata a ltac:(lia)) as [v ->]. done.
    + exists mc, (zeros ++ [(ss + dl, ss + sl)]). split.
      * intros segs. cbn [Reader.init_segments_memory]. rewrite Hcopy.
        cbn [mbind result_bind].
        destruct (Z.gtb_spec sl dl); [| lia].
        destruct (Z.ltb_spec (sl - dl) reserved_dict_threshold); [lia | done].
      * intros a. rewrite Himage. unfold view_of.
        rewrite existsb_zero_ranges_snoc, Hmc.
        destruct (Z.leb_spec ss a), (Z.ltb_spec a (ss + dl)), (Z.leb_spec (ss + dl) a),
                 (Z.ltb_spec a (ss + sl));
          simpl; try lia; try (by rewrite orb_false_r).
        -- destruct (Hdata a ltac:(lia)) as [v ->]. done.
        -- pose proof (Hfree a ltac:(lia)) as Hnone. unfold view_of in Hnone.
           destruct (m !! a); [done |]. by rewrite orb_true_r.
  - assert (sl = dl) by lia. subst sl.
    exists mc, zeros. split.
    + intros segs. cbn [Reader.init_segments_memory]. rewrite Hcopy.
      cbn [mbind result_bind].
      destruct (Z.gtb_spec dl dl); [lia | done].
    + intros a. rewrite Himage. unfold view_of. rewrite Hmc.
      destruct (Z.leb_spec ss a), (Z.ltb_spec a (ss + dl)), (Z.leb_spec (ss + dl) a);
        simpl; try lia; try done.
      destruct (Hdata a ltac:(lia)) as [v ->]. done.
Qed.

Lemma segments_valid_cons seg segs :
  segments_valid (seg :: segs) ->
  data_length seg <= segment_length seg
  /\ segments_valid segs
  /\ forall seg' a, seg' ∈ segs -> in_segment seg a -> ~ in_segment seg' a.
Proof.
  intros [Hpair Hdata]. inversion Hdata as [| ? ? Hseg Hrest]; subst.
  split; [done |]. split; [split; [| done] |].
  - intros i j s1 s2 Hij H1 H2. apply (Hpair (S i) (S j)); [lia | done | done].
  - intros seg' a Hin Ha Ha'. apply list_elem_of_lookup in Hin as [j Hj].
    apply (Hpair 0%nat (S j) seg seg'); [lia | done | done |].
    exists a. done.
Qed.

Lemma image_outside segs data a :
  Forall (fun seg => data_length seg <= segment_length seg) segs ->
  Forall (fun seg => 0 <= data_length seg) segs ->
  (forall seg, seg ∈ segs -> ~ in_segment seg a) ->
  image segs data a = None.
Proof.
  induction segs as [| [[[ss sl] ds] dl] segs IH]; intros Hle Hnn Hout; [done |].
  inversion Hle as [| ? ? Hle1 Hle']; subst. inversion Hnn as [| ? ? Hnn1 Hnn']; subst.
  unfold data_length, segment_length in Hle1, Hnn1. simpl in Hle1, Hnn1.
  pose proof (Hout (ss, sl, ds, dl) ltac:(left)) as Hnot.
  unfold in_segment, segment_start, segment_length in Hnot. simpl in Hnot.
  cbn [image].
  destruct (Z.leb_spec ss a), (Z.ltb_spec a (ss + dl)), (Z.leb_spec (ss + dl) a),
           (Z.ltb_spec a (ss + sl)); simpl; try lia;
    apply IH; try done; intros seg Hseg; apply Hout; by right.
Qed.

(** The loop of [_init_memory] on a table of non-overlapping segments whose
    data parts lie inside the data: it returns, and the memory then shows
    the image of the table on top of what it showed before. *)
Lemma init_segments_memory_view segs data m zeros :
  segments_nonneg segs -> segments_valid segs -> data_in_bounds segs data ->
  (forall seg a, seg ∈ segs -> in_segment seg a -> view_of m zeros a = None) ->
  exists m' zeros',
    Reader.init_segments_memory segs data m zeros = Ok (m', zeros')
    /\ forall a,
         view_of m' zeros' a
         = match image segs data a with
           | Some v => Some v
           | None => view_of m zeros a
           end.
Proof.
  revert m zeros. induction segs as [| [[[ss sl] ds] dl] segs IH];
    intros m zeros Hnn Hvalid Hfit Hfree.
  - eexists _, _. split; [reflexivity | done].
  - inversion Hnn as [| ? ? (Hss & Hsl & Hds & Hdl) Hnn']; subst.
    inversion Hfit as [| ? ? Hfit1 Hfit']; subst.
    destruct (segments_valid_cons _ _ Hvalid) as (Hle & Hvalid' & Hdisj).
    unfold segment_start, segment_length, segment_data_start, data_length in *.
    simpl in Hss, Hsl, Hds, Hdl, Hfit1, Hle.
    destruct (init_segment_view ss sl ds dl data m zeros) as (m1 & zeros1 & Hstep & Hview1);
      [lia | lia | done | |].
    { intros a Ha. apply (Hfree (ss, sl, ds, dl)); [by left | done]. }
    destruct (IH m1 zeros1 Hnn' Hvalid' Hfit') as (m' & zeros' & Hrun & Hview').
    { intros seg a Hseg Ha. rewrite Hview1.
      destruct (Z.leb_spec ss a), (Z.ltb_spec a (ss + sl)); simpl;
        try (apply (Hfree seg); [by right | done]).
      exfalso. apply (Hdisj seg a Hseg); [| done].
      unfold in_segment, segment_start, segment_length. simpl. lia. }
    exists m', zeros'. split; [by rewrite Hstep |].
    intros a. rewrite Hview', Hview1.
    destruct (decide (ss <= a < ss + sl)) as [Hin | Hout].
    + rewrite (image_outside segs data a).
      2:{ apply Hvalid'. }
      2:{ eapply Forall_impl; [exact Hnn' |]. intros seg Hs. apply Hs. }
      2:{ intros seg Hseg Ha. apply (Hdisj seg a Hseg); [| done].
          unfold in_segment, segment_start, segment_length. simpl. lia. }
      destruct (Z.leb_spec ss a), (Z.ltb_spec a (ss + sl)); simpl; try lia.
      cbn [image].
      destruct (Z.leb_spec ss a), (Z.ltb_spec a (ss + dl)), (Z.leb_spec (ss + dl) a),
               (Z.ltb_spec a (ss + sl)); simpl; try lia; try done.
      destruct (data !! Z.to_nat (ds + (a - ss))) eqn:Hd; [done |].
      apply lookup_ge_None in Hd. lia.
    + cbn [image].
      destruct (Z.leb_spec ss a), (Z.ltb_spec a (ss + dl)), (Z.leb_spec (ss + dl) a),
               (Z.ltb_spec a (ss + sl)); simpl; try lia; done.
Qed.

Lemma init_segments_memory_Raise segs data m zeros :
  segments_nonneg segs -> ~ data_in_bounds segs data ->
  Reader.init_segments_memory segs data m zeros = Raise IndexError.
Proof.
  revert m zeros. induction segs as [| [[[ss sl] ds] dl] segs IH];
    intros m zeros Hnn Hbad.
  - exfalso. apply Hbad. constructor.
  - inversion Hnn as [| ? ? (Hss & Hsl & Hds & Hdl) Hnn']; subst.
    unfold segment_start, segment_length, segment_data_start, data_length in *.
    simpl in Hss, Hsl, Hds, Hdl.
    cbn [Reader.init_segments_memory].
    destruct (decide (dl <= 0 \/ ds + dl <= Z.of_nat (List.length data))) as [Hfit | Hout].
    + destruct (copy_data_Ok (Z.to_nat dl) 0 ss ds data m) as (mc & -> & _); [lia | lia |].
      cbn [mbind result_bind].
      assert (Hrest : ~ data_in_bounds segs data).
      { intros Hrest. apply Hbad. by constructor. }
      destruct (sl >? dl); [destruct (sl - dl <? reserved_dict_threshold) |]; by apply IH.
    + rewrite copy_data_Raise by lia. done.
Qed.

Lemma write_segments_nonneg segs bs :
  Writer.write_segments segs = Ok bs -> segments_nonneg segs.
Proof.
  revert bs. induction segs as [| [[[ss sl] ds] dl] segs IH]; intros bs;
    cbn [Writer.write_segments].
  - constructor.
  - destruct (pack segment_format [ss; sl; ds; dl]) as [b1 |] eqn:Hp; [| done].
    cbn [mbind result_bind].
    destruct (Writer.write_segments segs) as [b2 |] eqn:Hw; [| done].
    intros _. constructor; [| by eapply IH].
    destruct (pack_inv _ _ _ Hp) as (Hfit & _).
    inversion Hfit as [| ? ? ? ? [H1 _] Hf1]; subst.
    inversion Hf1 as [| ? ? ? ? [H2 _] Hf2]; subst.
    inversion Hf2 as [| ? ? ? ? [H3 _] Hf3]; subst.
    inversion Hf3 as [| ? ? ? ? [H4 _] _]; subst.
    done.
Qed.

Lemma writer_reachable_reserved self :
  writer_reachable self -> Writer.reserved self = 0.
Proof.
  induction 1 as [f w v fl self Hi | self s l ds dl self' _ IH Ha
                  | self d _ IH | self s d self' _ IH Ha].
  - unfold Writer.__init__ in Hi.
    repeat match type of Hi with
           | (if ?c then _ else _) = _ => destruct c; [done |]
           end.
    by injection Hi as <-.
  - unfold Writer.add_segment in Ha.
    destruct (_ <? _); [done |].
    destruct (Writer._validate_segment_not_overlapping _ _ _); [| done].
    by injection Ha as <-.
  - done.
  - unfold Writer.add_simple_segment_with_data, Writer.add_segment in Ha. simpl in Ha.
    destruct (_ <? _); [done |].
    destruct (Writer._validate_segment_not_overlapping _ _ _); [| done].
    by injection Ha as <-.
Qed.

Lemma written_image_loads_holds (self : Writer.t) (file : list byte)
    (garbage_handling : GarbageHandling) :
  writer_reachable self ->
  Writer.write_to_file self = Ok file ->
  Writer.version self <= 1 ->
  (data_in_bounds (Writer.segments self) (Writer.data self) ->
   exists r,
     Reader.__init__ file garbage_handling = Ok r
     /\ Reader.w r = Writer.word_size self
     /\ Reader.garbage_handling r = garbage_handling
     /\ forall a, word_view r a = image (Writer.segments self) (Writer.data self) a)
  /\ (~ data_in_bounds (Writer.segments self) (Writer.data self) ->
      Reader.__init__ file garbage_handling = Raise IndexError).
Proof.
  intros Hreach Hfile Hver.
  destruct (write_to_file_parsed self file garbage_handling Hfile)
    as (hdr & rest1 & rest2 & Hh & Hg & Hmagic & Hw & Hv & Hn & Hfl & Hres & Hsegs & Hdata).
  pose proof (writer_reachable_valid _ Hreach) as Hvalid.
  pose proof (writer_reachable_reserved _ Hreach) as Hreserved.
  assert (Hnn : segments_nonneg (Writer.segments self)).
  { unfold Writer.write_to_file in Hfile.
    destruct (Writer.write_tag _); [| done]. cbn [mbind result_bind] in Hfile.
    destruct (pack header_base_format _); [| done]. cbn [mbind result_bind] in Hfile.
    destruct (if Writer.version self >? 0 then _ else _); [| done].
    cbn [mbind result_bind] in Hfile.
    destruct (Writer.write_segments _) eqn:Hws; [| done]. by eapply write_segments_nonneg. }
  assert (Hver0 : 0 <= Writer.version self).
  { unfold Writer.write_to_file in Hfile.
    destruct (Writer.write_tag _); [| done]. cbn [mbind result_bind] in Hfile.
    destruct (pack header_base_format _) eqn:Hp; [| done].
    destruct (pack_inv _ _ _ Hp) as (Hfit & _).
    inversion Hfit as [| ? ? ? ? _ Hf2]; subst. inversion Hf2 as [| ? ? ? ? _ Hf3]; subst.
    inversion Hf3 as [| ? ? ? ? Hv3 _]; subst. apply Hv3. }
  assert (Hvalidate : Reader._validate_header hdr = Ok tt).
  { apply validate_header_Ok. rewrite Hmagic, Hv, Hres, Hreserved.
    split; [done |]. split; [lia |]. by destruct (_ =? 0). }
  assert (Hbody : Reader.__init__ file garbage_handling
                  = match Reader._init_memory hdr (Writer.segments self) (Writer.data self) with
                    | Raise struct_error => Raise (FJReadFjmException BadFile)
                    | other => other
                    end).
  { unfold Reader.__init__. rewrite Hh. cbn [mbind result_bind].
    rewrite Hvalidate. cbn [mbind result_bind]. rewrite Hsegs. cbn [mbind result_bind].
    rewrite Hdata. cbn [mbind result_bind].
    by destruct (Reader._init_memory _ _ _) as [? | []]. }
  rewrite Hbody. unfold Reader._init_memory. split.
  - intros Hfit.
    destruct (init_segments_memory_view (Writer.segments self) (Writer.data self) ∅ [])
      as (m & zeros & -> & Hview); try done.
    cbn [mbind result_bind mret result_ret].
    eexists. split; [reflexivity |]. cbn [Reader.w Reader.garbage_handling].
    split; [done |]. split; [done |].
    intros a. rewrite word_view_view_of. cbn [Reader.memory Reader.zeros_boundaries].
    rewrite Hview. by destruct (image _ _ a).
  - intros Hbad. by rewrite init_segments_memory_Raise.
Qed.

(** A file written by a Writer with version 0 or 1 loads exactly when the
    data part of every segment lies inside the data: the Reader then has the
    word size of the Writer and shows, at every word address, the image of
    the segment table (the data word, or 0 in the rest of a segment, or
    nothing outside the segments); when a data part does not fit, the load
    fails with an [IndexError]. *)
Theorem written_image_loads (self : Writer.t) (file : list byte)
    (garbage_handling : GarbageHandling) :
  writer_reachable self ->
  Writer.write_to_file self = Ok file ->
  Writer.version self <= 1 ->
  (data_in_bounds (Writer.segments self) (Writer.data self) ->
   exists r,
     Reader.__init__ file garbage_handling = Ok r
     /\ Reader.w r = Writer.word_size self
     /\ Reader.garbage_handling r = garbage_handling
     /\ forall a, word_view r a = image (Writer.segments self) (Writer.data self) a)
  /\ (~ data_in_bounds (Writer.segments self) (Writer.data self) ->
      Reader.__init__ file garbage_handling = Raise IndexError).
Proof. exact (written_image_loads_holds self file garbage_handling). Qed.

Lemma written_image_loads_witness :
  writer_reachable Samples.self_loop_writer
  /\ Writer.write_to_file Samples.self_loop_writer = Ok Samples.self_loop_fjm
  /\ exists r,
       Reader.__init__ Samples.self_loop_fjm Stop = Ok r
       /\ Reader.w r = 8
       /\ word_view r 0 = Some 24 /\ word_view r 3 = Some 0 /\ word_view r 4 = None.
Proof.
  assert (Hr : writer_reachable Samples.self_loop_writer).
  { apply (reach_add_simple_segment_with_data Samples.writer0 0 [24; 0; 0; 0]);
      [| reflexivity].
    apply (reach_init "out.fjm" 8 0 0). reflexivity. }
  assert (Hf : Writer.write_to_file Samples.self_loop_writer = Ok Samples.self_loop_fjm)
    by (vm_compute; reflexivity).
  split; [exact Hr |]. split; [exact Hf |].
  destruct (written_image_loads Samples.self_loop_writer Samples.self_loop_fjm Stop Hr Hf)
    as [Hload _]; [simpl; lia |].
  destruct Hload as (r & Hinit & Hw & _ & Hview).
  { constructor; [right; vm_compute; discriminate | constructor]. }
  exists r. split; [exact Hinit |]. split; [exact Hw |].
  rewrite !Hview. repeat split.
Defined.

Lemma written_version_rejected_holds (self : Writer.t) (file : list byte)
    (garbage_handling : GarbageHandling) :
  Writer.write_to_file self = Ok file ->
  2 <= Writer.version self ->
  Reader.__init__ file garbage_handling
  = Raise (FJReadFjmException (UnsupportedVersion (Writer.version self))).
Proof.
  intros Hfile Hver.
  destruct (write_to_file_parsed self file garbage_handling Hfile)
    as (hdr & rest1 & rest2 & Hh & _ & Hmagic & _ & Hv & _).
  unfold Reader.__init__. rewrite Hh. cbn [mbind result_bind].
  unfold Reader._validate_header, SUPPORTED_VERSIONS. rewrite Hmagic, Hv.
  rewrite Z.eqb_refl. cbn [negb existsb].
  destruct (Z.eqb_spec (Writer.version self) 0); [lia |].
  destruct (Z.eqb_spec (Writer.version self) 1); [lia |]. done.
Qed.

(** The Writer takes every 64-bit version, the Reader versions 0 and 1
    only: a file written with a version of 2 or more is rejected by the
    Reader as of an unsupported version. *)
Theorem written_version_rejected (self : Writer.t) (file : list byte)
    (garbage_handling : GarbageHandling) :
  Writer.write_to_file self = Ok file ->
  2 <= Writer.version self ->
  Reader.__init__ file garbage_handling
  = Raise (FJReadFjmException (UnsupportedVersion (Writer.version self))).
Proof. exact (written_version_rejected_holds self file garbage_handling). Qed.

Lemma written_version_rejected_witness :
  Writer.__init__ "out.fjm" 8 2 0 = Ok Samples.version_2_writer
  /\ 2 <= Writer.version Samples.version_2_writer
  /\ exists file,
       Writer.write_to_file Samples.version_2_writer = Ok file
       /\ Reader.__init__ file Stop = Raise (FJReadFjmException (UnsupportedVersion 2)).
Proof.
  split; [reflexivity |]. split; [simpl; lia |].
  destruct (Writer.write_to_file Samples.version_2_writer) as [file |] eqn:Hf;
    [| vm_compute in Hf; discriminate].
  exists file. split; [reflexivity |].
  apply (written_version_rejected Samples.version_2_writer file Stop Hf). simpl. lia.
Defined.

(* ================================================================== *)
(** * Further properties of the memory *)

(** ** Reading a word *)

Lemma in_zeros_boundaries_set_memory r m a :
  Reader.in_zeros_boundaries (Reader.set_memory r m) a = Reader.in_zeros_boundaries r a.
Proof. reflexivity. Qed.

Lemma word_view_set_memory r a v x :
  word_view r a = Some v ->
  word_view (Reader.set_memory r (<[a := v]> (Reader.memory r))) x = word_view r x.
Proof.
  intros Hv. unfold word_view. cbn [Reader.memory Reader.set_memory].
  rewrite in_zeros_boundaries_set_memory.
  destruct (decide (x = a)) as [-> | Hne].
  - rewrite lookup_insert_eq. unfold word_view in Hv.
    destruct (Reader.memory r !! a); [done |].
    by destruct (Reader.in_zeros_boundaries r a).
  - by rewrite lookup_insert_ne.
Qed.

Lemma word_view_insert r a v x :
  word_view (Reader.set_memory r (<[a := v]> (Reader.memory r))) x
  = if decide (x = a) then Some v else word_view r x.
Proof.
  unfold word_view. cbn [Reader.memory Reader.set_memory].
  rewrite in_zeros_boundaries_set_memory.
  destruct (decide (x = a)) as [-> | Hne].
  - by rewrite lookup_insert_eq.
  - by rewrite lookup_insert_ne.
Qed.

Lemma getitem_reads_view_holds (r : Reader.t) (a : Z) :
  supported_word_size (Reader.w r) ->
  let a' := a mod 2 ^ Reader.w r in
  (forall v,
      word_view r a' = Some v ->
      exists r',
        Reader.getitem r a = Ok (v, r')
        /\ (forall x, word_view r' x = word_view r x)
        /\ Reader.getitem r' a = Ok (v, r'))
  /\ (word_view r a' = None -> Reader.garbage_handling r = Stop ->
      Reader.getitem r a = Raise (FJReadFjmException (ReadingGarbageWord a' 0)))
  /\ (word_view r a' = None -> Reader.garbage_handling r <> Stop ->
      exists r',
        Reader.getitem r a = Ok (0, r')
        /\ (forall x, word_view r' x = if decide (x = a') then Some 0 else word_view r x)
        /\ Reader.getitem r' a = Ok (0, r')).
Proof.
  intros Hw a'.
  assert (Hmask : Z.land a (Reader.mask r) = a') by (by apply mask_mod).
  assert (Hagain : forall v,
            Reader.getitem (Reader.set_memory r (<[a' := v]> (Reader.memory r))) a
            = Ok (v, Reader.set_memory r (<[a' := v]> (Reader.memory r)))).
  { intros v. apply getitem_present.
    change (Reader.mask (Reader.set_memory r _)) with (Reader.mask r).
    rewrite Hmask. apply lookup_insert_eq. }
  unfold Reader.getitem. rewrite Hmask.
  destruct (Reader.memory r !! a') as [v0 |] eqn:Hm.
  - assert (Hview : word_view r a' = Some v0) by (unfold word_view; by rewrite Hm).
    rewrite Hview. split; [| split]; [| done | done].
    intros v [= <-]. exists r. split; [done |]. split; [done |].
    apply getitem_present. by rewrite Hmask.
  - destruct (Reader.in_zeros_boundaries r a') eqn:Hz.
    + assert (Hview : word_view r a' = Some 0) by (unfold word_view; by rewrite Hm, Hz).
      rewrite Hview. split; [| split]; [| done | done].
      intros v [= <-]. eexists. split; [reflexivity |]. split; [| apply Hagain].
      intros x. by apply word_view_set_memory.
    + assert (Hview : word_view r a' = None) by (unfold word_view; by rewrite Hm, Hz).
      rewrite Hview. split; [done |]. split.
      * intros _ ->. done.
      * intros _ Hpol.
        exists (Reader.set_memory r (<[a' := 0]> (Reader.memory r))).
        split; [by destruct (Reader.garbage_handling r) |].
        split; [| apply Hagain].
        intros x. apply word_view_insert.
Qed.

(** Reading a word, in terms of what the Reader shows at the address
    reduced modulo 2^w: a word shown is returned, the Reader shows the same
    as before and a second read returns the same and changes nothing; where
    nothing is shown, the read raises under the policy [Stop], and under
    the other policies it returns 0 and from then on the Reader shows 0
    there. *)
Theorem getitem_reads_view (r : Reader.t) (a : Z) :
  supported_word_size (Reader.w r) ->
  let a' := a mod 2 ^ Reader.w r in
  (forall v,
      word_view r a' = Some v ->
      exists r',
        Reader.getitem r a = Ok (v, r')
        /\ (forall x, word_view r' x = word_view r x)
        /\ Reader.getitem r' a = Ok (v, r'))
  /\ (word_view r a' = None -> Reader.garbage_handling r = Stop ->
      Reader.getitem r a = Raise (FJReadFjmException (ReadingGarbageWord a' 0)))
  /\ (word_view r a' = None -> Reader.garbage_handling r <> Stop ->
      exists r',
        Reader.getitem r a = Ok (0, r')
        /\ (forall x, word_view r' x = if decide (x = a') then Some 0 else word_view r x)
        /\ Reader.getitem r' a = Ok (0, r')).
Proof. exact (getitem_reads_view_holds r a). Qed.

Lemma getitem_reads_view_witness :
  supported_word_size (Reader.w Samples.self_loop_reader)
  /\ word_view Samples.self_loop_reader (256 mod 2 ^ 8) = Some 24
  /\ Reader.getitem Samples.self_loop_reader 256 = Ok (24, Samples.self_loop_reader)
  /\ word_view Samples.self_loop_reader (4 mod 2 ^ 8) = None
  /\ Reader.getitem Samples.self_loop_reader 4
     = Raise (FJReadFjmException (ReadingGarbageWord (4 mod 2 ^ 8) 0)).
Proof.
  assert (Hw : supported_word_size (Reader.w Samples.self_loop_reader)) by (left; reflexivity).
  destruct (getitem_reads_view Samples.self_loop_reader 256 Hw) as (Hshown & _ & _).
  destruct (getitem_reads_view Samples.self_loop_reader 4 Hw) as (_ & Hstop & _).
  split; [exact Hw |]. split; [reflexivity |].
  split; [vm_compute; reflexivity |]. split; [reflexivity |].
  apply Hstop; reflexivity.
Defined.

Lemma getitem_words_in_range r a v r' :
  0 <= Reader.w r ->
  Reader.getitem r a = Ok (v, r') -> words_in_range r -> words_in_range r'.
Proof.
  intros Hw Hget Hrange x y.
  destruct (getitem_Ok _ _ _ _ Hget) as (-> & _).
  revert Hget. unfold Reader.getitem.
  assert (Hzero : 0 <= 0 < 2 ^ Reader.w r).
  { split; [done |]. by apply Z.pow_pos_nonneg. }
  destruct (Reader.memory r !! Z.land a (Reader.mask r)).
  { intros [= _ <-]. apply Hrange. }
  destruct (Reader.in_zeros_boundaries r _).
  { intros [= _ <-]. cbn [Reader.memory Reader.set_memory].
    intros [[_ <-] | [_ Hy]]%lookup_insert_Some; [done | by eapply Hrange]. }
  destruct (Reader.garbage_handling r); [done | ..];
    intros [= _ <-]; cbn [Reader.memory Reader.set_memory];
    intros [[_ <-] | [_ Hy]]%lookup_insert_Some; try done; by eapply Hrange.
Qed.

(** What a returning word read leaves behind. *)
Lemma getitem_Ok_view r a v r' :
  supported_word_size (Reader.w r) ->
  Reader.getitem r a = Ok (v, r') ->
  let a' := a mod 2 ^ Reader.w r in
  v = word_or_zero r a'
  /\ Reader.w r' = Reader.w r
  /\ word_view r' a' = Some v
  /\ (forall x, x <> a' -> word_view r' x = word_view r x)
  /\ (forall x, word_or_zero r' x = word_or_zero r x)
  /\ (words_in_range r -> words_in_range r').
Proof.
  intros Hw Hget a'.
  destruct (getitem_reads_view_holds r a Hw) as (Hshown & Hstop & Hother).
  fold a' in Hshown, Hstop, Hother.
  destruct (getitem_Ok _ _ _ _ Hget) as (Hw' & _).
  pose proof (getitem_words_in_range r a v r' (w_nonneg r Hw) Hget) as Hrange.
  destruct (word_view r a') as [v0 |] eqn:Hview.
  - destruct (Hshown v0 eq_refl) as (r1 & Hget1 & Hsame & _).
    rewrite Hget in Hget1. injection Hget1 as -> ->.
    unfold word_or_zero. rewrite Hview. split_and!; try done.
    + by rewrite Hsame.
    + intros x. by rewrite Hsame.
  - assert (Hns : Reader.garbage_handling r <> Stop).
    { intros Hs. rewrite Hstop in Hget by done. done. }
    destruct (Hother eq_refl Hns) as (r1 & Hget1 & Hnew & _).
    rewrite Hget in Hget1. injection Hget1 as -> ->.
    unfold word_or_zero. rewrite Hview. split_and!; try done.
    + rewrite Hnew. by destruct (decide (a' = a')).
    + intros x Hx. rewrite Hnew. by destruct (decide (x = a')).
    + intros x. rewrite Hnew. destruct (decide (x = a')) as [-> | _]; [| done].
      by rewrite Hview.
Qed.

Lemma setitem_view r a v :
  supported_word_size (Reader.w r) ->
  let a' := a mod 2 ^ Reader.w r in
  Reader.w (Reader.setitem r a v) = Reader.w r
  /\ (forall x, word_view (Reader.setitem r a v) x
                = if decide (x = a') then Some (v mod 2 ^ Reader.w r) else word_view r x)
  /\ (words_in_range r -> words_in_range (Reader.setitem r a v)).
Proof.
  intros Hw a'. unfold Reader.setitem. rewrite !mask_mod by done. fold a'.
  split; [done |]. split; [intros x; apply word_view_insert |].
  intros Hrange x y. cbn [Reader.memory Reader.set_memory Reader.w].
  intros [[_ <-] | [_ Hy]]%lookup_insert_Some; [| by eapply Hrange].
  apply Z.mod_pos_bound, Z.pow_pos_nonneg; [lia | by apply w_nonneg].
Qed.

(** ** Bits *)

Lemma testbit_shiftl_1 bit k : 0 <= bit -> 0 <= k -> Z.testbit (Z.shiftl 1 bit) k = (k =? bit).
Proof.
  intros Hb Hk. pose proof (testbit_b2z_shiftl true bit k Hb Hk) as Ht.
  cbn [Z.b2z] in Ht. rewrite Ht. apply andb_true_r.
Qed.

Lemma ones_sub_shiftl_1 n bit :
  0 <= bit < n -> Z.ones n - Z.shiftl 1 bit = Z.ldiff (Z.ones n) (Z.shiftl 1 bit).
Proof.
  intros Hb. apply Z.sub_nocarry_ldiff. apply Z.bits_inj'. intros k Hk.
  rewrite Z.ldiff_spec, testbit_shiftl_1, Z.bits_0 by lia.
  destruct (Z.eqb_spec k bit) as [-> | _]; [| done].
  by rewrite Z.ones_spec_low by lia.
Qed.

(** The word that [write_bit] stores: bit [bit] of [old] set to [v], in [n]
    bits. *)
Lemma written_word_bits (v : bool) old bit n k :
  0 <= bit < n -> 0 <= k < n ->
  Z.testbit (Z.land (if v then Z.lor old (Z.shiftl 1 bit)
                     else Z.land old (Z.shiftl 1 n - 1 - Z.shiftl 1 bit))
                    (Z.shiftl 1 n - 1)) k
  = if decide (k = bit) then v else Z.testbit old k.
Proof.
  intros Hb Hk. rewrite shiftl_1_ones by lia.
  rewrite Z.land_spec, Z.ones_spec_low, andb_true_r by lia.
  destruct v.
  - rewrite Z.lor_spec, testbit_shiftl_1 by lia.
    destruct (decide (k = bit)) as [-> | Hne].
    + by rewrite Z.eqb_refl, orb_true_r.
    + destruct (Z.eqb_spec k bit); [done |]. by rewrite orb_false_r.
  - rewrite ones_sub_shiftl_1 by lia.
    rewrite Z.land_spec, Z.ldiff_spec, testbit_shiftl_1, Z.ones_spec_low by lia.
    destruct (decide (k = bit)) as [-> | Hne].
    + by rewrite Z.eqb_refl, andb_false_r.
    + destruct (Z.eqb_spec k bit); [done |]. simpl. by rewrite andb_true_r.
Qed.

(** [read_bit] returns bit [b mod w] of the word at index [b / w] modulo
    2^w, and shows the same words afterwards. *)
Lemma read_bit_Ok_view r b x r' :
  supported_word_size (Reader.w r) ->
  Reader.read_bit r b = Ok (x, r') ->
  let w := Reader.w r in
  x = Z.b2z (Z.testbit (word_or_zero r ((b / w) mod 2 ^ w)) (b mod w))
  /\ Reader.w r' = w
  /\ (forall y, word_or_zero r' y = word_or_zero r y)
  /\ (forall y, y <> (b / w) mod 2 ^ w -> word_view r' y = word_view r y)
  /\ word_view r' ((b / w) mod 2 ^ w) = Some (word_or_zero r ((b / w) mod 2 ^ w))
  /\ (words_in_range r -> words_in_range r').
Proof.
  intros Hw Hread w. unfold Reader.read_bit in Hread.
  rewrite bit_address_decompose_spec in Hread by done. fold w in Hread.
  destruct (Reader.getitem r ((b / w) mod 2 ^ w)) as [[v r1] |] eqn:Hget; [| done].
  cbn in Hread. injection Hread as <- <-.
  destruct (getitem_Ok_view r _ v r1 Hw Hget) as (Hv & Hw1 & Hshow & Hframe & Hsame & Hrange).
  fold w in Hv, Hshow, Hframe. rewrite Z.mod_mod in Hv, Hshow, Hframe
    by (apply Z.pow_nonzero; [lia | by apply w_nonneg]).
  pose proof (Z.mod_pos_bound b w ltac:(destruct (supported_word_size_pow2 _ Hw); done)).
  rewrite shiftr_land_1 by lia. subst v. done.
Qed.

Lemma write_bit_changes_one_bit_holds (r : Reader.t) (b : Z) (v : bool) (r' : Reader.t) :
  supported_word_size (Reader.w r) ->
  Reader.write_bit r b v = Ok r' ->
  let w := Reader.w r in
  let address := (b / w) mod 2 ^ w in
  Reader.w r' = w
  /\ (exists new,
        word_view r' address = Some new
        /\ 0 <= new < 2 ^ w
        /\ forall k, 0 <= k < w ->
             Z.testbit new k
             = if decide (k = b mod w) then v else Z.testbit (word_or_zero r address) k)
  /\ (forall x, x <> address -> word_view r' x = word_view r x)
  /\ (words_in_range r -> words_in_range r').
Proof.
  intros Hw Hwrite w address.
  destruct (write_bit_inv _ _ _ _ Hwrite) as (old & r1 & Hget & ->).
  rewrite bit_address_decompose_spec in * by done. cbn [fst snd] in *. fold w address in Hget |- *.
  destruct (getitem_Ok_view r _ old r1 Hw Hget) as (Hold & Hw1 & _ & Hframe & _ & Hrange).
  fold w in Hold, Hframe.
  assert (Hpow : 0 < 2 ^ w) by (apply Z.pow_pos_nonneg; [lia | by apply w_nonneg]).
  assert (Haddr : address mod 2 ^ w = address) by (apply Z.mod_mod; lia).
  rewrite Haddr in Hold, Hframe.
  pose proof (Z.mod_pos_bound b w ltac:(destruct (supported_word_size_pow2 _ Hw); done)) as Hbit.
  assert (Hw1' : supported_word_size (Reader.w r1)) by (by rewrite Hw1).
  rewrite Hw1. fold w.
  destruct (setitem_view r1 address
              (if v then Z.lor old (Z.shiftl 1 (b mod w))
               else Z.land old (Z.shiftl 1 w - 1 - Z.shiftl 1 (b mod w))) Hw1')
    as (Hw2 & Hview2 & Hrange2).
  rewrite Hw1 in Hw2, Hview2. fold w in Hw2, Hview2. rewrite Haddr in Hview2.
  split; [done |]. split; [| split].
  - eexists. split; [rewrite Hview2; by destruct (decide (address = address)) |].
    split; [by apply Z.mod_pos_bound |].
    intros k Hk. rewrite <- land_mask_mod by lia.
    rewrite written_word_bits by lia. by rewrite Hold.
  - intros x Hx. rewrite Hview2. destruct (decide (x = address)); [done |]. by apply Hframe.
  - intros Hr. apply Hrange2. by apply Hrange.
Qed.

(** [write_bit(b, v)], when it returns: the word at index [b / w] modulo 2^w
    is shown with bit [b mod w] equal to [v] and its other [w - 1] bits as
    before (as in 0 where no word was shown), it has [w] bits, and every
    other word is shown as before. *)
Theorem write_bit_changes_one_bit (r : Reader.t) (b : Z) (v : bool) (r' : Reader.t) :
  supported_word_size (Reader.w r) ->
  Reader.write_bit r b v = Ok r' ->
  let w := Reader.w r in
  let address := (b / w) mod 2 ^ w in
  Reader.w r' = w
  /\ (exists new,
        word_view r' address = Some new
        /\ 0 <= new < 2 ^ w
        /\ forall k, 0 <= k < w ->
             Z.testbit new k
             = if decide (k = b mod w) then v else Z.testbit (word_or_zero r address) k)
  /\ (forall x, x <> address -> word_view r' x = word_view r x)
  /\ (words_in_range r -> words_in_range r').
Proof. exact (write_bit_changes_one_bit_holds r b v r'). Qed.

Lemma write_bit_changes_one_bit_witness :
  supported_word_size (Reader.w Samples.self_loop_reader)
  /\ Reader.write_bit Samples.self_loop_reader 24 true = Ok Samples.self_loop_flipped
  /\ word_view Samples.self_loop_flipped 0 = word_view Samples.self_loop_reader 0
  /\ word_view Samples.self_loop_flipped 3 = Some 1.
Proof.
  assert (Hw : supported_word_size (Reader.w Samples.self_loop_reader)) by (left; reflexivity).
  assert (Hwr : Reader.write_bit Samples.self_loop_reader 24 true
                = Ok Samples.self_loop_flipped) by (vm_compute; reflexivity).
  destruct (write_bit_changes_one_bit _ _ _ _ Hw Hwr) as (_ & _ & Hframe & _).
  split; [exact Hw |]. split; [exact Hwr |].
  split; [apply Hframe; vm_compute; discriminate | reflexivity].
Defined.

Lemma testbit_high_false n x k : 0 <= x < 2 ^ n -> n <= k -> Z.testbit x k = false.
Proof.
  intros Hx Hk. destruct (Z.le_gt_cases 0 n) as [Hn | Hn].
  - rewrite <- (Z.mod_small x (2 ^ n)) by done. apply Z.mod_pow2_bits_high. lia.
  - rewrite Z.pow_neg_r in Hx by lia. lia.
Qed.

Lemma word_or_zero_range r a :
  0 <= Reader.w r -> words_in_range r -> 0 <= word_or_zero r a < 2 ^ Reader.w r.
Proof.
  intros Hw Hrange. unfold word_or_zero, word_view.
  assert (Hzero : 0 <= 0 < 2 ^ Reader.w r) by (split; [done | by apply Z.pow_pos_nonneg]).
  destruct (Reader.memory r !! a) as [v |] eqn:Hm; [by eapply Hrange |].
  by destruct (Reader.in_zeros_boundaries r a).
Qed.

(** The flip of the interpreter is [flip]. *)
Lemma iteration_flip {D St B : Type} {device : IODevice D} {stats : RunStatistics St}
    {hook : BreakpointHandler B St} w (s : FjmRun.state (D := D) (St := St) (B := B))
    bh m0 st0 flip_address m1 io1 io2 m2 :
  FjmRun.handle_breakpoints s = Ok (bh, m0, st0) ->
  Reader.get_word m0 (FjmRun.ip s) = Ok (flip_address, m1) ->
  FjmRun.handle_output flip_address (FjmRun.io_device s) w = Ok io1 ->
  FjmRun.handle_input io1 (FjmRun.ip s) m1 = Ok (io2, m2) ->
  FjmRun.iteration w s
  = (m4 ← flip m2 flip_address;
     '(jump_address, m5) ← Reader.get_word m4 (FjmRun.ip s + w);
     mret (FjmRun.check_finish (FjmRun.ip s) w flip_address jump_address m5 io2
             (register_op st0 (FjmRun.ip s) flip_address jump_address) bh)).
Proof.
  intros Hb Hf Ho Hi. unfold FjmRun.iteration, flip.
  rewrite Hb. cbn [mbind result_bind]. rewrite Hf. cbn [mbind result_bind].
  rewrite Ho. cbn [mbind result_bind]. rewrite Hi.
  destruct (Reader.read_bit m2 flip_address) as [[bit m3] |]; [| done].
  cbn [mbind result_bind]. done.
Qed.

Lemma flip_toggles_one_bit_holds (r : Reader.t) (b : Z) (r' : Reader.t) :
  supported_word_size (Reader.w r) ->
  flip r b = Ok r' ->
  let w := Reader.w r in
  let address := (b / w) mod 2 ^ w in
  Reader.w r' = w
  /\ word_view r' address
     = Some (Z.lxor (word_or_zero r address) (Z.shiftl 1 (b mod w)) mod 2 ^ w)
  /\ (forall x, x <> address -> word_view r' x = word_view r x)
  /\ (words_in_range r -> words_in_range r').
Proof.
  intros Hw Hflip w address. unfold flip in Hflip.
  destruct (Reader.read_bit r b) as [[x r1] |] eqn:Hread; [| done].
  cbn [mbind result_bind] in Hflip.
  destruct (read_bit_Ok_view r b x r1 Hw Hread) as (Hx & Hw1 & Hsame & Hframe1 & _ & Hrange1).
  fold w address in Hx, Hw1, Hframe1.
  assert (Hw1' : supported_word_size (Reader.w r1)) by (by rewrite Hw1).
  destruct (write_bit_changes_one_bit_holds r1 b (x =? 0) r' Hw1' Hflip)
    as (Hw2 & (new & Hnew & Hrange & Hbits) & Hframe2 & Hrange2).
  rewrite Hw1 in Hw2, Hnew, Hrange, Hbits, Hframe2. fold w address in Hnew, Hbits, Hframe2.
  rewrite Hsame in Hbits.
  pose proof (Z.mod_pos_bound b w ltac:(destruct (supported_word_size_pow2 _ Hw); done)) as Hbit.
  assert (Hwnn : 0 <= w) by (by apply w_nonneg).
  split; [done |]. split; [| split].
  - rewrite Hnew. f_equal. apply Z.bits_inj'. intros k Hk.
    destruct (Z.lt_ge_cases k w) as [Hlt | Hge].
    + rewrite Hbits, Z.mod_pow2_bits_low, Z.lxor_spec, testbit_shiftl_1 by lia.
      destruct (decide (k = b mod w)) as [-> | Hne].
      * rewrite Z.eqb_refl, Hx.
        by destruct (Z.testbit (word_or_zero r address) (b mod w)).
      * destruct (Z.eqb_spec k (b mod w)); [done |]. by rewrite xorb_false_r.
    + rewrite (testbit_high_false w new k) by done.
      by rewrite Z.mod_pow2_bits_high by lia.
  - intros y Hy. rewrite Hframe2 by done. by apply Hframe1.
  - intros Hr. by apply Hrange2, Hrange1.
Qed.

(** The flip toggles one bit: when it returns, the word at index [b / w]
    modulo 2^w is shown as the old word xor [1 << (b mod w)], in [w] bits,
    and every other word as before. *)
Theorem flip_toggles_one_bit (r : Reader.t) (b : Z) (r' : Reader.t) :
  supported_word_size (Reader.w r) ->
  flip r b = Ok r' ->
  let w := Reader.w r in
  let address := (b / w) mod 2 ^ w in
  Reader.w r' = w
  /\ word_view r' address
     = Some (Z.lxor (word_or_zero r address) (Z.shiftl 1 (b mod w)) mod 2 ^ w)
  /\ (forall x, x <> address -> word_view r' x = word_view r x)
  /\ (words_in_range r -> words_in_range r').
Proof. exact (flip_toggles_one_bit_holds r b r'). Qed.

Lemma flip_toggles_one_bit_witness :
  supported_word_size (Reader.w Samples.self_loop_reader)
  /\ flip Samples.self_loop_reader 24 = Ok Samples.self_loop_flipped
  /\ word_view Samples.self_loop_flipped 3 = Some 1
  /\ word_view Samples.self_loop_flipped 0 = Some 24.
Proof.
  assert (Hw : supported_word_size (Reader.w Samples.self_loop_reader)) by (left; reflexivity).
  assert (Hf : flip Samples.self_loop_reader 24 = Ok Samples.self_loop_flipped)
    by (vm_compute; reflexivity).
  destruct (flip_toggles_one_bit _ _ _ Hw Hf) as (_ & Hword & Hframe & _).
  split; [exact Hw |]. split; [exact Hf |].
  split; [exact (eq_trans Hword eq_refl) |].
  rewrite Hframe; [reflexivity | vm_compute; discriminate].
Defined.

(** Flipping the same bit twice restores the memory: on a Reader whose
    words have [w] bits, after a flip that returns, a second flip of the
    same bit returns, and every word then reads as before the first. *)
Theorem flip_twice_restores (r : Reader.t) (b : Z) (r1 : Reader.t) :
  supported_word_size (Reader.w r) ->
  words_in_range r ->
  flip r b = Ok r1 ->
  exists r2, flip r1 b = Ok r2 /\ forall x, word_or_zero r2 x = word_or_zero r x.
Proof.
  intros Hw Hrange Hflip.
  destruct (flip_toggles_one_bit_holds r b r1 Hw Hflip) as (Hw1 & Hword1 & Hframe1 & Hrange1).
  set (w := Reader.w r) in *. set (address := (b / w) mod 2 ^ w) in *.
  assert (Hw1' : supported_word_size (Reader.w r1)) by (by rewrite Hw1).
  assert (Hwnn : 0 <= w) by (by apply w_nonneg).
  assert (Hpow : 0 < 2 ^ w) by (by apply Z.pow_pos_nonneg).
  assert (Haddr : address mod 2 ^ w = address) by (apply Z.mod_mod; lia).
  pose proof (Z.mod_pos_bound b w ltac:(destruct (supported_word_size_pow2 _ Hw); done)) as Hbit.
  (* the second flip returns: the word is shown *)
  assert (Hflip2 : exists r2, flip r1 b = Ok r2).
  { unfold flip, Reader.read_bit. rewrite bit_address_decompose_spec by done.
    rewrite Hw1. fold w address.
    destruct (getitem_reads_view_holds r1 address Hw1') as (Hshown & _).
    rewrite Hw1 in Hshown. fold w in Hshown. rewrite Haddr in Hshown.
    destruct (Hshown _ Hword1) as (r1' & Hget & Hsame & Hagain).
    rewrite Hget. cbn [mbind result_bind mret result_ret].
    assert (Hd : Reader.bit_address_decompose r1' b = (address, b mod w)).
    { destruct (getitem_Ok _ _ _ _ Hget) as (Hw1'' & _).
      rewrite bit_address_decompose_spec by (by rewrite Hw1'').
      by rewrite Hw1'', Hw1. }
    erewrite write_bit_Ok; [eauto | exact Hd | exact Hagain]. }
  destruct Hflip2 as [r2 Hflip2]. exists r2. split; [done |].
  destruct (flip_toggles_one_bit_holds r1 b r2 Hw1' Hflip2) as (_ & Hword2 & Hframe2 & _).
  rewrite Hw1 in Hword2, Hframe2. fold w address in Hword2, Hframe2.
  intros x. unfold word_or_zero at 1.
  destruct (decide (x = address)) as [-> | Hne].
  - rewrite Hword2. cbn [default]. unfold word_or_zero at 1. rewrite Hword1. cbn [default].
    pose proof (word_or_zero_range r address Hwnn Hrange) as Hold. fold w in Hold.
    set (old := word_or_zero r address) in *.
    apply Z.bits_inj'. intros k Hk.
    destruct (Z.lt_ge_cases k w) as [Hlt | Hge].
    + unfold id.
      rewrite !Z.mod_pow2_bits_low, !Z.lxor_spec, Z.mod_pow2_bits_low, Z.lxor_spec by lia.
      by destruct (Z.testbit old k), (Z.testbit (Z.shiftl 1 (b mod w)) k).
    + unfold id. rewrite Z.mod_pow2_bits_high by lia. symmetry.
      by apply (testbit_high_false w).
  - rewrite Hframe2, Hframe1 by done. done.
Qed.

Lemma self_loop_reader_in_range : words_in_range Samples.self_loop_reader.
Proof.
  intros a v. unfold Samples.self_loop_reader, Samples.self_loop_memory.
  cbn [Reader.memory Reader.w].
  intros Hl. repeat (apply lookup_insert_Some in Hl as [[_ <-] | [_ Hl]]; [lia |]).
  by rewrite lookup_empty in Hl.
Defined.

Lemma flip_twice_restores_witness :
  supported_word_size (Reader.w Samples.self_loop_reader)
  /\ flip Samples.self_loop_reader 24 = Ok Samples.self_loop_flipped
  /\ exists r2,
       flip Samples.self_loop_flipped 24 = Ok r2
       /\ word_or_zero r2 3 = word_or_zero Samples.self_loop_reader 3.
Proof.
  assert (Hw : supported_word_size (Reader.w Samples.self_loop_reader)) by (left; reflexivity).
  assert (Hf : flip Samples.self_loop_reader 24 = Ok Samples.self_loop_flipped)
    by (vm_compute; reflexivity).
  pose proof self_loop_reader_in_range as Hr.
  destruct (flip_twice_restores _ _ _ Hw Hr Hf) as (r2 & Hf2 & Hsame).
  split; [exact Hw |]. split; [exact Hf |].
  exists r2. split; [exact Hf2 | exact (Hsame 3)].
Defined.

(** ** Words have [w] bits *)

Lemma unpack_words_range fuel tag file_data words :
  Reader.unpack_words fuel tag (fmt_size tag) file_data = Ok words ->
  Forall (fun v => 0 <= v < 256 ^ Z.of_nat (fmt_size tag)) words.
Proof.
  revert file_data words. induction fuel as [| fuel IH]; intros file_data words.
  - simpl. intros [= <-]. constructor.
  - destruct file_data as [| x xs]; [simpl; intros [= <-]; constructor |].
    rewrite unpack_words_step by done.
    unfold unpack.
    destruct (Nat.eqb_spec (List.length (firstn (fmt_size tag) (x :: xs))) (calcsize [tag]))
      as [Hlen | _]; [| done].
    cbn [mbind result_bind unpack_fields].
    destruct (Reader.unpack_words fuel tag (fmt_size tag) _) as [ws |] eqn:Hrest; [| done].
    cbn [mbind result_bind mret result_ret]. intros [= <-].
    constructor; [| by eapply IH].
    pose proof (le_uint_range (firstn (fmt_size tag) (firstn (fmt_size tag) (x :: xs)))) as Hr.
    rewrite firstn_firstn, Nat.min_id in Hr |- *.
    simpl calcsize in Hlen. rewrite Nat.add_0_r in Hlen. rewrite Hlen in Hr. done.
Qed.

Lemma copy_data_values (P : Z -> Prop) count i ss ds data m m' :
  Reader.copy_data count i ss ds data m = Ok m' ->
  Forall P data -> (forall a v, m !! a = Some v -> P v) ->
  forall a v, m' !! a = Some v -> P v.
Proof.
  revert i m. induction count as [| count IH]; intros i m; cbn [Reader.copy_data].
  - by intros [= <-].
  - destruct (data !! Z.to_nat (ds + i)) as [word |] eqn:Hword; [| done].
    intros Hrest Hdata Hm. eapply IH; [exact Hrest | done |].
    intros a v [[_ <-] | [_ Hv]]%lookup_insert_Some; [| by eapply Hm].
    rewrite Forall_forall in Hdata. apply Hdata. by eapply list_elem_of_lookup_2.
Qed.

Lemma fill_zeros_values (P : Z -> Prop) count i ss m :
  P 0 -> (forall a v, m !! a = Some v -> P v) ->
  forall a v, Reader.fill_zeros count i ss m !! a = Some v -> P v.
Proof.
  intros H0. revert i m. induction count as [| count IH]; intros i m Hm; [done |].
  cbn [Reader.fill_zeros]. apply IH.
  intros a v [[_ <-] | [_ Hv]]%lookup_insert_Some; [done | by eapply Hm].
Qed.

Lemma init_segments_memory_values (P : Z -> Prop) segs data m zeros m' zeros' :
  Reader.init_segments_memory segs data m zeros = Ok (m', zeros') ->
  P 0 -> Forall P data -> (forall a v, m !! a = Some v -> P v) ->
  forall a v, m' !! a = Some v -> P v.
Proof.
  intros Hrun H0 Hdata. revert m zeros Hrun.
  induction segs as [| [[[ss sl] ds] dl] segs IH]; intros m zeros;
    cbn [Reader.init_segments_memory].
  - by intros [= <- _].
  - destruct (Reader.copy_data _ _ _ _ _ _) as [mc |] eqn:Hcopy; [| done].
    cbn [mbind result_bind]. intros Hrun Hm.
    pose proof (copy_data_values P _ _ _ _ _ _ _ Hcopy Hdata Hm) as Hmc.
    destruct (sl >? dl); [destruct (sl - dl <? reserved_dict_threshold) |];
      (eapply IH; [exact Hrun |]); try done.
    by apply fill_zeros_values.
Qed.

(** Every word of a loaded Reader has [w] bits, [w] being 8, 16, 32 or 64,
    whatever the file is. *)
Theorem loaded_words_in_range (input_file : list byte)
    (garbage_handling : GarbageHandling) (r : Reader.t) :
  Reader.__init__ input_file garbage_handling = Ok r ->
  supported_word_size (Reader.w r) /\ words_in_range r.
Proof.
  intros Hinit. split; [by eapply init_Ok_word_size |].
  revert Hinit. unfold Reader.__init__.
  destruct (Reader._init_header_fields _ _) as [[hdr rest] | e] eqn:Hh;
    cbn [mbind result_bind]; [| by destruct e].
  destruct (Reader._validate_header hdr) as [[] | e]; cbn [mbind result_bind];
    [| by destruct e].
  destruct (Reader._init_segments hdr rest) as [[segments rest'] | e];
    cbn [mbind result_bind]; [| by destruct e].
  destruct (Reader._read_data hdr rest') as [data | e] eqn:Hdata;
    cbn [mbind result_bind]; [| by destruct e].
  unfold Reader._init_memory.
  destruct (Reader.init_segments_memory segments data ∅ []) as [[m zeros] | e] eqn:Hmem;
    cbn [mbind result_bind mret result_ret]; [| by destruct e].
  intros [= <-]. intros a v. cbn [Reader.memory Reader.w].
  assert (Hrange : Forall (fun v => 0 <= v < 2 ^ Reader.w hdr) data).
  { unfold Reader._read_data in Hdata.
    destruct (Reader.read_tag (Reader.w hdr)) as [tag |] eqn:Htag; [| done].
    cbn [mbind result_bind] in Hdata.
    assert (Hsz : Z.to_nat (Reader.w hdr / 8) = fmt_size tag
                  /\ 256 ^ Z.of_nat (fmt_size tag) = 2 ^ Reader.w hdr).
    { revert Htag. unfold Reader.read_tag.
      destruct (Z.eqb_spec (Reader.w hdr) 8) as [-> | _]; [by intros [= <-] |].
      destruct (Z.eqb_spec (Reader.w hdr) 16) as [-> | _]; [by intros [= <-] |].
      destruct (Z.eqb_spec (Reader.w hdr) 32) as [-> | _]; [by intros [= <-] |].
      destruct (Z.eqb_spec (Reader.w hdr) 64) as [-> | _]; [by intros [= <-] | done]. }
    destruct Hsz as [Hsz Hpow]. rewrite Hsz in Hdata. rewrite <- Hpow.
    by eapply unpack_words_range. }
  apply (init_segments_memory_values (fun v => 0 <= v < 2 ^ Reader.w hdr)
           _ _ _ _ _ _ Hmem); [| done | by intros ? ?; rewrite lookup_empty].
  split; [done |]. apply Z.pow_pos_nonneg; [lia |].
  assert (Hs : supported_word_size (Reader.w hdr)).
  { unfold Reader._read_data, Reader.read_tag, supported_word_size in *.
    destruct (Z.eqb_spec (Reader.w hdr) 8); [tauto |].
    destruct (Z.eqb_spec (Reader.w hdr) 16); [tauto |].
    destruct (Z.eqb_spec (Reader.w hdr) 32); [tauto |].
    destruct (Z.eqb_spec (Reader.w hdr) 64); [tauto | done]. }
  by apply (w_nonneg hdr).
Qed.

Lemma loaded_words_in_range_witness :
  Reader.__init__ Samples.self_loop_fjm Stop = Ok Samples.self_loop_reader
  /\ supported_word_size (Reader.w Samples.self_loop_reader)
  /\ words_in_range Samples.self_loop_reader.
Proof.
  assert (Hl : Reader.__init__ Samples.self_loop_fjm Stop = Ok Samples.self_loop_reader)
    by (vm_compute; reflexivity).
  split; [exact Hl |]. exact (loaded_words_in_range _ _ _ Hl).
Defined.

Lemma div_mod_offset b w i :
  0 < w -> 0 <= i < w ->
  (b mod w + i < w /\ (b + i) / w = b / w /\ (b + i) mod w = b mod w + i)
  \/ (w <= b mod w + i /\ (b + i) / w = b / w + 1 /\ (b + i) mod w = b mod w + i - w).
Proof.
  intros Hw Hi.
  pose proof (Z.div_mod b w ltac:(lia)) as Hdm.
  pose proof (Z.mod_pos_bound b w Hw) as Hb.
  destruct (Z.lt_ge_cases (b mod w + i) w) as [Hlt | Hge]; [left | right].
  - split; [done |].
    assert (Hq : (b + i) / w = b / w) by (symmetry; apply (Z.div_unique _ _ _ (b mod w + i)); lia).
    split; [done |]. symmetry. apply (Z.mod_unique _ _ (b / w)); lia.
  - split; [done |].
    assert (Hq : (b + i) / w = b / w + 1)
      by (symmetry; apply (Z.div_unique _ _ _ (b mod w + i - w)); lia).
    split; [done |]. symmetry. apply (Z.mod_unique _ _ (b / w + 1)); lia.
Qed.

(** [get_word(b)] reads the [w] bits from bit address [b] on: on a Reader
    whose words have [w] bits, a returned word has [w] bits, its bit [i] is
    bit [(b + i) mod w] of the word at index [(b + i) / w] modulo 2^w, and
    every word reads afterwards as before. *)
Theorem get_word_reads_w_bits (r : Reader.t) (b v : Z) (r' : Reader.t) :
  supported_word_size (Reader.w r) ->
  words_in_range r ->
  Reader.get_word r b = Ok (v, r') ->
  let w := Reader.w r in
  0 <= v < 2 ^ w
  /\ (forall i, 0 <= i < w ->
        Z.testbit v i
        = Z.testbit (word_or_zero r (((b + i) / w) mod 2 ^ w)) ((b + i) mod w))
  /\ (forall x, word_or_zero r' x = word_or_zero r x)
  /\ Reader.w r' = w /\ words_in_range r'.
Proof.
  intros Hw Hrange Hget w.
  destruct (supported_word_size_pow2 _ Hw) as (Hpos & _). fold w in Hpos.
  assert (Hwnn : 0 <= w) by lia.
  assert (Hpow : 0 < 2 ^ w) by (by apply Z.pow_pos_nonneg).
  pose proof (Z.mod_pos_bound b w Hpos) as Hbit.
  pose proof (Z.mod_pos_bound (b / w) (2 ^ w) Hpow) as Haddr.
  unfold Reader.get_word in Hget. rewrite bit_address_decompose_spec in Hget by done.
  fold w in Hget.
  destruct (Z.eqb_spec (b mod w) 0) as [Hb0 | Hb0].
  - destruct (getitem_Ok_view r _ v r' Hw Hget) as (Hv & Hw' & _ & _ & Hsame & Hr').
    fold w in Hv. rewrite Z.mod_mod in Hv by lia.
    split; [subst v; by apply word_or_zero_range |].
    split; [| split; [done | split; [done | by apply Hr']]].
    intros i Hi.
    destruct (div_mod_offset b w i Hpos Hi) as [(_ & -> & ->) | (Hge & _)]; [| lia].
    by rewrite Hv, Hb0.
  - rewrite Z.shiftl_1_l in Hget.
    destruct (Z.eqb_spec ((b / w) mod 2 ^ w) (2 ^ w - 1)) as [| Hnl]; [done |].
    destruct (Reader.getitem r ((b / w) mod 2 ^ w)) as [[lsw r1] |] eqn:H1; [| done].
    cbn [mbind result_bind] in Hget.
    destruct (Reader.getitem r1 ((b / w) mod 2 ^ w + 1)) as [[msw r2] |] eqn:H2; [| done].
    cbn [mbind result_bind mret result_ret] in Hget.
    destruct (getitem_Ok_view r _ lsw r1 Hw H1) as (Hlsw & Hw1 & _ & _ & Hsame1 & Hr1).
    fold w in Hlsw. rewrite Z.mod_mod in Hlsw by lia.
    assert (Hw1' : supported_word_size (Reader.w r1)) by (by rewrite Hw1).
    destruct (getitem_Ok_view r1 _ msw r2 Hw1' H2) as (Hmsw & Hw2 & _ & _ & Hsame2 & Hr2).
    rewrite Hw1 in Hmsw, Hw2. fold w in Hmsw, Hw2.
    rewrite (Z.mod_small ((b / w) mod 2 ^ w + 1)) in Hmsw by lia.
    rewrite Hsame1 in Hmsw.
    injection Hget as <- <-. rewrite Hw2. fold w.
    rewrite land_mask_mod by lia.
    split; [by apply Z.mod_pos_bound |].
    split; [| split; [| split; [done | by apply Hr2, Hr1]]].
    2:{ intros x. by rewrite Hsame2, Hsame1. }
    intros i Hi.
    pose proof (word_or_zero_range r ((b / w) mod 2 ^ w) Hwnn Hrange) as Hlr.
    fold w in Hlr. rewrite <- Hlsw in Hlr.
    rewrite Z.mod_pow2_bits_low, Z.lor_spec, Z.shiftr_spec, Z.shiftl_spec by lia.
    destruct (div_mod_offset b w i Hpos Hi) as [(Hlt & -> & ->) | (Hge & -> & ->)].
    + rewrite (Z.testbit_neg_r msw) by lia. rewrite orb_false_r, <- Hlsw. f_equal. lia.
    + rewrite (testbit_high_false w lsw) by lia. cbn [orb].
      replace ((b / w + 1) mod 2 ^ w) with ((b / w) mod 2 ^ w + 1).
      2:{ rewrite <- (Z.mod_small ((b / w) mod 2 ^ w + 1) (2 ^ w)) by lia.
          rewrite Zplus_mod_idemp_l. done. }
      rewrite <- Hmsw. f_equal. lia.
Qed.

Lemma get_word_reads_w_bits_aux r b v r' :
  supported_word_size (Reader.w r) -> words_in_range r ->
  Reader.get_word r b = Ok (v, r') ->
  Reader.w r' = Reader.w r /\ words_in_range r'.
Proof.
  intros Hw Hrange. unfold Reader.get_word.
  destruct (Reader.bit_address_decompose r b) as [address bit].
  destruct (bit =? 0).
  { intros Hget. destruct (getitem_Ok_view r _ v r' Hw Hget) as (_ & Hw' & _ & _ & _ & Hr).
    split; [done | by apply Hr]. }
  destruct (address =? _); [done |].
  destruct (Reader.getitem r address) as [[lsw r1] |] eqn:H1; [| done].
  cbn [mbind result_bind].
  destruct (Reader.getitem r1 (address + 1)) as [[msw r2] |] eqn:H2; [| done].
  cbn [mbind result_bind mret result_ret]. intros [= _ <-].
  destruct (getitem_Ok_view r _ lsw r1 Hw H1) as (_ & Hw1 & _ & _ & _ & Hr1).
  assert (Hw1' : supported_word_size (Reader.w r1)) by (by rewrite Hw1).
  destruct (getitem_Ok_view r1 _ msw r2 Hw1' H2) as (_ & Hw2 & _ & _ & _ & Hr2).
  split; [congruence | by apply Hr2, Hr1].
Qed.

Lemma get_word_reads_w_bits_witness :
  supported_word_size (Reader.w Samples.self_loop_reader)
  /\ words_in_range Samples.self_loop_reader
  /\ Reader.get_word Samples.self_loop_reader 3 = Ok (3, Samples.self_loop_reader)
  /\ Z.testbit 3 0
     = Z.testbit (word_or_zero Samples.self_loop_reader (((3 + 0) / 8) mod 2 ^ 8))
                 ((3 + 0) mod 8).
Proof.
  assert (Hw : supported_word_size (Reader.w Samples.self_loop_reader)) by (left; reflexivity).
  pose proof self_loop_reader_in_range as Hr.
  assert (Hg : Reader.get_word Samples.self_loop_reader 3 = Ok (3, Samples.self_loop_reader))
    by (vm_compute; reflexivity).
  destruct (get_word_reads_w_bits _ _ _ _ Hw Hr Hg) as (_ & Hbits & _).
  split; [exact Hw |]. split; [exact Hr |]. split; [exact Hg |].
  apply (Hbits 0). simpl. lia.
Defined.

(* ================================================================== *)
(** * Further properties of the Writer *)

Lemma is_segment_collision_true_inv start1 length1 start2 length2 :
  Writer._is_segment_collision start1 (start1 + length1 - 1)
                               start2 (start2 + length2 - 1) = true ->
  start2 <= start1 <= start2 + length2 - 1
  \/ start2 <= start1 + length1 - 1 <= start2 + length2 - 1
  \/ start1 <= start2 <= start1 + length1 - 1
  \/ start1 <= start2 + length2 - 1 <= start1 + length1 - 1.
Proof.
  unfold Writer._is_segment_collision. cbn [existsb].
  repeat match goal with
         | |- context [Z.leb ?x ?y] => destruct (Z.leb_spec x y)
         end; cbn; intros; try discriminate; lia.
Qed.

(** On segments of at least one word the collision test is exact. *)
Lemma is_segment_collision_exact start1 length1 start2 length2 :
  1 <= length1 -> 1 <= length2 ->
  Writer._is_segment_collision start1 (start1 + length1 - 1)
                               start2 (start2 + length2 - 1) = true
  <-> ranges_intersect start1 length1 start2 length2.
Proof.
  intros H1 H2. split; [| apply is_segment_collision_of_intersect].
  intros Hc. apply is_segment_collision_true_inv in Hc.
  destruct Hc as [Hc | [Hc | [Hc | Hc]]].
  - exists start1. lia.
  - exists (start1 + length1 - 1). lia.
  - exists start2. lia.
  - exists (start2 + length2 - 1). lia.
Qed.

Lemma validate_from_Ok_intro word_size n new_start new_length i segs :
  1 <= new_length ->
  Forall (fun seg => 1 <= segment_length seg
                     /\ ~ ranges_intersect (segment_start seg) (segment_length seg)
                                           new_start new_length) segs ->
  Writer.validate_from word_size n new_start new_length (new_start + new_length - 1) i segs
  = Ok tt.
Proof.
  intros Hnew Hall. revert i.
  induction Hall as [| [[[start length] ds] dl] segs [Hlen Hdis] _ IH]; intros i; [done |].
  cbn [Writer.validate_from].
  unfold segment_start, segment_length in Hlen, Hdis. simpl in Hlen, Hdis.
  destruct (Writer._is_segment_collision start (start + length - 1) new_start
              (new_start + new_length - 1)) eqn:Hc; [| apply IH].
  exfalso. apply Hdis. by apply is_segment_collision_exact.
Qed.

(** [add_segment] takes every segment it can take: a segment of at least
    one word with [data_length <= segment_length] that has no word in
    common with the earlier segments, all of at least one word, is appended
    to the segment list, and nothing else of the Writer changes. *)
Theorem add_segment_accepts_disjoint (self : Writer.t)
    (start length data_start data_length : Z) :
  data_length <= length -> 1 <= length ->
  Forall (fun seg => 1 <= segment_length seg
                     /\ ~ ranges_intersect (segment_start seg) (segment_length seg)
                                           start length) (Writer.segments self) ->
  Writer.add_segment self start length data_start data_length
  = Ok (Writer.mk (Writer.output_file self) (Writer.word_size self) (Writer.version self)
          (Writer.flags self) (Writer.reserved self)
          (Writer.segments self ++ [(start, length, data_start, data_length)])
          (Writer.data self)).
Proof.
  intros Hdl Hlen Hall. unfold Writer.add_segment, Writer._validate_segment_not_overlapping.
  destruct (Z.ltb_spec length data_length); [lia |].
  by rewrite validate_from_Ok_intro.
Qed.

Lemma add_segment_accepts_disjoint_witness :
  1 <= 2 <= 2 /\ Writer.add_segment Samples.writer1 4 2 4 1 = Ok Samples.writer2.
Proof.
  split; [lia |].
  apply (add_segment_accepts_disjoint Samples.writer1 4 2 4 1); [lia | lia |].
  constructor; [| constructor].
  unfold segment_start, segment_length. simpl. split; [lia |].
  intros (a & H1 & H2). lia.
Defined.

Lemma validate_from_collision word_size n new_start new_length i segs seg :
  seg ∈ segs ->
  Writer._is_segment_collision (segment_start seg)
      (segment_start seg + segment_length seg - 1)
      new_start (new_start + new_length - 1) = true ->
  exists j bit_start bit_end new_bit_start new_bit_end,
    Writer.validate_from word_size n new_start new_length (new_start + new_length - 1) i segs
    = Raise (FJWriteFjmException
               (OverlappingSegments j bit_start bit_end n new_bit_start new_bit_end)).
Proof.
  intros Hin Hc. revert i.
  induction segs as [| [[[start length] ds] dl] segs IH]; intros i.
  - by apply elem_of_nil in Hin.
  - cbn [Writer.validate_from].
    destruct (Writer._is_segment_collision start (start + length - 1) new_start
                (new_start + new_length - 1)) eqn:Hc'; [eauto 10 |].
    apply elem_of_cons in Hin as [-> | Hin].
    + unfold segment_start, segment_length in Hc. simpl in Hc. congruence.
    + by apply IH.
Qed.

(** A segment of length 0 is treated as if it held its start word and the
    word before it: once a segment of length 0 starting at [start] is in the
    list, a segment of at least one word with
    [new_start <= start <= new_start + new_length] is refused as
    overlapping, although the two have no word in common. *)
Theorem add_segment_refuses_near_empty_segment (self : Writer.t)
    (start d0 l0 new_start new_length data_start data_length : Z) :
  (start, 0, d0, l0) ∈ Writer.segments self ->
  data_length <= new_length -> 1 <= new_length ->
  new_start <= start <= new_start + new_length ->
  ~ ranges_intersect start 0 new_start new_length
  /\ exists i bit_start bit_end new_bit_start new_bit_end,
       Writer.add_segment self new_start new_length data_start data_length
       = Raise (FJWriteFjmException
                  (OverlappingSegments i bit_start bit_end
                     (List.length (Writer.segments self)) new_bit_start new_bit_end)).
Proof.
  intros Hin Hdl Hlen Hnear. split; [intros (a & H1 & _); lia |].
  unfold Writer.add_segment, Writer._validate_segment_not_overlapping.
  destruct (Z.ltb_spec new_length data_length); [lia |].
  destruct (validate_from_collision (Writer.word_size self)
              (List.length (Writer.segments self)) new_start new_length 0%nat
              (Writer.segments self) (start, 0, d0, l0) Hin)
    as (i & bs & be & nbs & nbe & ->).
  - unfold segment_start, segment_length, Writer._is_segment_collision. cbn [fst snd existsb].
    repeat match goal with
           | |- context [Z.leb ?x ?y] => destruct (Z.leb_spec x y)
           end; cbn; try done; lia.
  - cbn [mbind result_bind]. eauto 10.
Qed.

Lemma add_segment_refuses_near_empty_segment_witness :
  Writer.add_segment Samples.writer0 5 0 0 0 = Ok Samples.empty_segment_writer
  /\ (5, 0, 0, 0) ∈ Writer.segments Samples.empty_segment_writer
  /\ 3 <= 5 <= 3 + 2
  /\ ~ ranges_intersect 5 0 3 2
  /\ is_Ok (Writer.add_segment Samples.empty_segment_writer 3 2 0 0) = false.
Proof.
  assert (Hin : (5, 0, 0, 0) ∈ Writer.segments Samples.empty_segment_writer)
    by (simpl; left).
  destruct (add_segment_refuses_near_empty_segment Samples.empty_segment_writer
              5 0 0 3 2 0 0 Hin) as (Hno & i & bs & be & nbs & nbe & Hraise);
    [lia | lia | lia |].
  split; [reflexivity |]. split; [exact Hin |]. split; [lia |].
  split; [exact Hno |]. rewrite Hraise. reflexivity.
Defined.

Lemma image_app_outside segs1 segs2 data a :
  Forall (fun seg => data_length seg <= segment_length seg) segs1 ->
  Forall (fun seg => 0 <= data_length seg) segs1 ->
  (forall seg, seg ∈ segs1 -> ~ in_segment seg a) ->
  image (segs1 ++ segs2) data a = image segs2 data a.
Proof.
  induction segs1 as [| [[[ss sl] ds] dl] segs1 IH]; intros Hle Hnn Hout; [done |].
  inversion Hle as [| ? ? Hle1 Hle']; subst. inversion Hnn as [| ? ? Hnn1 Hnn']; subst.
  unfold data_length, segment_length in Hle1, Hnn1. simpl in Hle1, Hnn1.
  pose proof (Hout (ss, sl, ds, dl) ltac:(left)) as Hnot.
  unfold in_segment, segment_start, segment_length in Hnot. simpl in Hnot.
  cbn [app image].
  destruct (Z.leb_spec ss a), (Z.ltb_spec a (ss + dl)), (Z.leb_spec (ss + dl) a),
           (Z.ltb_spec a (ss + sl)); simpl; try lia;
    apply IH; try done; intros seg Hseg; apply Hout; by right.
Qed.

(** The words given to [add_simple_segment_with_data] are the words the
    Reader shows: when the call returns, the words are appended to the data
    and a segment of their length is appended to the table; and when the
    file written afterwards loads, the Reader shows word [i] of the list at
    word address [segment_start + i]. *)
Theorem simple_segment_round_trip (self : Writer.t) (segment_start : Z)
    (data : list Z) (self' : Writer.t) (file : list byte)
    (garbage_handling : GarbageHandling) (r : Reader.t) :
  writer_reachable self ->
  Writer.add_simple_segment_with_data self segment_start data = Ok self' ->
  Writer.write_to_file self' = Ok file ->
  Reader.__init__ file garbage_handling = Ok r ->
  Writer.data self' = Writer.data self ++ data
  /\ Writer.segments self'
     = Writer.segments self
       ++ [(segment_start, Z.of_nat (List.length data),
            Z.of_nat (List.length (Writer.data self)), Z.of_nat (List.length data))]
  /\ forall (i : nat) word,
       data !! i = Some word -> word_view r (segment_start + Z.of_nat i) = Some word.
Proof.
  intros Hreach Hadd Hfile Hinit.
  assert (Hreach' : writer_reachable self')
    by (by eapply reach_add_simple_segment_with_data).
  unfold Writer.add_simple_segment_with_data in Hadd. cbn [Writer.add_data] in Hadd.
  destruct (add_segment_Ok _ _ _ _ _ _ Hadd) as (_ & Hnew & Hsegs).
  cbn [Writer.segments] in Hnew, Hsegs.
  assert (Hdata : Writer.data self' = Writer.data self ++ data).
  { revert Hadd. unfold Writer.add_segment.
    destruct (_ <? _); [done |].
    destruct (Writer._validate_segment_not_overlapping _ _ _); [| done].
    cbn [mbind result_bind mret result_ret]. by intros [= <-]. }
  split; [done |]. split; [done |].
  intros i word Hi.
  assert (Hver : Writer.version self' <= 1).
  { destruct (Z.le_gt_cases (Writer.version self') 1) as [| Hgt]; [done |].
    rewrite (written_version_rejected_holds self' file garbage_handling Hfile) in Hinit by lia.
    done. }
  destruct (written_image_loads_holds self' file garbage_handling Hreach' Hfile Hver)
    as [Hload Hfail].
  assert (Hdec : Decision (data_in_bounds (Writer.segments self') (Writer.data self')))
    by (unfold data_in_bounds; apply _).
  destruct Hdec as [Hfit | Hbad]; [| by rewrite (Hfail Hbad) in Hinit].
  destruct (Hload Hfit) as (r0 & Hinit0 & _ & _ & Hview).
  rewrite Hinit in Hinit0. injection Hinit0 as <-.
  rewrite Hview, Hsegs, Hdata.
  pose proof (writer_reachable_valid _ Hreach) as [_ Hle].
  apply lookup_lt_Some in Hi as Hlt.
  assert (Hnn : segments_nonneg (Writer.segments self')).
  { revert Hfile. unfold Writer.write_to_file.
    destruct (Writer.write_tag _); [| done]. cbn [mbind result_bind].
    destruct (pack header_base_format _); [| done]. cbn [mbind result_bind].
    destruct (if Writer.version self' >? 0 then _ else _); [| done].
    cbn [mbind result_bind].
    destruct (Writer.write_segments _) eqn:Hws; [| done]. intros _.
    by eapply write_segments_nonneg. }
  rewrite Hsegs in Hnn. apply Forall_app in Hnn as [Hnn _].
  rewrite image_app_outside; try done.
  - cbn [image].
    destruct (Z.leb_spec segment_start (segment_start + Z.of_nat i)); [| lia].
    destruct (Z.ltb_spec (segment_start + Z.of_nat i)
                (segment_start + Z.of_nat (List.length data))); [| lia].
    cbn [andb].
    replace (Z.to_nat (Z.of_nat (List.length (Writer.data self))
                       + (segment_start + Z.of_nat i - segment_start)))
      with (List.length (Writer.data self) + i)%nat by lia.
    by rewrite lookup_app_r, Nat.add_comm, Nat.add_sub by lia.
  - eapply Forall_impl; [exact Hnn |]. intros seg Hs. apply Hs.
  - intros seg Hseg Ha. rewrite Forall_forall in Hnew.
    apply (Hnew seg Hseg). exists (segment_start + Z.of_nat i).
    unfold in_segment in Ha. split; [done | lia].
Qed.

Lemma simple_segment_round_trip_witness :
  writer_reachable Samples.writer0
  /\ Writer.add_simple_segment_with_data Samples.writer0 0 [24; 0; 0; 0]
     = Ok Samples.self_loop_writer
  /\ Writer.write_to_file Samples.self_loop_writer = Ok Samples.self_loop_fjm
  /\ Reader.__init__ Samples.self_loop_fjm Stop = Ok Samples.self_loop_reader
  /\ word_view Samples.self_loop_reader (0 + Z.of_nat 0) = Some 24.
Proof.
  assert (H0 : writer_reachable Samples.writer0)
    by (apply (reach_init "out.fjm" 8 0 0); reflexivity).
  assert (H1 : Writer.add_simple_segment_with_data Samples.writer0 0 [24; 0; 0; 0]
               = Ok Samples.self_loop_writer) by reflexivity.
  assert (H2 : Writer.write_to_file Samples.self_loop_writer = Ok Samples.self_loop_fjm)
    by (vm_compute; reflexivity).
  assert (H3 : Reader.__init__ Samples.self_loop_fjm Stop = Ok Samples.self_loop_reader)
    by (vm_compute; reflexivity).
  destruct (simple_segment_round_trip _ _ _ _ _ _ _ H0 H1 H2 H3) as (_ & _ & Hwords).
  split; [exact H0 |]. split; [exact H1 |]. split; [exact H2 |]. split; [exact H3 |].
  apply (Hwords 0%nat 24). reflexivity.
Defined.

(* ================================================================== *)
(** * Further properties of the standard device *)

(** ** Input *)

Lemma low_bits_S n x : low_bits (S n) x = Z.testbit x 0 :: low_bits n (Z.shiftr x 1).
Proof.
  unfold low_bits. cbn [seq map]. f_equal.
  rewrite <- seq_shift, map_map. apply map_ext. intros k.
  rewrite Z.shiftr_spec by lia. f_equal. lia.
Qed.

(** Reading bits that are pending. *)
Lemma read_bits_pending n self :
  Z.of_nat n <= StandardIO.bits_to_read_in_input_byte self ->
  StandardIO.read_bits n self
  = Ok (low_bits n (StandardIO.current_input_byte self),
        StandardIO.mk (StandardIO.output_verbose self) (StandardIO._output self)
          (Z.shiftr (StandardIO.current_input_byte self) (Z.of_nat n))
          (StandardIO.bits_to_read_in_input_byte self - Z.of_nat n)
          (StandardIO.current_output_byte self)
          (StandardIO.bits_to_write_in_output_byte self)
          (StandardIO.stdin self) (StandardIO.stdout self)).
Proof.
  revert self. induction n as [| n IH]; intros self Hn.
  - cbn [StandardIO.read_bits low_bits seq map]. rewrite Z.shiftr_0_r, Z.sub_0_r.
    by destruct self.
  - cbn [StandardIO.read_bits]. unfold StandardIO.read_bit.
    destruct (Z.eqb_spec 0 (StandardIO.bits_to_read_in_input_byte self)); [lia |].
    cbn [mbind result_bind mret result_ret].
    rewrite IH by (cbn [StandardIO.bits_to_read_in_input_byte]; lia).
    cbn [mbind result_bind mret result_ret StandardIO.current_input_byte
         StandardIO.bits_to_read_in_input_byte StandardIO.output_verbose StandardIO._output
         StandardIO.current_output_byte StandardIO.bits_to_write_in_output_byte
         StandardIO.stdin StandardIO.stdout].
    rewrite low_bits_S, Z.shiftr_shiftr by lia.
    replace (Z.land (StandardIO.current_input_byte self) 1 =? 1)
      with (Z.testbit (StandardIO.current_input_byte self) 0).
    2:{ pose proof (shiftr_land_1 (StandardIO.current_input_byte self) 0 ltac:(lia)) as Hb.
        rewrite Z.shiftr_0_r in Hb. rewrite Hb. by destruct (Z.testbit _ 0). }
    replace (Z.of_nat (S n)) with (1 + Z.of_nat n) by lia.
    replace (StandardIO.bits_to_read_in_input_byte self - 1 - Z.of_nat n)
      with (StandardIO.bits_to_read_in_input_byte self - (1 + Z.of_nat n)) by lia.
    done.
Qed.

Lemma first_encoded_byte_range c : 0 <= c -> 0 <= StandardIO.first_encoded_byte c < 256.
Proof. intros Hc. unfold StandardIO.first_encoded_byte. destruct (Z.ltb_spec c 256); lia. Qed.

Lemma read_bits_S n self :
  StandardIO.read_bits (S n) self
  = ('(bit, self) ← StandardIO.read_bit self;
     '(bits, self) ← StandardIO.read_bits n self;
     mret (bit :: bits, self)).
Proof. reflexivity. Qed.

(** One character of input is eight bits. *)
Lemma read_bits_char output_verbose c rest :
  0 <= c ->
  StandardIO.read_bits 8 (StandardIO.__init__ output_verbose (c :: rest))
  = Ok (low_bits 8 (StandardIO.first_encoded_byte c),
        StandardIO.__init__ output_verbose rest).
Proof.
  intros Hc. pose proof (first_encoded_byte_range c Hc) as Hr.
  rewrite (read_bits_S 7). unfold StandardIO.read_bit at 1.
  cbn [StandardIO.__init__ StandardIO.bits_to_read_in_input_byte StandardIO.stdin Z.eqb
       mbind result_bind mret result_ret StandardIO.current_input_byte
       StandardIO.output_verbose StandardIO._output StandardIO.current_output_byte
       StandardIO.bits_to_write_in_output_byte StandardIO.stdout].
  rewrite read_bits_pending by (cbn [StandardIO.bits_to_read_in_input_byte]; lia).
  cbn [mbind result_bind mret result_ret StandardIO.current_input_byte
       StandardIO.bits_to_read_in_input_byte StandardIO.output_verbose StandardIO._output
       StandardIO.current_output_byte StandardIO.bits_to_write_in_output_byte
       StandardIO.stdin StandardIO.stdout].
  set (x := StandardIO.first_encoded_byte c) in *.
  assert (Hbit : (Z.land x 1 =? 1) = Z.testbit x 0).
  { pose proof (shiftr_land_1 x 0 ltac:(lia)) as Hb.
    rewrite Z.shiftr_0_r in Hb. rewrite Hb. by destruct (Z.testbit _ 0). }
  assert (Hzero : Z.shiftr (Z.shiftr x 1) (Z.of_nat 7) = 0).
  { rewrite Z.shiftr_shiftr by lia. change (1 + Z.of_nat 7) with 8.
    rewrite Z.shiftr_div_pow2 by lia. apply Z.div_small. change (2 ^ 8) with 256. lia. }
  rewrite Hbit, Hzero, (low_bits_S 7 x). reflexivity.
Qed.

Lemma read_bits_app n1 n2 self :
  StandardIO.read_bits (n1 + n2) self
  = ('(bits1, self1) ← StandardIO.read_bits n1 self;
     '(bits2, self2) ← StandardIO.read_bits n2 self1;
     mret (bits1 ++ bits2, self2)).
Proof.
  revert self. induction n1 as [| n1 IH]; intros self.
  - cbn [Nat.add StandardIO.read_bits mbind result_bind mret result_ret].
    destruct (StandardIO.read_bits n2 self) as [[bits2 self2] |]; done.
  - cbn [Nat.add StandardIO.read_bits].
    destruct (StandardIO.read_bit self) as [[bit self0] |]; [| done].
    cbn [mbind result_bind mret result_ret]. rewrite IH.
    destruct (StandardIO.read_bits n1 self0) as [[bits1 self1] |]; [| done].
    cbn [mbind result_bind mret result_ret].
    destruct (StandardIO.read_bits n2 self1) as [[bits2 self2] |]; done.
Qed.

Lemma input_bits_lsb_first_aux output_verbose chars :
  Forall (fun c => 0 <= c) chars ->
  StandardIO.read_bits (8 * List.length chars) (StandardIO.__init__ output_verbose chars)
  = Ok (flat_map (fun c => low_bits 8 (StandardIO.first_encoded_byte c)) chars,
        StandardIO.__init__ output_verbose []).
Proof.
  intros Hchars. induction Hchars as [| c chars Hc _ IH].
  - reflexivity.
  - replace (8 * List.length (c :: chars))%nat with (8 + 8 * List.length chars)%nat
      by (cbn [List.length]; lia).
    rewrite read_bits_app, read_bits_char by done.
    cbn [mbind result_bind mret result_ret]. rewrite IH.
    cbn [mbind result_bind mret result_ret flat_map]. done.
Qed.

(** The input is read bit by bit, eight bits per character, lowest bit
    first: from a new device whose input holds the characters [chars], the
    first 8 * len(chars) calls of [read_bit] return, for each character in
    turn, the eight bits of its byte (the character itself below 256, the
    backslash of its escape otherwise), and the next call raises
    [IOReadOnEOF]. *)
Theorem input_bits_lsb_first (output_verbose : bool) (chars : list Z) :
  Forall (fun c => 0 <= c) chars ->
  StandardIO.read_bits (8 * List.length chars) (StandardIO.__init__ output_verbose chars)
  = Ok (flat_map (fun c => low_bits 8 (StandardIO.first_encoded_byte c)) chars,
        StandardIO.__init__ output_verbose [])
  /\ StandardIO.read_bit (StandardIO.__init__ output_verbose []) = Raise IOReadOnEOF.
Proof.
  intros Hchars. split; [by apply input_bits_lsb_first_aux | reflexivity].
Qed.

Lemma input_bits_lsb_first_witness :
  Forall (fun c => 0 <= c) [65]
  /\ StandardIO.read_bits (8 * List.length [65]) (StandardIO.__init__ false [65])
     = Ok ([true; false; false; false; false; false; true; false],
           StandardIO.__init__ false []).
Proof.
  assert (Hc : Forall (fun c => 0 <= c) [65]) by (constructor; [lia | constructor]).
  split; [exact Hc |]. exact (proj1 (input_bits_lsb_first false [65] Hc)).
Defined.

(** ** Input to output *)

Lemma length_low_bits n x : List.length (low_bits n x) = n.
Proof. unfold low_bits. by rewrite length_map, length_seq. Qed.

Lemma nth_low_bits n x k : (k < n)%nat -> nth k (low_bits n x) false = Z.testbit x (Z.of_nat k).
Proof.
  intros Hk. unfold low_bits.
  rewrite (nth_indep _ false (Z.testbit x (Z.of_nat 0))) by (by rewrite length_map, length_seq).
  rewrite (map_nth (fun k => Z.testbit x (Z.of_nat k))), seq_nth by done. done.
Qed.

Lemma nth_flat_map_low_bits (f : Z -> Z) chars (j k : nat) d :
  (j < List.length chars)%nat -> (k < 8)%nat ->
  nth (8 * j + k) (flat_map (fun c => low_bits 8 (f c)) chars) false
  = Z.testbit (f (nth j chars d)) (Z.of_nat k).
Proof.
  revert j. induction chars as [| c chars IH]; intros j Hj Hk; [simpl in Hj; lia |].
  cbn [flat_map]. destruct j as [| j].
  - rewrite app_nth1 by (rewrite length_low_bits; lia).
    replace (8 * 0 + k)%nat with k by lia. by rewrite nth_low_bits.
  - rewrite app_nth2 by (rewrite length_low_bits; lia).
    rewrite length_low_bits.
    replace (8 * S j + k - 8)%nat with (8 * j + k)%nat by lia.
    cbn [nth]. apply IH; [simpl in Hj; lia | done].
Qed.

Lemma byte_value_inj b1 b2 :
  Z.of_N (Byte.to_N b1) = Z.of_N (Byte.to_N b2) -> b1 = b2.
Proof.
  intros Heq. rewrite <- (byte_of_Z_to_N b1), <- (byte_of_Z_to_N b2). by rewrite Heq.
Qed.

(** What is read from the input and written to the output comes out as it
    went in: the bits read from a new device for all the characters of the
    input, written back to the device in the same order, give as output the
    bytes of the characters. *)
Theorem input_bits_written_back (output_verbose : bool) (chars : list Z) :
  Forall (fun c => 0 <= c) chars ->
  exists bits dev1 dev2,
    StandardIO.read_bits (8 * List.length chars) (StandardIO.__init__ output_verbose chars)
    = Ok (bits, dev1)
    /\ StandardIO.write_bits dev1 bits = Ok dev2
    /\ StandardIO.get_output dev2
       = Ok (map (fun c => byte_of_Z (StandardIO.first_encoded_byte c)) chars).
Proof.
  intros Hchars.
  pose proof (input_bits_lsb_first_aux output_verbose chars Hchars) as Hread.
  set (bits := flat_map (fun c => low_bits 8 (StandardIO.first_encoded_byte c)) chars) in *.
  destruct (write_bits_written output_verbose [] bits) as (dev2 & Hwrite & Hinv).
  exists bits, (StandardIO.__init__ output_verbose []), dev2.
  split; [done |]. split; [done |].
  assert (Hlen : Z.of_nat (List.length bits) = 8 * Z.of_nat (List.length chars)).
  { unfold bits. clear. induction chars as [| c chars IH]; [done |].
    cbn [flat_map List.length]. rewrite length_app, length_low_bits. lia. }
  destruct Hinv as (Hpending & _ & _ & Hout_len & Hout_bits).
  rewrite Hlen in Hpending, Hout_len, Hout_bits.
  replace (8 * Z.of_nat (List.length chars)) with (Z.of_nat (List.length chars) * 8)
    in Hpending, Hout_len, Hout_bits by lia.
  rewrite Z.mod_mul in Hpending by lia. rewrite Z.div_mul in Hout_len, Hout_bits by lia.
  unfold StandardIO.get_output. rewrite Hpending. cbn [Z.eqb negb]. f_equal.
  apply (nth_ext _ _ x00 x00); [rewrite length_map; lia |].
  intros j Hj. assert (Hj' : (j < List.length chars)%nat) by lia.
  rewrite (nth_indep (map _ chars) x00
             (byte_of_Z (StandardIO.first_encoded_byte 0))) by (by rewrite length_map).
  rewrite (map_nth (fun c => byte_of_Z (StandardIO.first_encoded_byte c))).
  apply byte_value_inj.
  assert (Hc : 0 <= nth j chars 0).
  { rewrite Forall_forall in Hchars. apply Hchars, list_elem_of_In, nth_In. done. }
  pose proof (first_encoded_byte_range _ Hc) as Hrange.
  rewrite byte_of_Z_value by done.
  apply Z.bits_inj'. intros k Hk.
  destruct (Z.lt_ge_cases k 8) as [Hlt | Hge].
  - pose proof (Hout_bits (Z.of_nat j) k ltac:(lia) ltac:(lia)) as Hb.
    rewrite Nat2Z.id in Hb. rewrite Hb.
    replace (Z.to_nat (8 * Z.of_nat j + k)) with (8 * j + Z.to_nat k)%nat by lia.
    unfold bits. rewrite (nth_flat_map_low_bits _ chars j (Z.to_nat k) 0) by lia.
    by rewrite Z2Nat.id by lia.
  - rewrite (testbit_high_false 8 _ k) by (done || apply byte_value_range).
    symmetry. by apply (testbit_high_false 8).
Qed.

Lemma input_bits_written_back_witness :
  Forall (fun c => 0 <= c) [65]
  /\ exists bits dev1 dev2,
       StandardIO.read_bits (8 * List.length [65]) (StandardIO.__init__ false [65])
       = Ok (bits, dev1)
       /\ StandardIO.write_bits dev1 bits = Ok dev2
       /\ StandardIO.get_output dev2 = Ok [x41].
Proof.
  assert (Hc : Forall (fun c => 0 <= c) [65]) by (constructor; [lia | constructor]).
  split; [exact Hc |]. exact (input_bits_written_back false [65] Hc).
Defined.

(* ================================================================== *)
(** * Further properties of the interpreter *)

Section InterpreterMoreFacts.

Context {D St B : Type}
        {device : IODevice D} {stats : RunStatistics St}
        {hook : BreakpointHandler B St}.

(** The end of the input ends the run: in an iteration whose instruction
    lies over the input address, when the device raises [IOReadOnEOF] the
    iteration, and so [run], returns with cause [EOF] and the statistics of
    the operations before this one; the bit is not flipped and the
    operation is not registered. *)
Theorem iteration_end_of_input w (s : FjmRun.state (D := D) (St := St) (B := B))
    bh m0 st0 flip_address m1 io1 :
  FjmRun.handle_breakpoints s = Ok (bh, m0, st0) ->
  Reader.get_word m0 (FjmRun.ip s) = Ok (flip_address, m1) ->
  FjmRun.handle_output flip_address (FjmRun.io_device s) w = Ok io1 ->
  FjmRun.ip s <= FjmRun.in_addr (Reader.w m1) < FjmRun.ip s + 2 * Reader.w m1 ->
  io_read_bit io1 = Raise IOReadOnEOF ->
  FjmRun.iteration w s = Ok (FjmRun.Return (FjmRun.TerminationStatistics_init st0 EOF))
  /\ forall fuel,
       FjmRun.loop (S fuel) w s = Ok (Some (FjmRun.TerminationStatistics_init st0 EOF)).
Proof.
  intros Hb Hf Ho Hin Heof.
  assert (Hit : FjmRun.iteration w s
                = Ok (FjmRun.Return (FjmRun.TerminationStatistics_init st0 EOF))).
  { unfold FjmRun.iteration. rewrite Hb. cbn [mbind result_bind]. rewrite Hf.
    cbn [mbind result_bind]. rewrite Ho. cbn [mbind result_bind].
    unfold FjmRun.handle_input.
    destruct (Z.leb_spec (FjmRun.ip s) (FjmRun.in_addr (Reader.w m1))); [| lia].
    destruct (Z.ltb_spec (FjmRun.in_addr (Reader.w m1)) (FjmRun.ip s + 2 * Reader.w m1));
      [| lia].
    cbn [andb]. rewrite Heof. done. }
  split; [done |]. intros fuel. cbn [FjmRun.loop]. by rewrite Hit.
Qed.

(** A jump into memory that is in no segment is not a termination cause:
    under the policy [Stop], with which [run] loads the image, an iteration
    at a word-aligned [ip] whose word is not shown raises the exception of
    the garbage read, and so does [run]. *)
Theorem iteration_garbage_instruction w (s : FjmRun.state (D := D) (St := St) (B := B))
    bh m0 st0 :
  FjmRun.handle_breakpoints s = Ok (bh, m0, st0) ->
  supported_word_size (Reader.w m0) ->
  Reader.garbage_handling m0 = Stop ->
  FjmRun.ip s mod Reader.w m0 = 0 ->
  word_view m0 ((FjmRun.ip s / Reader.w m0) mod 2 ^ Reader.w m0) = None ->
  let e := FJReadFjmException
             (ReadingGarbageWord ((FjmRun.ip s / Reader.w m0) mod 2 ^ Reader.w m0) 0) in
  FjmRun.iteration w s = Raise e
  /\ forall fuel, FjmRun.loop (S fuel) w s = Raise e.
Proof.
  intros Hb Hw Hstop Hal Hnone e.
  assert (Hword : Reader.get_word m0 (FjmRun.ip s) = Raise e).
  { unfold Reader.get_word. rewrite bit_address_decompose_spec by done.
    rewrite Hal. cbn [Z.eqb].
    destruct (getitem_reads_view_holds m0 ((FjmRun.ip s / Reader.w m0) mod 2 ^ Reader.w m0) Hw)
      as (_ & Hraise & _).
    assert (Hpow : 0 < 2 ^ Reader.w m0)
      by (apply Z.pow_pos_nonneg; [lia | by apply w_nonneg]).
    rewrite Z.mod_mod in Hraise by lia. by apply Hraise. }
  assert (Hit : FjmRun.iteration w s = Raise e).
  { unfold FjmRun.iteration. rewrite Hb. cbn [mbind result_bind]. by rewrite Hword. }
  split; [done |]. intros fuel. cbn [FjmRun.loop]. by rewrite Hit.
Qed.

Lemma handle_input_keeps_shape (io : D) ip mem io' mem' :
  supported_word_size (Reader.w mem) ->
  FjmRun.handle_input io ip mem = Ok (io', mem') ->
  Reader.w mem' = Reader.w mem /\ (words_in_range mem -> words_in_range mem').
Proof.
  intros Hw. unfold FjmRun.handle_input.
  destruct (_ && _); [| by intros [= <- <-]].
  destruct (io_read_bit io) as [[bit io1] |]; [| done]. cbn [mbind result_bind].
  destruct (Reader.write_bit mem _ bit) as [mem1 |] eqn:Hwr; [| done].
  cbn [mbind result_bind mret result_ret]. intros [= <- <-].
  destruct (write_bit_changes_one_bit_holds _ _ _ _ Hw Hwr) as (Hw1 & _ & _ & Hr). done.
Qed.

(** The interpreter keeps the shape of the memory: in a run without a
    breakpoint handler, on a memory whose words have [w] bits, an iteration
    that goes on leaves a memory of the same word size whose words have [w]
    bits, and goes on at an address of at least [2w]. *)
Theorem iteration_keeps_memory_shape w (s s' : FjmRun.state (D := D) (St := St) (B := B)) :
  FjmRun.breakpoint_handler s = None ->
  supported_word_size (Reader.w (FjmRun.mem s)) ->
  words_in_range (FjmRun.mem s) ->
  FjmRun.iteration w s = Ok (FjmRun.Next s') ->
  FjmRun.breakpoint_handler s' = None
  /\ Reader.w (FjmRun.mem s') = Reader.w (FjmRun.mem s)
  /\ words_in_range (FjmRun.mem s')
  /\ 2 * w <= FjmRun.ip s'.
Proof.
  intros Hbp Hw Hrange. unfold FjmRun.iteration, FjmRun.handle_breakpoints.
  rewrite Hbp. cbn [mbind result_bind mret result_ret].
  destruct (Reader.get_word (FjmRun.mem s) (FjmRun.ip s)) as [[flip_address m1] |] eqn:Hf;
    [| done].
  cbn [mbind result_bind].
  destruct (FjmRun.handle_output _ _ _) as [io1 |]; [| done]. cbn [mbind result_bind].
  destruct (get_word_reads_w_bits_aux _ _ _ _ Hw Hrange Hf) as (Hw1 & Hr1).
  assert (Hw1' : supported_word_size (Reader.w m1)) by (by rewrite Hw1).
  destruct (FjmRun.handle_input io1 (FjmRun.ip s) m1) as [[io2 m2] | e] eqn:Hi.
  2:{ by destruct e. }
  destruct (handle_input_keeps_shape _ _ _ _ _ Hw1' Hi) as (Hw2 & Hr2).
  assert (Hw2' : supported_word_size (Reader.w m2)) by (by rewrite Hw2).
  destruct (Reader.read_bit m2 flip_address) as [[bit m3] |] eqn:Hrb; [| done].
  cbn [mbind result_bind].
  destruct (read_bit_Ok_view _ _ _ _ Hw2' Hrb) as (_ & Hw3 & _ & _ & _ & Hr3).
  assert (Hw3' : supported_word_size (Reader.w m3)) by (by rewrite Hw3).
  destruct (Reader.write_bit m3 flip_address (bit =? 0)) as [m4 |] eqn:Hwb; [| done].
  cbn [mbind result_bind].
  destruct (write_bit_changes_one_bit_holds _ _ _ _ Hw3' Hwb) as (Hw4 & _ & _ & Hr4).
  assert (Hw4' : supported_word_size (Reader.w m4)) by (by rewrite Hw4).
  destruct (Reader.get_word m4 (FjmRun.ip s + w)) as [[jump_address m5] |] eqn:Hj; [| done].
  cbn [mbind result_bind mret result_ret].
  destruct (get_word_reads_w_bits_aux _ _ _ _ Hw4' (Hr4 (Hr3 (Hr2 Hr1))) Hj) as (Hw5 & Hr5).
  unfold FjmRun.check_finish.
  destruct (_ && negb _); [done |].
  destruct (Z.ltb_spec jump_address (2 * w)); [done |].
  intros [= <-]. cbn [FjmRun.breakpoint_handler FjmRun.mem FjmRun.ip].
  split; [done |]. split; [congruence |]. split; [done | lia].
Qed.

End InterpreterMoreFacts.

Lemma iteration_end_of_input_witness :
  FjmRun.iteration 8 Samples.input_state
  = Ok (FjmRun.Return (FjmRun.mkTerminationStatistics 0 0 0 EOF))
  /\ FjmRun.loop 1 8 Samples.input_state
     = Ok (Some (FjmRun.mkTerminationStatistics 0 0 0 EOF)).
Proof.
  destruct (iteration_end_of_input 8 Samples.input_state
              None Samples.self_loop_reader 0 0 Samples.self_loop_reader
              (Samples.console [])) as [Hit Hrun].
  - reflexivity.
  - vm_compute. reflexivity.
  - vm_compute. reflexivity.
  - vm_compute. split; [discriminate | reflexivity].
  - vm_compute. reflexivity.
  - split; [exact Hit | exact (Hrun 0%nat)].
Defined.

Lemma iteration_garbage_instruction_witness :
  word_view Samples.self_loop_reader 4 = None
  /\ FjmRun.iteration 8 Samples.outside_state
     = Raise (FJReadFjmException (ReadingGarbageWord 4 0))
  /\ FjmRun.loop 1 8 Samples.outside_state
     = Raise (FJReadFjmException (ReadingGarbageWord 4 0)).
Proof.
  assert (Hnone : word_view Samples.self_loop_reader 4 = None) by (vm_compute; reflexivity).
  destruct (iteration_garbage_instruction 8 Samples.outside_state
              None Samples.self_loop_reader 0) as [Hit Hrun].
  - reflexivity.
  - left. reflexivity.
  - reflexivity.
  - reflexivity.
  - exact Hnone.
  - split; [exact Hnone |]. split; [exact Hit | exact (Hrun 0%nat)].
Defined.

Lemma jump_reader_in_range : words_in_range Samples.jump_reader.
Proof.
  intros a v. unfold Samples.jump_reader, Samples.self_loop_memory.
  cbn [Reader.memory Reader.w].
  intros Hl. repeat (apply lookup_insert_Some in Hl as [[_ <-] | [_ Hl]]; [lia |]).
  by rewrite lookup_empty in Hl.
Defined.

Lemma iteration_keeps_memory_shape_witness :
  exists s',
    FjmRun.iteration 8 Samples.jump_state = Ok (FjmRun.Next s')
    /\ FjmRun.ip s' = 16
    /\ FjmRun.breakpoint_handler s' = None
    /\ Reader.w (FjmRun.mem s') = 8
    /\ words_in_range (FjmRun.mem s')
    /\ 2 * 8 <= FjmRun.ip s'.
Proof.
  eexists. split; [vm_compute; reflexivity |]. split; [reflexivity |].
  eapply (iteration_keeps_memory_shape 8 Samples.jump_state).
  - reflexivity.
  - left. reflexivity.
  - exact jump_reader_in_range.
  - vm_compute. reflexivity.
Defined.

(* ================================================================== *)
(** * Further properties of the parser *)

(** ** Parameters of a macro *)

Lemma syntax_error_idemp g : FJParser.syntax_error (FJParser.syntax_error g) = FJParser.syntax_error g.
Proof. reflexivity. Qed.

(** A loop whose body calls [syntax_error] under a condition. *)
Lemma fold_left_syntax_error {A} (c : A -> bool) (l : list A) g :
  fold_left (fun g x => if c x then FJParser.syntax_error g else g) l g
  = if existsb c l then FJParser.syntax_error g else g.
Proof.
  revert g. induction l as [| x l IH]; intros g; [done |].
  cbn [fold_left existsb]. rewrite IH. destruct (c x); cbn [orb]; [| done].
  by destruct (existsb c l).
Qed.

Lemma fold_left_pointwise {A B} (f f' : A -> B -> A) (l : list B) (a : A) :
  (forall a b, f a b = f' a b) -> fold_left f l a = fold_left f' l a.
Proof.
  intros Hf. revert a. induction l as [| b l IH]; intros a; [done |].
  cbn [fold_left]. by rewrite Hf, IH.
Qed.

Lemma check_params_eq defs ids g :
  FJParser.check_params defs ids g
  = if existsb (FJParser.is_defined defs) ids
       || existsb (fun i1 => existsb (FJParser.same_id ids i1) (seq 0 i1))
                  (seq 0 (List.length ids))
    then FJParser.syntax_error g else g.
Proof.
  unfold FJParser.check_params. rewrite fold_left_syntax_error.
  rewrite (fold_left_pointwise _
             (fun g i1 => if existsb (FJParser.same_id ids i1) (seq 0 i1)
                          then FJParser.syntax_error g else g)).
  2:{ intros g' i1. apply fold_left_syntax_error. }
  rewrite fold_left_syntax_error.
  destruct (existsb (FJParser.is_defined defs) ids); cbn [orb]; [| done].
  by destruct (existsb _ (seq 0 (List.length ids))).
Qed.

Lemma same_id_exists_iff (ids : list string) :
  existsb (fun i1 => existsb (FJParser.same_id ids i1) (seq 0 i1)) (seq 0 (List.length ids))
  = true
  <-> ~ NoDup ids.
Proof.
  rewrite NoDup_alt. split.
  - intros Hex Hnodup. apply existsb_exists in Hex as (i1 & _ & Hex).
    apply existsb_exists in Hex as (i2 & Hi2 & Hsame).
    apply in_seq in Hi2. unfold FJParser.same_id in Hsame.
    destruct (ids !! i1) as [a |] eqn:H1; [| done].
    destruct (ids !! i2) as [b |] eqn:H2; [| done].
    apply String.eqb_eq in Hsame as ->.
    pose proof (Hnodup i1 i2 b H1 H2). lia.
  - intros Hdup. destruct (existsb _ (seq 0 (List.length ids))) eqn:Hex; [done |].
    exfalso. apply Hdup. intros i j x Hi Hj.
    assert (Hno : forall i1 i2, (i2 < i1)%nat -> ids !! i1 = Some x -> ids !! i2 = Some x -> False).
    { intros i1 i2 Hlt H1 H2.
      assert (Hin1 : In i1 (seq 0 (List.length ids))).
      { apply in_seq. apply lookup_lt_Some in H1. lia. }
      rewrite <- not_true_iff_false in Hex. apply Hex.
      apply existsb_exists. exists i1. split; [done |].
      apply existsb_exists. exists i2. split; [apply in_seq; lia |].
      unfold FJParser.same_id. rewrite H1, H2. apply String.eqb_refl. }
    destruct (Nat.lt_trichotomy i j) as [Hlt | [Heq | Hgt]]; [| done |].
    + exfalso. by apply (Hno j i).
    + exfalso. by apply (Hno i j).
Qed.

(** [check_params] complains exactly about a parameter that is a defined
    constant and about a parameter that is listed twice: when the flag was
    not set before, it is not set afterwards exactly when the parameters
    are pairwise distinct and none of them is in [self.defs]; the namespace
    stack is left as it is, and a flag that was set stays set. *)
Theorem check_params_flags (defs : gmap string Expr) (ids : list string)
    (g : FJParser.globals) :
  FJParser.curr_namespace (FJParser.check_params defs ids g) = FJParser.curr_namespace g
  /\ (FJParser.error_occurred g = true ->
      FJParser.error_occurred (FJParser.check_params defs ids g) = true)
  /\ (FJParser.error_occurred g = false ->
      (FJParser.error_occurred (FJParser.check_params defs ids g) = false
       <-> NoDup ids /\ forall param_id, param_id ∈ ids -> defs !! param_id = None)).
Proof.
  rewrite check_params_eq.
  pose proof (same_id_exists_iff ids) as Hdup.
  destruct (existsb (FJParser.is_defined defs) ids) eqn:Hdef; cbn [orb].
  - split; [done |]. split; [done |]. intros _. split; [done |].
    intros [_ Hnone]. apply existsb_exists in Hdef as (x & Hx & Hd).
    unfold FJParser.is_defined in Hd. rewrite Hnone in Hd; [done |].
    by apply list_elem_of_In.
  - assert (Hnone : forall param_id, param_id ∈ ids -> defs !! param_id = None).
    { intros x Hx. rewrite <- not_true_iff_false in Hdef.
      destruct (defs !! x) eqn:Hl; [| done]. exfalso. apply Hdef.
      apply existsb_exists. exists x. split; [by apply list_elem_of_In |].
      unfold FJParser.is_defined. by rewrite Hl. }
    destruct (existsb _ (seq 0 (List.length ids))) eqn:Hex.
    + split; [done |]. split; [done |]. intros _. split; [done |].
      intros [Hnodup _]. exfalso. by apply Hdup.
    + split; [done |]. split; [done |]. intros Hg. split; [| done].
      intros _. split; [| done].
      destruct (decide (NoDup ids)) as [| Hn]; [done |].
      apply Hdup in Hn. congruence.
Qed.

Lemma check_params_flags_witness :
  FJParser.error_occurred (FJParser.mkGlobals [] false) = false
  /\ FJParser.error_occurred
       (FJParser.check_params {["w" := Expr_int 8]} ["a"; "b"] (FJParser.mkGlobals [] false))
     = false
  /\ FJParser.error_occurred
       (FJParser.check_params {["w" := Expr_int 8]} ["a"; "a"] (FJParser.mkGlobals [] false))
     = true.
Proof.
  split; [reflexivity |].
  destruct (check_params_flags {["w" := Expr_int 8]} ["a"; "b"]
              (FJParser.mkGlobals [] false)) as (_ & _ & Hok).
  split; [| reflexivity].
  apply (Hok eq_refl). split.
  - apply (bool_decide_unpack _). vm_compute. exact I.
  - intros x Hx. apply lookup_singleton_ne.
    apply elem_of_cons in Hx as [-> | Hx]; [done |].
    apply elem_of_cons in Hx as [-> | Hx]; [done |]. by apply elem_of_nil in Hx.
Defined.

(** ** Qualified names *)

Lemma last_segment_after_dot acc p s :
  FJParser.last_segment acc (p +:+ String "." s) = FJParser.last_segment EmptyString s.
Proof.
  revert acc. induction p as [| c p IH]; intros acc; [reflexivity |].
  change (String c p +:+ String "." s) with (String c (p +:+ String "." s)).
  destruct c as [[] [] [] [] [] [] [] []]; cbn [FJParser.last_segment]; apply IH.
Qed.

Lemma string_app_cons acc c s :
  (acc +:+ String c EmptyString) +:+ s = acc +:+ String c s.
Proof.
  induction acc as [| a acc IH]; [reflexivity |].
  change (String a ((acc +:+ String c EmptyString) +:+ s) = String a (acc +:+ String c s)).
  by rewrite IH.
Qed.

Lemma string_app_empty acc : acc +:+ EmptyString = acc.
Proof.
  induction acc as [| a acc IH]; [reflexivity |].
  change (String a (acc +:+ EmptyString) = String a acc). by rewrite IH.
Qed.

Lemma last_segment_no_dot acc s :
  ~ In "."%char (list_ascii_of_string s) ->
  FJParser.last_segment acc s = acc +:+ s.
Proof.
  revert acc. induction s as [| c s IH]; intros acc Hno.
  - cbn [FJParser.last_segment]. by rewrite string_app_empty.
  - assert (Hs : ~ In "."%char (list_ascii_of_string s)).
    { intros Hin. apply Hno. cbn. by right. }
    assert (Hc : c <> "."%char).
    { intros ->. apply Hno. cbn. by left. }
    destruct c as [[] [] [] [] [] [] [] []]; cbn [FJParser.last_segment];
      try (rewrite IH by done; apply string_app_cons).
    done.
Qed.

Lemma last_segment_concat acc ns base_name :
  ns <> [] ->
  FJParser.last_segment acc (String.concat "." (ns ++ [base_name]))
  = FJParser.last_segment EmptyString base_name.
Proof.
  revert acc. induction ns as [| x ns IH]; intros acc Hne; [done |].
  destruct ns as [| y ns].
  - change (String.concat "." ([x] ++ [base_name])) with (x +:+ String "." base_name).
    apply last_segment_after_dot.
  - change (String.concat "." ((x :: y :: ns) ++ [base_name]))
      with (x +:+ String "." (String.concat "." ((y :: ns) ++ [base_name]))).
    rewrite last_segment_after_dot. by apply IH.
Qed.

(** Qualifying a name and taking the base name again: the base name of
    [ns_full_name(base_name)] is the base name of [base_name], under every
    namespace stack; for a name without a dot it is the name itself. *)
Theorem ns_to_base_name_of_full_name (g : FJParser.globals) (base_name : string) :
  FJParser.ns_to_base_name (FJParser.ns_full_name g base_name)
  = FJParser.ns_to_base_name base_name
  /\ (~ In "."%char (list_ascii_of_string base_name) ->
      FJParser.ns_to_base_name (FJParser.ns_full_name g base_name) = base_name).
Proof.
  assert (Heq : FJParser.ns_to_base_name (FJParser.ns_full_name g base_name)
                = FJParser.ns_to_base_name base_name).
  { unfold FJParser.ns_to_base_name, FJParser.ns_full_name.
    destruct (FJParser.curr_namespace g) as [| x ns] eqn:Hns; [done |].
    by apply last_segment_concat. }
  split; [done |]. intros Hno. rewrite Heq.
  unfold FJParser.ns_to_base_name. by rewrite last_segment_no_dot.
Qed.

Lemma ns_to_base_name_of_full_name_witness :
  FJParser.ns_full_name (FJParser.mkGlobals ["a"; "b"] false) "loop" = "a.b.loop"
  /\ FJParser.ns_to_base_name "a.b.loop" = "loop".
Proof.
  assert (Hfull : FJParser.ns_full_name (FJParser.mkGlobals ["a"; "b"] false) "loop"
                  = "a.b.loop") by reflexivity.
  split; [exact Hfull |]. rewrite <- Hfull.
  apply (ns_to_base_name_of_full_name (FJParser.mkGlobals ["a"; "b"] false) "loop").
  cbn. intros [H | [H | [H | [H | []]]]]; discriminate H.
Defined.

(* ================================================================== *)
(** * Further properties of the loader: files that end too early *)

Lemma unpack_wrong_size fmt buf :
  List.length buf <> calcsize fmt -> unpack fmt buf = Raise struct_error.
Proof.
  intros Hne. unfold unpack.
  by destruct (Nat.eqb_spec (List.length buf) (calcsize fmt)).
Qed.

Lemma init_header_fields_short g (f : list byte) :
  (List.length f < 20)%nat -> Reader._init_header_fields g f = Raise struct_error.
Proof.
  intros Hlen. unfold Reader._init_header_fields, file_read. cbv beta iota zeta.
  rewrite (unpack_wrong_size header_base_format); [reflexivity |].
  rewrite length_take. change (Z.to_nat header_base_size) with 20%nat.
  change (calcsize header_base_format) with 20%nat. lia.
Qed.

Lemma read_segments_short n (f : list byte) :
  (List.length f < 32 * n)%nat -> Reader.read_segments n f = Raise struct_error.
Proof.
  revert f. induction n as [| n IH]; intros f Hlen; [lia |].
  cbn [Reader.read_segments]. unfold file_read. cbv beta iota zeta.
  change (Z.to_nat segment_size) with 32%nat.
  destruct (Nat.lt_ge_cases (List.length f) 32) as [Hshort | Hlong].
  - rewrite unpack_wrong_size; [done |].
    rewrite length_take. change (calcsize segment_format) with 32%nat. lia.
  - unfold unpack. rewrite length_take.
    replace (32 `min` List.length f)%nat with 32%nat by lia.
    change (calcsize segment_format) with 32%nat. cbn [Nat.eqb mbind result_bind].
    unfold segment_format. cbn [unpack_fields].
    rewrite IH; [done |]. rewrite length_drop. lia.
Qed.

Lemma unpack_words_partial tag n :
  fmt_size tag = n -> (0 < n)%nat ->
  forall fuel (d : list byte),
    (List.length d <= fuel)%nat -> (List.length d mod n <> 0)%nat ->
    Reader.unpack_words fuel tag n d = Raise struct_error.
Proof.
  intros Htag Hn. induction fuel as [| fuel IH]; intros d Hfuel Hmod.
  - destruct d; [| cbn in Hfuel; lia]. cbn in Hmod. rewrite Nat.Div0.mod_0_l in Hmod. done.
  - destruct d as [| b d]; [cbn in Hmod; rewrite Nat.Div0.mod_0_l in Hmod; done |].
    cbn [Reader.unpack_words].
    destruct (Nat.lt_ge_cases (List.length (b :: d)) n) as [Hshort | Hlong].
    + rewrite unpack_wrong_size; [done |].
      rewrite length_take. cbn [calcsize fold_right]. rewrite Htag. lia.
    + unfold unpack. rewrite length_take. cbn [calcsize fold_right]. rewrite Htag.
      replace (n `min` List.length (b :: d))%nat with (n + 0)%nat by lia.
      rewrite Nat.eqb_refl. cbn [unpack_fields mbind result_bind].
      rewrite IH; [done | |].
      * rewrite length_drop. cbn [List.length] in *. lia.
      * rewrite length_drop.
        replace (List.length (b :: d)) with ((List.length (b :: d) - n) + 1 * n)%nat in Hmod
          by lia.
        by rewrite Nat.Div0.mod_add in Hmod.
Qed.

(** A file that ends too early is a bad file.  The load raises the
    "bad file" exception when the file is shorter than the 20 bytes of
    the header; when the header is valid and fewer than 32 bytes per
    announced segment follow it; and when header and segment table are
    read, the word size is 8, 16, 32 or 64, and the bytes after the table
    are not a whole number of words. *)
Theorem truncated_file_is_bad_file (input_file : list byte)
    (garbage_handling : GarbageHandling) :
  let bad := Reader.__init__ input_file garbage_handling
             = Raise (FJReadFjmException BadFile) in
  ((List.length input_file < 20)%nat -> bad)
  /\ (forall self fjm_file,
        Reader._init_header_fields garbage_handling input_file = Ok (self, fjm_file) ->
        Reader._validate_header self = Ok tt ->
        (List.length fjm_file < 32 * Z.to_nat (Reader.segment_num self))%nat ->
        bad)
  /\ (forall self fjm_file segments file_data,
        Reader._init_header_fields garbage_handling input_file = Ok (self, fjm_file) ->
        Reader._validate_header self = Ok tt ->
        Reader._init_segments self fjm_file = Ok (segments, file_data) ->
        supported_word_size (Reader.w self) ->
        Z.of_nat (List.length file_data) mod (Reader.w self / 8) <> 0 ->
        bad).
Proof.
  intros bad. unfold bad, Reader.__init__. split; [| split].
  - intros Hlen. by rewrite init_header_fields_short.
  - intros self fjm_file Hh Hv Hlen. rewrite Hh. cbn [mbind result_bind].
    rewrite Hv. cbn [mbind result_bind]. unfold Reader._init_segments.
    by rewrite read_segments_short.
  - intros self fjm_file segments file_data Hh Hv Hs Hw Hmod. rewrite Hh.
    cbn [mbind result_bind]. rewrite Hv. cbn [mbind result_bind]. rewrite Hs.
    cbn [mbind result_bind]. unfold Reader._read_data.
    assert (Hraise : forall tag n, fmt_size tag = n -> (0 < n)%nat ->
                       Z.of_nat (List.length file_data) mod Z.of_nat n <> 0 ->
                       Reader.unpack_words (List.length file_data) tag n file_data
                       = Raise struct_error).
    { intros tag n Ht Hn Hm. apply unpack_words_partial; [done | done | lia |].
      intros Hz. apply Hm. rewrite <- Nat2Z.inj_mod. by rewrite Hz. }
    destruct Hw as [Hw | [Hw | [Hw | Hw]]]; rewrite Hw in *;
      cbn [Reader.read_tag Z.eqb Pos.eqb mbind result_bind];
      [ change (Z.to_nat (8 / 8)) with 1%nat; rewrite (Hraise fmt_B 1%nat)
      | change (Z.to_nat (16 / 8)) with 2%nat; rewrite (Hraise fmt_H 2%nat)
      | change (Z.to_nat (32 / 8)) with 4%nat; rewrite (Hraise fmt_L 4%nat)
      | change (Z.to_nat (64 / 8)) with 8%nat; rewrite (Hraise fmt_Q 8%nat) ];
      done || lia.
Qed.

Lemma truncated_file_is_bad_file_witness :
  Reader.__init__ [] Stop = Raise (FJReadFjmException BadFile)
  /\ Reader.__init__ Samples.truncated_table_fjm Stop = Raise (FJReadFjmException BadFile)
  /\ Reader.__init__ Samples.partial_word_fjm Stop = Raise (FJReadFjmException BadFile).
Proof.
  split; [| split].
  - apply (truncated_file_is_bad_file [] Stop). cbn. lia.
  - apply (proj1 (proj2 (truncated_file_is_bad_file Samples.truncated_table_fjm Stop))
             (Reader.mk Stop fj_magic 8 0 1 0 0 ∅ []) []).
    + vm_compute. reflexivity.
    + vm_compute. reflexivity.
    + vm_compute. lia.
  - apply (proj2 (proj2 (truncated_file_is_bad_file Samples.partial_word_fjm Stop))
             (Reader.mk Stop fj_magic 16 0 0 0 0 ∅ []) [x01; x00; x02] []
             [x01; x00; x02]).
    + vm_compute. reflexivity.
    + vm_compute. reflexivity.
    + vm_compute. reflexivity.
    + right. left. reflexivity.
    + vm_compute. discriminate.
Defined.

(* ================================================================== *)
(** * Further properties of the lexer: string constants *)

Lemma drop_chars_length n s :
  String.length (FJLexer.drop_chars n s) = (String.length s - n)%nat.
Proof.
  revert s. induction n as [| n IH]; intros s; cbn [FJLexer.drop_chars].
  - lia.
  - destruct s as [| c s]; [done |]. rewrite IH. done.
Qed.

Lemma slice_from_nonempty s i :
  0 <= i < Z.of_nat (String.length s) -> FJLexer.slice_from s i <> EmptyString.
Proof.
  intros Hi. unfold FJLexer.slice_from.
  destruct (Z.ltb_spec i 0); [lia |].
  intros Hempty. pose proof (drop_chars_length (Z.to_nat i) s) as Hlen.
  rewrite Hempty in Hlen. cbn in Hlen. lia.
Qed.

Section LexerFacts.

Variable get_char_value_and_length : string -> Z * Z.
Hypothesis progress :
  forall s, s <> EmptyString -> 1 <= snd (get_char_value_and_length s).

Lemma STRING_loop_ends s :
  forall fuel i chars,
    0 <= i -> Z.of_nat (String.length s) - i <= Z.of_nat fuel ->
    exists chars',
      FJLexer.STRING_loop get_char_value_and_length fuel s i chars = Some chars'
      /\ Z.of_nat (List.length chars')
         <= Z.of_nat (List.length chars) + Z.max 0 (Z.of_nat (String.length s) - i).
Proof.
  induction fuel as [| fuel IH]; intros i chars Hi Hfuel.
  - cbn [FJLexer.STRING_loop].
    destruct (Z.ltb_spec i (Z.of_nat (String.length s))); [lia |].
    exists chars. split; [done | lia].
  - cbn [FJLexer.STRING_loop].
    destruct (Z.ltb_spec i (Z.of_nat (String.length s))) as [Hlt | Hge].
    2:{ exists chars. split; [done | lia]. }
    pose proof (progress _ (slice_from_nonempty s i (conj Hi Hlt))) as Hp.
    destruct (get_char_value_and_length (FJLexer.slice_from s i)) as [val length].
    cbn [snd] in Hp.
    destruct (IH (i + length) (chars ++ [val])) as (chars' & Hloop & Hlen); [lia | lia |].
    exists chars'. split; [done |]. rewrite length_app in Hlen. cbn [List.length] in Hlen.
    lia.
Qed.

End LexerFacts.

Lemma fold_left_add_acc (l : list Z) (acc : Z) :
  fold_left Z.add l acc = acc + fold_left Z.add l 0.
Proof.
  revert acc. induction l as [| x l IH]; intros acc; cbn [fold_left]; [lia |].
  rewrite (IH (acc + x)), (IH (0 + x)). lia.
Qed.

(** The number whose base-256 digits, lowest first, are [chars]. *)
Lemma packed_from_digits (chars : list Z) :
  forall k : nat,
    fold_left Z.add (imap (fun i val => Z.shiftl val (Z.of_nat (k + i) * 8)) chars) 0
    = 256 ^ Z.of_nat k * fold_right (fun c acc => c + 256 * acc) 0 chars.
Proof.
  induction chars as [| c chars IH]; intros k; [cbn; lia |].
  rewrite imap_cons. cbn [fold_left fold_right]. rewrite fold_left_add_acc.
  rewrite (imap_ext _ (fun i val => Z.shiftl val (Z.of_nat (S k + i) * 8))).
  2:{ intros i x _. cbn. do 2 f_equal. lia. }
  rewrite IH. rewrite Z.shiftl_mul_pow2 by lia.
  replace (Z.of_nat (k + 0) * 8) with (8 * Z.of_nat k) by lia.
  rewrite Z.pow_mul_r by lia. change (2 ^ 8) with 256.
  rewrite Nat2Z.inj_succ, Z.pow_succ_r by lia. ring.
Qed.

Lemma digits_range (chars : list Z) :
  Forall (fun c => 0 <= c < 256) chars ->
  0 <= fold_right (fun c acc => c + 256 * acc) 0 chars < 256 ^ Z.of_nat (List.length chars).
Proof.
  induction 1 as [| c chars Hc _ IH]; [cbn; lia |].
  cbn [fold_right List.length]. rewrite Nat2Z.inj_succ, Z.pow_succ_r by lia. lia.
Qed.

Lemma digits_digit (chars : list Z) :
  Forall (fun c => 0 <= c < 256) chars ->
  forall (k : nat) c,
    chars !! k = Some c ->
    (fold_right (fun c acc => c + 256 * acc) 0 chars / 256 ^ Z.of_nat k) mod 256 = c.
Proof.
  induction 1 as [| c0 chars Hc _ IH]; intros k c Hk; [done |].
  cbn [fold_right]. destruct k as [| k].
  - cbn in Hk. injection Hk as <-. change (256 ^ Z.of_nat 0) with 1. rewrite Z.div_1_r.
    replace (c0 + 256 * fold_right (fun c acc => c + 256 * acc) 0 chars)
      with (c0 + fold_right (fun c acc => c + 256 * acc) 0 chars * 256) by lia.
    rewrite Z.mod_add by lia. by apply Z.mod_small.
  - cbn in Hk. rewrite Nat2Z.inj_succ, Z.pow_succ_r by lia.
    rewrite <- Z.div_div by lia.
    replace (c0 + 256 * fold_right (fun c acc => c + 256 * acc) 0 chars)
      with (c0 + fold_right (fun c acc => c + 256 * acc) 0 chars * 256) by lia.
    rewrite Z.div_add by lia. rewrite (Z.div_small c0) by lia. rewrite Z.add_0_l.
    by apply IH.
Qed.

(** A string constant is packed with its first character lowest.  When the
    character decoder takes at least one character of every non-empty
    string, the loop of [STRING] ends within as many iterations as the
    string has characters and decodes at most that many characters; and
    when the decoded values are bytes, the value of the token is below
    [256 ^ n] for [n] decoded characters and its [k]-th byte is the value
    of the [k]-th character. *)
Theorem STRING_packs_little_endian (get_char_value_and_length : string -> Z * Z)
    (value : string) :
  (forall s, s <> EmptyString -> 1 <= snd (get_char_value_and_length s)) ->
  exists chars,
    FJLexer.STRING_loop get_char_value_and_length
      (String.length (FJLexer.strip_ends value)) (FJLexer.strip_ends value) 0 []
    = Some chars
    /\ FJLexer.STRING get_char_value_and_length
         (String.length (FJLexer.strip_ends value)) value
       = Some (FJLexer.packed chars)
    /\ (List.length chars <= String.length (FJLexer.strip_ends value))%nat
    /\ (Forall (fun c => 0 <= c < 256) chars ->
        0 <= FJLexer.packed chars < 256 ^ Z.of_nat (List.length chars)
        /\ forall (k : nat) c,
             chars !! k = Some c ->
             Z.land (Z.shiftr (FJLexer.packed chars) (Z.of_nat k * 8)) 255 = c).
Proof.
  intros Hprogress.
  destruct (STRING_loop_ends get_char_value_and_length Hprogress (FJLexer.strip_ends value)
              (String.length (FJLexer.strip_ends value)) 0 [])
    as (chars & Hloop & Hlen); [lia | lia |].
  exists chars. split; [done |]. split.
  { unfold FJLexer.STRING. by rewrite Hloop. }
  split; [cbn [List.length] in Hlen; lia |].
  intros Hbytes.
  assert (Hpacked : FJLexer.packed chars = fold_right (fun c acc => c + 256 * acc) 0 chars).
  { unfold FJLexer.packed. pose proof (packed_from_digits chars 0) as Hd.
    cbn [Nat.add] in Hd. rewrite Hd. change (256 ^ Z.of_nat 0) with 1. lia. }
  rewrite Hpacked. split; [by apply digits_range |].
  intros k c Hk. rewrite Z.shiftr_div_pow2 by lia.
  replace (Z.of_nat k * 8) with (8 * Z.of_nat k) by lia.
  rewrite Z.pow_mul_r by lia. change (2 ^ 8) with 256.
  change 255 with (Z.ones 8). rewrite Z.land_ones by lia. change (2 ^ 8) with 256.
  by apply digits_digit.
Qed.

Lemma STRING_packs_little_endian_witness :
  FJLexer.STRING Samples.plain_char_value 2 Samples.quoted_AB = Some 16961
  /\ Z.land (Z.shiftr 16961 0) 255 = 65
  /\ Z.land (Z.shiftr 16961 8) 255 = 66.
Proof.
  destruct (STRING_packs_little_endian Samples.plain_char_value Samples.quoted_AB)
    as (chars & Hloop & Hvalue & _ & Hbytes).
  { intros [| c s] Hs; [done | cbn; lia]. }
  assert (Hchars : chars = [65; 66]).
  { assert (Hrun : FJLexer.STRING_loop Samples.plain_char_value
                     (String.length (FJLexer.strip_ends Samples.quoted_AB))
                     (FJLexer.strip_ends Samples.quoted_AB) 0 [] = Some [65; 66])
      by (vm_compute; reflexivity).
    rewrite Hrun in Hloop. by injection Hloop as <-. }
  subst chars.
  destruct Hbytes as [_ Hbyte].
  { repeat constructor; lia. }
  split; [exact Hvalue |].
  split; [exact (Hbyte 0%nat 65 eq_refl) | exact (Hbyte 1%nat 66 eq_refl)].
Defined.
